(** * Checkers rules engine: board model, move generation and turn state machine

    A shallow embedding of [game_state.py] (class [CheckersGame]), [board.py]
    (class [Board]) and [piece.py] (class [Piece]).  Python lists are Rocq
    lists read and written through Python's indexing rules (negative indices
    count from the end, anything else out of range raises [IndexError]);
    methods that only read [self] are functions into [outcome], methods that
    assign to [self] run in the state-and-exception monad [M]. *)

From Stdlib Require Import ZArith List Bool Lia.
From stdpp Require Import base list gmap.
Import ListNotations.
Local Open Scope Z_scope.

(** ** Python values *)

Inductive exn := IndexError | AttributeError.

Inductive outcome (A : Type) :=
| Returns (a : A)
| Raises (e : exn).
Arguments Returns {A} a.
Arguments Raises {A} e.

Definition obind {A B} (m : outcome A) (k : A -> outcome B) : outcome B :=
  match m with
  | Returns a => k a
  | Raises e => Raises e
  end.

Notation "x <- m ;; k" := (obind m (fun x => k))
  (at level 100, m at next level, right associativity).

(** [range(lo, hi)] *)
Definition range (lo hi : Z) : list Z :=
  map (fun k => lo + Z.of_nat k) (seq 0 (Z.to_nat (hi - lo))).

(** Position in a list of length [len] designated by the Python index [i]. *)
Definition py_index (len : nat) (i : Z) : option nat :=
  let n := Z.of_nat len in
  if (0 <=? i) && (i <? n) then Some (Z.to_nat i)
  else if (- n <=? i) && (i <? 0) then Some (Z.to_nat (i + n))
  else None.

(** [l[i]] *)
Definition getitem {A} (l : list A) (i : Z) : outcome A :=
  match py_index (length l) i with
  | Some k => match l !! k with
              | Some x => Returns x
              | None => Raises IndexError
              end
  | None => Raises IndexError
  end.

(** [l[i] = x] *)
Definition setitem {A} (l : list A) (i : Z) (x : A) : outcome (list A) :=
  match py_index (length l) i with
  | Some k => Returns (<[k:=x]> l)
  | None => Raises IndexError
  end.

(** Early-exit loop: [for x in l: if f(x): return True] ... [return False]. *)
Fixpoint for_any {A} (f : A -> outcome bool) (l : list A) : outcome bool :=
  match l with
  | [] => Returns false
  | x :: t => b <- f x ;; if b then Returns true else for_any f t
  end.

(** Collecting loop: [for x in l: if cond(x): out.append(val(x))]. *)
Fixpoint for_append {A B} (cond : A -> outcome bool) (val : A -> B)
    (l : list A) : outcome (list B) :=
  match l with
  | [] => Returns []
  | x :: t =>
      b <- cond x ;;
      rest <- for_append cond val t ;;
      Returns (if b then val x :: rest else rest)
  end.

(** ** Pieces *)

Inductive Color := red | black.

Definition color_eqb (a b : Color) : bool :=
  match a, b with
  | red, red | black, black => true
  | _, _ => false
  end.

(** The dataclass [Piece]; [piece.py] and [game_state.py] declare it with the
    same two fields. *)
Record Piece := mkPiece { color : Color; king : bool }.

(** Truth value of an [Optional[Piece]]: [None] is false, an instance true. *)
Definition truthy (c : option Piece) : bool :=
  match c with Some _ => true | None => false end.

Definition pos_eqb (a b : Z * Z) : bool :=
  (fst a =? fst b) && (snd a =? snd b).

(** [x in l] for a list of coordinate tuples. *)
Definition py_in (x : Z * Z) (l : list (Z * Z)) : bool := existsb (pos_eqb x) l.

(** [bool(l)] for a list. *)
Definition nonempty {A} (l : list A) : bool :=
  match l with [] => false | _ => true end.

Module Piece.

(** [Piece.get_move_directions] *)
Definition get_move_directions (self : Piece) : list (Z * Z) :=
  (if color_eqb (color self) red || king self
   then [(-1, -1); (-1, 1)] else [])
  ++ (if color_eqb (color self) black || king self
      then [(1, -1); (1, 1)] else []).

(** [Piece.can_move_direction] *)
Definition can_move_direction (self : Piece) (row_delta col_delta : Z) : bool :=
  if negb (Z.abs row_delta =? Z.abs col_delta) then false
  else if king self then true
  else if color_eqb (color self) red then row_delta <? 0
  else 0 <? row_delta.

End Piece.

(** ** The grid *)

Abbreviation Grid := (list (list (option Piece))).

(** [grid[row][col]] *)
Definition grid_get (b : Grid) (row col : Z) : outcome (option Piece) :=
  r <- getitem b row ;; getitem r col.

(** [grid[row][col] = v]: the row object is fetched and updated in place.
    Rows are never shared between two positions of the outer list (every
    grid is built by a comprehension that allocates each row), so the update
    is that of one row. *)
Definition grid_set (b : Grid) (row col : Z) (v : option Piece) : outcome Grid :=
  r <- getitem b row ;;
  r' <- setitem r col v ;;
  setitem b row r'.

(** ** [game_state.py]: [CheckersGame] *)

Record CheckersGame := mkGame {
  board : Grid;
  current_player : Color;
  selected_piece : option (Z * Z);
  valid_moves : list (Z * Z);
  must_capture : bool;
  winner : option Color
}.

Definition set_board (g : CheckersGame) (b : Grid) : CheckersGame :=
  mkGame b (current_player g) (selected_piece g) (valid_moves g)
         (must_capture g) (winner g).
Definition set_current_player (g : CheckersGame) (c : Color) : CheckersGame :=
  mkGame (board g) c (selected_piece g) (valid_moves g)
         (must_capture g) (winner g).
Definition set_selected_piece (g : CheckersGame) (s : option (Z * Z)) : CheckersGame :=
  mkGame (board g) (current_player g) s (valid_moves g)
         (must_capture g) (winner g).
Definition set_valid_moves (g : CheckersGame) (l : list (Z * Z)) : CheckersGame :=
  mkGame (board g) (current_player g) (selected_piece g) l
         (must_capture g) (winner g).
Definition set_must_capture (g : CheckersGame) (m : bool) : CheckersGame :=
  mkGame (board g) (current_player g) (selected_piece g) (valid_moves g)
         m (winner g).
Definition set_winner (g : CheckersGame) (w : option Color) : CheckersGame :=
  mkGame (board g) (current_player g) (selected_piece g) (valid_moves g)
         (must_capture g) w.

(** Methods that assign to [self]: the object after the call (also after an
    exception, which leaves the assignments made so far) and the outcome. *)
Definition M (A : Type) : Type := CheckersGame -> CheckersGame * outcome A.

Definition ret {A} (a : A) : M A := fun g => (g, Returns a).
Definition bind {A B} (m : M A) (k : A -> M B) : M B :=
  fun g => match m g with
           | (g', Returns a) => k a g'
           | (g', Raises e) => (g', Raises e)
           end.
(** Run a method that only reads [self]. *)
Definition read {A} (f : CheckersGame -> outcome A) : M A := fun g => (g, f g).
(** Read an attribute. *)
Definition attr {A} (f : CheckersGame -> A) : M A := fun g => (g, Returns (f g)).
(** Assign an attribute. *)
Definition assign {A} (set : CheckersGame -> A -> CheckersGame) (a : A) : M unit :=
  fun g => (set g a, Returns tt).
(** [self.board[row][col] = v] *)
Definition store (row col : Z) (v : option Piece) : M unit :=
  fun g => match grid_set (board g) row col v with
           | Returns b' => (set_board g b', Returns tt)
           | Raises e => (g, Raises e)
           end.

Notation "x <~ m ;; k" := (bind m (fun x => k))
  (at level 100, m at next level, right associativity).
Notation "m ;;; k" := (bind m (fun _ => k))
  (at level 100, right associativity).

(** [for x in l: body(x)] *)
Fixpoint for_each {A} (body : A -> M unit) (l : list A) : M unit :=
  match l with
  | [] => ret tt
  | x :: t => body x ;;; for_each body t
  end.

Definition in_board (x : Z) : bool := (0 <=? x) && (x <? 8).

Definition other (c : Color) : Color :=
  if color_eqb c red then black else red.

Module CheckersGame.

(** [initialize_board] *)
Definition initialize_board : M unit :=
  assign set_board (map (fun _ => repeat None 8) (range 0 8)) ;;;
  for_each (fun row =>
    for_each (fun col =>
      if (row + col) mod 2 =? 1
      then store row col (Some (mkPiece black false))
      else ret tt) (range 0 8)) (range 0 3) ;;;
  for_each (fun row =>
    for_each (fun col =>
      if (row + col) mod 2 =? 1
      then store row col (Some (mkPiece red false))
      else ret tt) (range 0 8)) (range 5 8).

(** The direction list built at lines 49-55 of [_get_piece_moves]. *)
Definition directions (piece : Piece) : list (Z * Z) :=
  (if color_eqb (color piece) red || king piece
   then [(-1, -1); (-1, 1)] else [])
  ++ (if color_eqb (color piece) black || king piece
      then [(1, -1); (1, 1)] else []).

(** The condition of the capture loop, evaluated left to right with the
    short-circuit of [and]. *)
Definition capture_cond (g : CheckersGame) (piece : Piece) (row col : Z)
    (d : Z * Z) : outcome bool :=
  let '(d_row, d_col) := d in
  let new_row := row + d_row * 2 in
  let new_col := col + d_col * 2 in
  let mid_row := row + d_row in
  let mid_col := col + d_col in
  if negb (in_board new_row && in_board new_col) then Returns false
  else
    mid <- grid_get (board g) mid_row mid_col ;;
    match mid with
    | None => Returns false
    | Some m =>
        if color_eqb (color m) (color piece) then Returns false
        else
          tgt <- grid_get (board g) new_row new_col ;;
          Returns (negb (truthy tgt))
    end.

(** The condition of the regular-move loop. *)
Definition step_cond (g : CheckersGame) (row col : Z) (d : Z * Z) : outcome bool :=
  let '(d_row, d_col) := d in
  let new_row := row + d_row in
  let new_col := col + d_col in
  if negb (in_board new_row && in_board new_col) then Returns false
  else
    tgt <- grid_get (board g) new_row new_col ;;
    Returns (negb (truthy tgt)).

Definition jump_to (row col : Z) (d : Z * Z) : Z * Z :=
  (row + fst d * 2, col + snd d * 2).
Definition step_to (row col : Z) (d : Z * Z) : Z * Z :=
  (row + fst d, col + snd d).

(** The two loops of [_get_piece_moves] over a given direction list. *)
Definition moves_along (g : CheckersGame) (piece : Piece) (row col : Z)
    (dirs : list (Z * Z)) (capture_only : bool) : outcome (list (Z * Z)) :=
  captures <- for_append (capture_cond g piece row col) (jump_to row col) dirs ;;
  if nonempty captures || capture_only then Returns captures
  else for_append (step_cond g row col) (step_to row col) dirs.

(** [_get_piece_moves] *)
Definition _get_piece_moves (g : CheckersGame) (row col : Z)
    (capture_only : bool) : outcome (list (Z * Z)) :=
  piece <- grid_get (board g) row col ;;
  match piece with
  | None => Returns []
  | Some p =>
      if negb (color_eqb (color p) (current_player g)) then Returns []
      else moves_along g p row col (directions p) capture_only
  end.

(** The scan of [_check_for_captures], up to its [return]. *)
Definition scan_for_captures (g : CheckersGame) : outcome bool :=
  for_any (fun row =>
    for_any (fun col =>
      piece <- grid_get (board g) row col ;;
      match piece with
      | Some p =>
          if color_eqb (color p) (current_player g) then
            moves <- _get_piece_moves g row col true ;;
            Returns (nonempty moves)
          else Returns false
      | None => Returns false
      end) (range 0 8)) (range 0 8).

(** [_check_for_captures] *)
Definition _check_for_captures : M bool :=
  found <~ read scan_for_captures ;;
  assign set_must_capture found ;;;
  ret found.

(** [_can_continue_capture] *)
Definition _can_continue_capture (g : CheckersGame) (row col : Z) : outcome bool :=
  moves <- _get_piece_moves g row col true ;;
  Returns (nonempty moves).

(** [select_piece] *)
Definition select_piece (row col : Z) : M bool :=
  piece <~ read (fun g => grid_get (board g) row col) ;;
  player <~ attr current_player ;;
  match piece with
  | None => ret false
  | Some p =>
      if negb (color_eqb (color p) player) then ret false
      else
        forced <~ attr must_capture ;;
        if forced then
          moves <~ read (fun g => _get_piece_moves g row col true) ;;
          if negb (nonempty moves) then ret false
          else
            assign set_selected_piece (Some (row, col)) ;;;
            assign set_valid_moves moves ;;;
            ret true
        else
          moves <~ read (fun g => _get_piece_moves g row col false) ;;
          assign set_selected_piece (Some (row, col)) ;;;
          assign set_valid_moves moves ;;;
          ret true
  end.

(** [is_game_over] *)
Definition is_game_over (g : CheckersGame) : outcome bool :=
  found <- for_any (fun row =>
    for_any (fun col =>
      piece <- grid_get (board g) row col ;;
      match piece with
      | Some p =>
          if color_eqb (color p) (current_player g) then
            moves <- _get_piece_moves g row col false ;;
            Returns (nonempty moves)
          else Returns false
      | None => Returns false
      end) (range 0 8)) (range 0 8) ;;
  Returns (negb found).

(** [_end_turn] *)
Definition _end_turn : M unit :=
  player <~ attr current_player ;;
  assign set_current_player (if color_eqb player red then black else red) ;;;
  assign set_selected_piece None ;;;
  assign set_valid_moves [] ;;;
  _check_for_captures ;;;
  over <~ read is_game_over ;;
  if over then
    player' <~ attr current_player ;;
    assign set_winner (Some (if color_eqb player' red then black else red))
  else ret tt.

(** [piece.king = True] at lines 128-130 of [make_move].  [piece] is the
    object fetched from the old square; the only other reference to it is
    the one just stored at [(new_row, new_col)], unless a later store to the
    same position replaced it by [None].  Setting the attribute is therefore
    an update of the square [(new_row, new_col)] when it is still occupied,
    and invisible otherwise.  Reading [piece.color] on [None] raises. *)
Definition promote (piece : option Piece) (new_row new_col : Z) : M unit :=
  match piece with
  | None => fun g => (g, Raises AttributeError)
  | Some p =>
      if (color_eqb (color p) red && (new_row =? 0))
         || (color_eqb (color p) black && (new_row =? 7))
      then
        here <~ read (fun g => grid_get (board g) new_row new_col) ;;
        match here with
        | Some q => store new_row new_col (Some (mkPiece (color q) true))
        | None => ret tt
        end
      else ret tt
  end.

(** Lines 115-130 of [make_move]: relocation, capture and promotion. *)
Definition apply_move (old_row old_col new_row new_col : Z) : M bool :=
  piece <~ read (fun g => grid_get (board g) old_row old_col) ;;
  store new_row new_col piece ;;;
  store old_row old_col None ;;;
  let is_capture := Z.abs (new_row - old_row) =? 2 in
  (if is_capture then
     let mid_row := (new_row + old_row) / 2 in
     let mid_col := (new_col + old_col) / 2 in
     store mid_row mid_col None
   else ret tt) ;;;
  promote piece new_row new_col ;;;
  ret is_capture.

(** [make_move] *)
Definition make_move (new_row new_col : Z) : M bool :=
  sel <~ attr selected_piece ;;
  moves <~ attr valid_moves ;;
  match sel with
  | None => ret false
  | Some (old_row, old_col) =>
      if negb (py_in (new_row, new_col) moves) then ret false
      else
        is_capture <~ apply_move old_row old_col new_row new_col ;;
        continue <~ (if is_capture
                     then read (fun g => _can_continue_capture g new_row new_col)
                     else ret false) ;;
        if continue then
          assign set_selected_piece (Some (new_row, new_col)) ;;;
          moves' <~ read (fun g => _get_piece_moves g new_row new_col true) ;;
          assign set_valid_moves moves' ;;;
          ret true
        else
          _end_turn ;;;
          ret true
  end.

(** [__init__], run on the freshly allocated object. *)
Definition __init__ : M unit :=
  initialize_board ;;;
  assign set_current_player red ;;;
  assign set_selected_piece None ;;;
  assign set_valid_moves [] ;;;
  assign set_must_capture false ;;;
  assign set_winner None ;;;
  _check_for_captures ;;;
  ret tt.

(** An object before [__init__] has run: no attribute has been assigned,
    and every field below is overwritten by [__init__]. *)
Definition blank : CheckersGame := mkGame [] red None [] false None.

(** [CheckersGame()] *)
Definition new : CheckersGame := fst (__init__ blank).

End CheckersGame.


(** ** [game_state.py]: snapshots *)

(** The dictionary written by [Piece.serialize]: its two keys are fixed. *)
Record PieceData := mkPieceData { data_color : Color; data_king : bool }.

(** The dictionary written by [CheckersGame.serialize]. *)
Record Snapshot := mkSnapshot {
  snap_board : list (list (option PieceData));
  snap_current_player : Color;
  snap_selected_piece : option (Z * Z);
  snap_valid_moves : list (Z * Z);
  snap_must_capture : bool;
  snap_winner : option Color
}.

Module Snapshots.

(** [Piece.serialize] *)
Definition piece_serialize (self : Piece) : PieceData :=
  mkPieceData (color self) (king self).

(** [Piece.deserialize]: the constructor applied to the entries of [data]
    when [data] is true, else [None]; a dictionary with two keys is true. *)
Definition piece_deserialize (data : option PieceData) : option Piece :=
  match data with
  | Some d => Some (mkPiece (data_color d) (data_king d))
  | None => None
  end.

(** [CheckersGame.serialize] *)
Definition serialize (self : CheckersGame) : Snapshot :=
  mkSnapshot
    (map (fun row =>
            map (fun piece => match piece with
                              | Some p => Some (piece_serialize p)
                              | None => None
                              end) row) (board self))
    (current_player self)
    (selected_piece self)
    (valid_moves self)
    (must_capture self)
    (winner self).

(** [CheckersGame.deserialize]: [cls()] and six assignments. *)
Definition deserialize (data : Snapshot) : CheckersGame * outcome unit :=
  (CheckersGame.__init__ ;;;
   assign set_board
     (map (fun row =>
             map (fun piece_data => match piece_data with
                                    | Some d => piece_deserialize (Some d)
                                    | None => None
                                    end) row) (snap_board data)) ;;;
   assign set_current_player (snap_current_player data) ;;;
   assign set_selected_piece (snap_selected_piece data) ;;;
   assign set_valid_moves (snap_valid_moves data) ;;;
   assign set_must_capture (snap_must_capture data) ;;;
   assign set_winner (snap_winner data)) CheckersGame.blank.

End Snapshots.

(** ** [piece.py]: snapshots of a piece *)

Module PieceSnapshots.

(** [Piece.serialize] of [piece.py] *)
Definition serialize (self : Piece) : PieceData :=
  mkPieceData (color self) (king self).

(** [Piece.deserialize] of [piece.py] *)
Definition deserialize (data : option PieceData) : option Piece :=
  match data with
  | None => None
  | Some d => Some (mkPiece (data_color d) (data_king d))
  end.

(** [Piece.clone] *)
Definition clone (self : Piece) : Piece :=
  mkPiece (color self) (king self).

End PieceSnapshots.

(** ** [board.py]: [Board] *)

(** Accumulating loop: [for x in l: acc = body(acc, x)]. *)
Fixpoint for_fold {A S} (body : S -> A -> outcome S) (l : list A) (acc : S)
    : outcome S :=
  match l with
  | [] => Returns acc
  | x :: t => acc' <- body acc x ;; for_fold body t acc'
  end.

Module Board.

Definition BOARD_SIZE : Z := 8.

(** [Board.is_dark_square] *)
Definition is_dark_square (row col : Z) : bool := (row + col) mod 2 =? 1.

(** [Board.is_valid_position] *)
Definition is_valid_position (row col : Z) : bool :=
  ((0 <=? row) && (row <? BOARD_SIZE)) && ((0 <=? col) && (col <? BOARD_SIZE)).

(** [Board.get_piece] *)
Definition get_piece (squares : Grid) (row col : Z) : outcome (option Piece) :=
  if is_valid_position row col then grid_get squares row col
  else Returns None.

(** [Board._check_capture] *)
Definition _check_capture (squares : Grid) (row col d_row d_col : Z)
    (piece_color : Color) : outcome (option (Z * Z)) :=
  let jump_row := row + d_row * 2 in
  let jump_col := col + d_col * 2 in
  let mid_row := row + d_row in
  let mid_col := col + d_col in
  if negb (is_valid_position jump_row jump_col) then Returns None
  else
    mid_piece <- get_piece squares mid_row mid_col ;;
    match mid_piece with
    | None => Returns None
    | Some m =>
        if color_eqb (color m) piece_color then Returns None
        else
          tgt <- get_piece squares jump_row jump_col ;;
          if truthy tgt then Returns None
          else Returns (Some (jump_row, jump_col))
    end.

(** [Board.get_valid_moves] *)
Definition get_valid_moves (squares : Grid) (row col : Z)
    (capture_only : bool) : outcome (gset (Z * Z)) :=
  piece <- get_piece squares row col ;;
  match piece with
  | None => Returns ∅
  | Some p =>
      let directions := Piece.get_move_directions p in
      captures <- for_fold (fun (acc : gset (Z * Z)) '(d_row, d_col) =>
          capture_pos <- _check_capture squares row col d_row d_col (color p) ;;
          match capture_pos with
          | Some pos => Returns (acc ∪ {[pos]})
          | None => Returns acc
          end) directions ∅ ;;
      if bool_decide (captures ≠ ∅) || capture_only then Returns captures
      else
        for_fold (fun (acc : gset (Z * Z)) '(d_row, d_col) =>
          let new_row := row + d_row in
          let new_col := col + d_col in
          if is_valid_position new_row new_col then
            tgt <- get_piece squares new_row new_col ;;
            if truthy tgt then Returns acc
            else Returns (acc ∪ {[(new_row, new_col)]})
          else Returns acc) directions ∅
  end.

(** [Board._place_initial_pieces] *)
Definition _place_initial_pieces (squares : Grid) (c : Color)
    (start_row end_row : Z) : outcome Grid :=
  for_fold (fun sq row =>
    for_fold (fun sq' col =>
      if is_dark_square row col
      then grid_set sq' row col (Some (mkPiece c false))
      else Returns sq') (range 0 BOARD_SIZE) sq)
    (range start_row end_row) squares.

(** [Board._initialize_pieces] *)
Definition _initialize_pieces (squares : Grid) : outcome Grid :=
  sq <- _place_initial_pieces squares black 0 3 ;;
  _place_initial_pieces sq red 5 8.

(** [Board.__init__]: the [squares] of a new board. *)
Definition __init__ : outcome Grid :=
  _initialize_pieces
    (map (fun _ => repeat None (Z.to_nat BOARD_SIZE))
         (range 0 BOARD_SIZE)).

(** [Board.move_piece]: the squares after the call, and what it returns. *)
Definition move_piece (squares : Grid) (from_pos to_pos : Z * Z)
    : Grid * outcome (option (Z * Z)) :=
  let '(from_row, from_col) := from_pos in
  let '(to_row, to_col) := to_pos in
  if negb (is_valid_position from_row from_col
           && is_valid_position to_row to_col)
  then (squares, Returns None)
  else
    match grid_get squares from_row from_col with
    | Raises e => (squares, Raises e)
    | Returns piece =>
        if negb (truthy piece) then (squares, Returns None)
        else
          match grid_set squares to_row to_col piece with
          | Raises e => (squares, Raises e)
          | Returns s1 =>
              match grid_set s1 from_row from_col None with
              | Raises e => (s1, Raises e)
              | Returns s2 =>
                  if Z.abs (to_row - from_row) =? 2 then
                    let captured_row := (to_row + from_row) / 2 in
                    let captured_col := (to_col + from_col) / 2 in
                    match grid_set s2 captured_row captured_col None with
                    | Raises e => (s2, Raises e)
                    | Returns s3 =>
                        (s3, Returns (Some (captured_row, captured_col)))
                    end
                  else (s2, Returns None)
              end
          end
    end.

(** [Board.promote_if_eligible]: [piece.king = True] updates the object
    that [squares[row][col]] refers to. *)
Definition promote_if_eligible (squares : Grid) (row col : Z)
    : Grid * outcome unit :=
  match get_piece squares row col with
  | Raises e => (squares, Raises e)
  | Returns None => (squares, Returns tt)
  | Returns (Some piece) =>
      if (color_eqb (color piece) red && (row =? 0))
         || (color_eqb (color piece) black && (row =? BOARD_SIZE - 1))
      then
        match grid_set squares row col (Some (mkPiece (color piece) true)) with
        | Raises e => (squares, Raises e)
        | Returns s' => (s', Returns tt)
        end
      else (squares, Returns tt)
  end.

(** [Board.has_captures_available] *)
Definition has_captures_available (squares : Grid) (c : Color) : outcome bool :=
  for_any (fun row =>
    for_any (fun col =>
      piece <- get_piece squares row col ;;
      match piece with
      | Some p =>
          if color_eqb (color p) c then
            moves <- get_valid_moves squares row col true ;;
            Returns (bool_decide (moves ≠ ∅))
          else Returns false
      | None => Returns false
      end) (range 0 BOARD_SIZE)) (range 0 BOARD_SIZE).

(** [Board.has_valid_moves] *)
Definition has_valid_moves (squares : Grid) (c : Color) : outcome bool :=
  for_any (fun row =>
    for_any (fun col =>
      piece <- get_piece squares row col ;;
      match piece with
      | Some p =>
          if color_eqb (color p) c then
            moves <- get_valid_moves squares row col false ;;
            Returns (bool_decide (moves ≠ ∅))
          else Returns false
      | None => Returns false
      end) (range 0 BOARD_SIZE)) (range 0 BOARD_SIZE).

(** [Board.count_pieces] *)
Definition count_pieces (squares : Grid) (c : Color) : outcome Z :=
  for_fold (fun count row =>
    for_fold (fun count' col =>
      piece <- get_piece squares row col ;;
      match piece with
      | Some p => if color_eqb (color p) c then Returns (count' + 1)
                  else Returns count'
      | None => Returns count'
      end) (range 0 BOARD_SIZE) count)
    (range 0 BOARD_SIZE) 0.

(** [Board.serialize] *)
Definition serialize (squares : Grid) : list (list (option PieceData)) :=
  map (fun row =>
         map (fun piece => match piece with
                           | Some p => Some (PieceSnapshots.serialize p)
                           | None => None
                           end) row) squares.

(** [Board.deserialize]: [cls()], then [squares] is replaced. *)
Definition deserialize (data : list (list (option PieceData))) : outcome Grid :=
  _ <- __init__ ;;
  Returns (map (fun row =>
                  map (fun piece_data =>
                         match piece_data with
                         | Some d => PieceSnapshots.deserialize (Some d)
                         | None => None
                         end) row) data).

(** [Board.clone] *)
Definition clone (squares : Grid) : outcome Grid :=
  _ <- __init__ ;;
  Returns (map (fun row =>
                  map (fun piece => match piece with
                                    | Some p => Some (PieceSnapshots.clone p)
                                    | None => None
                                    end) row) squares).

End Board.

(** ** Runs of the engine *)

(** What a caller can do with a game. *)
Inductive call :=
| Select (row col : Z)
| Move (row col : Z).

Definition perform (c : call) : M bool :=
  match c with
  | Select row col => CheckersGame.select_piece row col
  | Move row col => CheckersGame.make_move row col
  end.

(** The states a game goes through: a new game, and the state left by any
    call, on any integer coordinates, that returned. *)
Inductive reachable : CheckersGame -> Prop :=
| reach_new : reachable CheckersGame.new
| reach_call g c g' b :
    reachable g -> perform c g = (g', Returns b) -> reachable g'.

(** The same with every coordinate passed on the board. *)
Definition on_board (c : call) : Prop :=
  match c with
  | Select row col | Move row col => 0 <= row < 8 /\ 0 <= col < 8
  end.

Inductive reachable_on_board : CheckersGame -> Prop :=
| reach_ob_new : reachable_on_board CheckersGame.new
| reach_ob_call g c g' b :
    reachable_on_board g -> on_board c -> perform c g = (g', Returns b) ->
    reachable_on_board g'.

(** Play a list of calls, stopping at the first one that raises. *)
Fixpoint play (l : list call) (g : CheckersGame) : CheckersGame * outcome (list bool) :=
  match l with
  | [] => (g, Returns [])
  | c :: t =>
      match perform c g with
      | (g', Returns b) =>
          match play t g' with
          | (g'', Returns bs) => (g'', Returns (b :: bs))
          | (g'', Raises e) => (g'', Raises e)
          end
      | (g', Raises e) => (g', Raises e)
      end
  end.

(** ** Vocabulary of the statements *)

Import CheckersGame.

(** A method none of whose paths returns [False]. *)
Definition never_false (m : M bool) : Prop :=
  forall g g', m g <> (g', Returns false).

(** [g'] differs from [g] at most by its board. *)
Definition same_but_board (g g' : CheckersGame) : Prop :=
  current_player g' = current_player g /\
  selected_piece g' = selected_piece g /\
  valid_moves g' = valid_moves g /\
  must_capture g' = must_capture g /\
  winner g' = winner g.

(** The state in which a chained capture leaves the game. *)
Definition chained (g1 : CheckersGame) (row col : Z) (moves : list (Z * Z)) :=
  set_valid_moves (set_selected_piece g1 (Some (row, col))) moves.

(** The player to move owns a piece, on the board, that has a destination
    ([co = false]: of any kind; [co = true]: by a capture). *)
Definition has_destination (co : bool) (g : CheckersGame) : Prop :=
  exists row col p l,
    0 <= row < 8 /\ 0 <= col < 8 /\
    grid_get (board g) row col = Returns (Some p) /\
    color p = current_player g /\
    _get_piece_moves g row col co = Returns l /\ l <> [].

(** No piece of the player to move has a destination. *)
Definition no_destination (co : bool) (g : CheckersGame) : Prop :=
  forall row col p,
    0 <= row < 8 -> 0 <= col < 8 ->
    grid_get (board g) row col = Returns (Some p) ->
    color p = current_player g ->
    _get_piece_moves g row col co = Returns [].

(** The body of the two board scans. *)
Definition scan_body (co : bool) (g : CheckersGame) (row col : Z) : outcome bool :=
  piece <- grid_get (board g) row col ;;
  match piece with
  | Some p =>
      if color_eqb (color p) (current_player g) then
        moves <- _get_piece_moves g row col co ;;
        Returns (nonempty moves)
      else Returns false
  | None => Returns false
  end.

(** ** Example games *)

(** Eleven calls from a new game, all on the board, after which black has
    selected [(2,5)] and can jump to [(4,3)]. *)
Definition chain_setup : list call :=
  [Select 5 4; Move 4 3; Select 2 7; Move 3 6; Select 6 5; Move 5 4;
   Select 3 6; Move 4 7; Select 4 3; Move 3 4; Select 2 5].

Definition before_chain : CheckersGame := fst (play chain_setup new).

(** The state after that jump: black's piece on [(4,3)] can jump again. *)
Definition in_chain : CheckersGame := fst (make_move 4 3 before_chain).

(** Twelve calls from a new game, the last two of which select black's
    piece of [(1,6)] through the column index [-2] and jump with it. *)
Definition wrap_setup : list call :=
  [Select 5 4; Move 4 5; Select 2 7; Move 3 6; Select 4 5; Move 2 7;
   Select 2 3; Move 3 2; Select 5 2; Move 4 1; Select 1 (-2); Move 3 0].

Definition after_wrap : CheckersGame := fst (play wrap_setup new).

(** A first move of red, selected and not yet made. *)
Definition opening : CheckersGame := fst (select_piece 5 0 new).

(** ** Well-formed grids *)

(** Eight rows of eight squares. *)
Definition wf_grid (b : Grid) : Prop :=
  length b = 8%nat /\ Forall (fun r => length r = 8%nat) b.

(** The position, from 0, that an index between -8 and 7 designates. *)
Definition pos8 (i : Z) : nat := Z.to_nat (i mod 8).

(** The content of the square at positions [i], [j], when there is one. *)
Definition cell (b : Grid) (i j : nat) : option (option Piece) :=
  match b !! i with
  | Some r => r !! j
  | None => None
  end.

(** Pieces stand on dark squares only. *)
Definition dark_only (b : Grid) : Prop :=
  forall row col p,
    0 <= row < 8 -> 0 <= col < 8 ->
    grid_get b row col = Returns (Some p) -> (row + col) mod 2 = 1.

(** [(new_row, new_col)] is on the board, one or two squares away from
    [(old_row, old_col)] along a diagonal. *)
Definition diagonal_step (old_row old_col new_row new_col : Z) : Prop :=
  0 <= new_row < 8 /\ 0 <= new_col < 8 /\
  Z.abs (new_row - old_row) = Z.abs (new_col - old_col) /\
  (Z.abs (new_row - old_row) = 1 \/ Z.abs (new_row - old_row) = 2).

(** The piece as [make_move] leaves it on [new_row]: crowned on the far
    rank of its colour, otherwise as it was. *)
Definition promoted (p : Piece) (new_row : Z) : Piece :=
  if (color_eqb (color p) red && (new_row =? 0))
     || (color_eqb (color p) black && (new_row =? 7))
  then mkPiece (color p) true else p.

(** Every legal destination of a selection is a diagonal step from it. *)
Definition selection_ok (g : CheckersGame) : Prop :=
  forall old_row old_col new_row new_col,
    selected_piece g = Some (old_row, old_col) ->
    In (new_row, new_col) (valid_moves g) ->
    diagonal_step old_row old_col new_row new_col.

(** What every call preserves. *)
Definition invariant (g : CheckersGame) : Prop :=
  wf_grid (board g) /\ dark_only (board g) /\ selection_ok g.

Definition four_directions : list (Z * Z) :=
  [(-1, -1); (-1, 1); (1, -1); (1, 1)].

(** The forced-capture flag tells whether the player to move has a capture,
    and a selection made on the board carries the destinations that
    [_get_piece_moves] gives for it under that flag. *)
Definition capture_flag_ok (g : CheckersGame) : Prop :=
  scan_for_captures g = Returns (must_capture g) /\
  forall old_row old_col,
    selected_piece g = Some (old_row, old_col) ->
    0 <= old_row < 8 /\ 0 <= old_col < 8 /\
    _get_piece_moves g old_row old_col (must_capture g)
      = Returns (valid_moves g).

(** ** Vocabulary of the further statements *)

(** A selection stands on a piece of the player to move, and its legal
    destinations are those [_get_piece_moves] gives for that square, with or
    without the capture-only flag. *)
Definition selection_sound (g : CheckersGame) : Prop :=
  forall old_row old_col,
    selected_piece g = Some (old_row, old_col) ->
    exists p co,
      grid_get (board g) old_row old_col = Returns (Some p) /\
      color p = current_player g /\
      _get_piece_moves g old_row old_col co = Returns (valid_moves g).

(** From [(row, col)], the direction [d] jumps over a piece of another
    colour than [p]'s onto an empty square of the board. *)
Definition can_jump (g : CheckersGame) (p : Piece) (row col : Z) (d : Z * Z)
    : Prop :=
  0 <= row + fst d * 2 < 8 /\ 0 <= col + snd d * 2 < 8 /\
  (exists m, grid_get (board g) (row + fst d) (col + snd d) = Returns (Some m)
             /\ color m <> color p) /\
  grid_get (board g) (row + fst d * 2) (col + snd d * 2) = Returns None.

(** From [(row, col)], the direction [d] steps onto an empty square of the
    board. *)
Definition can_step (g : CheckersGame) (row col : Z) (d : Z * Z) : Prop :=
  0 <= row + fst d < 8 /\ 0 <= col + snd d < 8 /\
  grid_get (board g) (row + fst d) (col + snd d) = Returns None.

(** The directions open to a piece: towards row 0 for red and for kings,
    towards row 7 for black and for kings. *)
Definition allowed_direction (p : Piece) (d : Z * Z) : Prop :=
  (snd d = -1 \/ snd d = 1) /\
  ((fst d = -1 /\ (color p = red \/ king p = true)) \/
   (fst d = 1 /\ (color p = black \/ king p = true))).

(** [winner] is set exactly when the player to move has no destination, and
    then names the other player. *)
Definition winner_ok (g : CheckersGame) : Prop :=
  (is_game_over g = Returns true /\
   winner g = Some (other (current_player g))) \/
  (is_game_over g = Returns false /\ winner g = None).

(** A complete game, played on the board: red takes the last black piece. *)
Definition full_game : list call :=
  [Select 5 4; Move 4 5; Select 2 1; Move 3 2; Select 5 2; Move 4 1;
   Select 2 7; Move 3 6; Select 4 5; Move 2 7; Select 2 3; Move 3 4;
   Select 4 1; Move 2 3; Select 1 4; Move 3 2; Select 6 3; Move 5 2;
   Select 0 5; Move 1 4; Select 2 7; Move 0 5; Move 2 3; Move 4 1;
   Select 3 4; Move 4 5; Select 5 6; Move 3 4; Move 1 6; Select 0 7;
   Move 2 5; Select 5 2; Move 4 3; Select 0 3; Move 1 4; Select 6 1;
   Move 5 2; Select 2 5; Move 3 4; Select 4 3; Move 2 5; Move 0 3;
   Move 2 1; Select 1 0; Move 3 2; Select 4 1; Move 2 3; Select 0 1;
   Move 1 2; Select 2 3; Move 0 1].

Definition finished : CheckersGame := fst (play full_game new).

(** One for a piece of colour [c], zero otherwise. *)
Definition piece_count (c : Color) (v : option Piece) : Z :=
  match v with
  | Some p => if color_eqb (color p) c then 1 else 0
  | None => 0
  end.

(** The number of pieces of colour [c] in a row, in a grid. *)
Definition count_row (c : Color) (r : list (option Piece)) : Z :=
  fold_right (fun x s => piece_count c x + s) 0 r.

Definition count_grid (c : Color) (b : Grid) : Z :=
  fold_right (fun r s => count_row c r + s) 0 b.

(** A game played on the board that black wins by blocking: red's last
    piece, on [(6,7)], has no destination. *)
Definition blocked_game : list call :=
  [Select 5 0; Move 4 1; Select 2 1; Move 3 2; Select 5 2; Move 4 3;
   Select 3 2; Move 5 0; Select 6 3; Move 5 2; Select 1 0; Move 2 1;
   Select 7 2; Move 6 3; Select 5 0; Move 7 2; Select 4 3; Move 3 4;
   Select 2 3; Move 4 5; Select 5 4; Move 3 6; Select 2 7; Move 4 5;
   Select 5 6; Move 3 4; Select 2 5; Move 4 3; Move 6 1; Select 7 0;
   Move 5 2; Select 7 2; Move 5 4; Select 6 5; Move 4 3; Select 1 4;
   Move 2 3; Select 7 4; Move 6 3; Select 2 1; Move 3 0; Select 5 2;
   Move 4 1; Select 3 0; Move 5 2; Move 7 4; Select 4 3; Move 3 4;
   Select 2 3; Move 4 5; Select 7 6; Move 6 5; Select 7 4; Move 5 6].

Definition blocked : CheckersGame := fst (play blocked_game new).

(** The state of that game before its last call: a black king, selected on
    [(7,4)], is about to jump to [(5,6)]. *)
Definition king_to_move : CheckersGame :=
  fst (play (firstn 53 blocked_game) new).
(** * Verification *)

(** ** The monad *)

Lemma obind_returns {A B} (m : outcome A) (k : A -> outcome B) b :
  obind m k = Returns b -> exists a, m = Returns a /\ k a = Returns b.
Proof. destruct m; simpl; intros H; [eauto | discriminate]. Qed.

Lemma bind_returns {A B} (m : M A) (k : A -> M B) g g' b :
  bind m k g = (g', Returns b) ->
  exists a g1, m g = (g1, Returns a) /\ k a g1 = (g', Returns b).
Proof.
  unfold bind. destruct (m g) as [g1 [a|e]]; intros H; [eauto | discriminate].
Qed.

Lemma read_returns {A} (f : CheckersGame -> outcome A) g g' a :
  read f g = (g', Returns a) -> g' = g /\ f g = Returns a.
Proof. unfold read. intros H. injection H as -> H. auto. Qed.

Lemma attr_returns {A} (f : CheckersGame -> A) g g' a :
  attr f g = (g', Returns a) -> g' = g /\ a = f g.
Proof. unfold attr. intros H. injection H as -> ->. auto. Qed.

Lemma ret_returns {A} (x : A) g g' a :
  ret x g = (g', Returns a) -> g' = g /\ a = x.
Proof. unfold ret. intros H. injection H as -> ->. auto. Qed.

Lemma assign_returns {A} (set : CheckersGame -> A -> CheckersGame) x g g' u :
  assign set x g = (g', Returns u) -> g' = set g x.
Proof. unfold assign. intros H. injection H as -> _. auto. Qed.

(** Break a run that returned into the runs of its parts. *)
Ltac leaf H :=
  match type of H with
  | read _ _ = (_, Returns _) =>
      apply read_returns in H; destruct H as [? H]; subst
  | attr _ _ = (_, Returns _) =>
      apply attr_returns in H; destruct H as [? ?]; subst
  | ret _ _ = (_, Returns _) =>
      apply ret_returns in H; destruct H as [? ?]; subst
  | assign _ _ _ = (_, Returns _) =>
      apply assign_returns in H; subst
  end.

Ltac step_as H H1 :=
  match type of H with
  | bind _ _ _ = (_, Returns _) =>
      let a := fresh "a" in let g1 := fresh "g" in
      apply bind_returns in H; destruct H as (a & g1 & H1 & H);
      cbv beta in H; try leaf H1
  end.

Tactic Notation "step" hyp(H) "as" ident(H1) := step_as H H1.
Tactic Notation "step" hyp(H) := let H1 := fresh "Hrun" in step_as H H1.


Lemma never_false_bind {A} (m : M A) (k : A -> M bool) :
  (forall a, never_false (k a)) -> never_false (bind m k).
Proof.
  intros Hk g g' H. apply bind_returns in H as (a & g1 & _ & H).
  exact (Hk a g1 g' H).
Qed.

Lemma never_false_ret_true : never_false (ret true).
Proof. intros g g' H. discriminate. Qed.

(** ** Rejections *)

Lemma select_piece_false_same row col g g' :
  select_piece row col g = (g', Returns false) -> g' = g.
Proof.
  unfold select_piece. intros H.
  step H. step H.
  destruct a as [p|]; [|leaf H; reflexivity].
  destruct (negb _); [leaf H; reflexivity|].
  step H.
  destruct (must_capture g).
  - step H.
    destruct (negb _); [leaf H; reflexivity|].
    exfalso. revert H. apply never_false_bind; intros _.
    apply never_false_bind; intros _. apply never_false_ret_true.
  - exfalso. revert H. apply never_false_bind; intros ?.
    apply never_false_bind; intros _.
    apply never_false_bind; intros _. apply never_false_ret_true.
Qed.

Lemma make_move_false_same row col g g' :
  make_move row col g = (g', Returns false) -> g' = g.
Proof.
  unfold make_move. intros H.
  step H. step H.
  destruct (selected_piece g) as [[old_row old_col]|]; [|leaf H; reflexivity].
  destruct (negb _); [leaf H; reflexivity|].
  exfalso. revert H. apply never_false_bind; intros ic.
  apply never_false_bind; intros [|].
  - apply never_false_bind; intros _. apply never_false_bind; intros ?.
    apply never_false_bind; intros _. apply never_false_ret_true.
  - apply never_false_bind; intros _. apply never_false_ret_true.
Qed.

(** C7.  A call of [select_piece] or [make_move] that returns [False] leaves
    every attribute of the game as it was: the whole state is unchanged, for
    any coordinates. *)
Theorem rejected_call_changes_nothing (c : call) (g g' : CheckersGame) :
  perform c g = (g', Returns false) -> g' = g.
Proof.
  destruct c as [row col|row col]; simpl.
  - apply select_piece_false_same.
  - apply make_move_false_same.
Qed.

Lemma rejected_call_changes_nothing_witness :
  perform (Select 3 0) new = (new, Returns false) /\
  perform (Move 4 1) new = (new, Returns false) /\
  fst (perform (Select 3 0) new) = new.
Proof.
  split; [vm_compute; reflexivity|]. split; [vm_compute; reflexivity|].
  apply (rejected_call_changes_nothing (Select 3 0) new).
  vm_compute. reflexivity.
Defined.

(** ** What the readers depend on *)

Lemma _get_piece_moves_ext g1 g2 row col co :
  board g1 = board g2 -> current_player g1 = current_player g2 ->
  _get_piece_moves g1 row col co = _get_piece_moves g2 row col co.
Proof.
  destruct g1, g2; simpl; intros -> ->. reflexivity.
Qed.

Lemma is_game_over_ext g1 g2 :
  board g1 = board g2 -> current_player g1 = current_player g2 ->
  is_game_over g1 = is_game_over g2.
Proof.
  destruct g1, g2; simpl; intros -> ->. reflexivity.
Qed.

Lemma scan_for_captures_ext g1 g2 :
  board g1 = board g2 -> current_player g1 = current_player g2 ->
  scan_for_captures g1 = scan_for_captures g2.
Proof.
  destruct g1, g2; simpl; intros -> ->. reflexivity.
Qed.

(** ** The frame of the board updates *)


Lemma same_but_board_refl g : same_but_board g g.
Proof. repeat split. Qed.

Lemma same_but_board_trans g1 g2 g3 :
  same_but_board g1 g2 -> same_but_board g2 g3 -> same_but_board g1 g3.
Proof.
  unfold same_but_board. intros (?&?&?&?&?) (?&?&?&?&?).
  repeat split; congruence.
Qed.

Lemma store_returns row col v g g' u :
  store row col v g = (g', Returns u) ->
  exists b', grid_set (board g) row col v = Returns b' /\ g' = set_board g b'.
Proof.
  unfold store. destruct (grid_set _ _ _ _) as [b'|e]; intros H; [|discriminate].
  injection H as <-. eauto.
Qed.

Lemma store_frame row col v g g' u :
  store row col v g = (g', Returns u) -> same_but_board g g'.
Proof.
  intros H. apply store_returns in H as (b' & _ & ->). repeat split.
Qed.

Lemma promote_frame piece row col g g' u :
  promote piece row col g = (g', Returns u) -> same_but_board g g'.
Proof.
  unfold promote. destruct piece as [p|]; [|discriminate].
  destruct (_ || _).
  - intros H. step H. destruct a as [q|].
    + eapply store_frame; eauto.
    + leaf H. apply same_but_board_refl.
  - intros H. leaf H. apply same_but_board_refl.
Qed.

Lemma apply_move_frame old_row old_col new_row new_col g g' ic :
  apply_move old_row old_col new_row new_col g = (g', Returns ic) ->
  same_but_board g g' /\ ic = (Z.abs (new_row - old_row) =? 2).
Proof.
  unfold apply_move. intros H.
  step H as Hget. step H as Hnew. apply store_frame in Hnew.
  step H as Hold. apply store_frame in Hold.
  step H as Hmid. step H as Hpro. apply promote_frame in Hpro. leaf H.
  split; [|reflexivity].
  eapply same_but_board_trans; [exact Hnew|].
  eapply same_but_board_trans; [exact Hold|].
  eapply same_but_board_trans; [|exact Hpro].
  destruct (Z.abs _ =? 2).
  - eapply store_frame; eauto.
  - leaf Hmid. apply same_but_board_refl.
Qed.

(** ** Chained captures *)

Lemma bind_run {A B} (m : M A) (k : A -> M B) g g1 a :
  m g = (g1, Returns a) -> bind m k g = k a g1.
Proof. unfold bind. intros ->. reflexivity. Qed.

(** C3.  With a piece selected at [(old_row, old_col)] and [(new_row,
    new_col)] among the legal destinations, let [g1] be the game once the
    piece has been relocated, the jumped piece removed and the promotion
    applied.  If the move is a jump ([|new_row - old_row| = 2]) and the moved
    piece has at least one capture from the landing square in [g1], then
    [make_move] returns [True], the player to move is unchanged, the selected
    square is the landing square, and the legal destinations are exactly the
    capture-only destinations of the piece from the landing square. *)
Theorem chain_capture_continues
    (g g1 : CheckersGame) (old_row old_col new_row new_col : Z)
    (ic : bool) (moves : list (Z * Z)) :
  selected_piece g = Some (old_row, old_col) ->
  py_in (new_row, new_col) (valid_moves g) = true ->
  apply_move old_row old_col new_row new_col g = (g1, Returns ic) ->
  Z.abs (new_row - old_row) = 2 ->
  _get_piece_moves g1 new_row new_col true = Returns moves ->
  moves <> [] ->
  exists g',
    make_move new_row new_col g = (g', Returns true) /\
    current_player g' = current_player g /\
    selected_piece g' = Some (new_row, new_col) /\
    valid_moves g' = moves /\
    _get_piece_moves g' new_row new_col true = Returns moves /\
    board g' = board g1 /\
    must_capture g' = must_capture g /\
    winner g' = winner g.
Proof.
  intros Hsel Hin Happ Habs Hmoves Hne.
  destruct (apply_move_frame _ _ _ _ _ _ _ Happ) as [(Hp & _ & _ & Hm & Hw) Hic].
  assert (ic = true) as -> by (rewrite Hic; apply Z.eqb_eq; exact Habs).
  destruct moves as [|m ms]; [contradiction|].
  eexists. split.
  - unfold make_move.
    erewrite bind_run by reflexivity. erewrite bind_run by reflexivity.
    rewrite Hsel, Hin. cbv beta iota delta [negb].
    erewrite bind_run by exact Happ.
    erewrite bind_run
      by (unfold read, _can_continue_capture; rewrite Hmoves; reflexivity).
    cbv beta iota delta [nonempty].
    erewrite bind_run by reflexivity.
    assert (read (fun g0 => _get_piece_moves g0 new_row new_col true)
              (set_selected_piece g1 (Some (new_row, new_col)))
            = (set_selected_piece g1 (Some (new_row, new_col)),
               Returns (m :: ms))) as Hread.
    { unfold read. f_equal. rewrite <- Hmoves.
      apply _get_piece_moves_ext; reflexivity. }
    erewrite bind_run by exact Hread.
    erewrite bind_run by reflexivity. reflexivity.
  - simpl. repeat split; assumption.
Qed.

(** ** The shape of an accepted move *)

Lemma color_eqb_eq a b : color_eqb a b = true <-> a = b.
Proof. destruct a, b; simpl; split; congruence. Qed.

Lemma color_eqb_refl a : color_eqb a a = true.
Proof. destruct a; reflexivity. Qed.

Lemma other_other c : other (other c) = c.
Proof. destruct c; reflexivity. Qed.

Lemma other_neq c : other c <> c.
Proof. destruct c; discriminate. Qed.

Lemma nonempty_true {A} (l : list A) : nonempty l = true <-> l <> [].
Proof. destruct l; simpl; split; congruence. Qed.

Lemma nonempty_false {A} (l : list A) : nonempty l = false <-> l = [].
Proof. destruct l; simpl; split; congruence. Qed.


Lemma make_move_true_inv new_row new_col g g' :
  make_move new_row new_col g = (g', Returns true) ->
  exists old_row old_col g1 ic,
    selected_piece g = Some (old_row, old_col) /\
    py_in (new_row, new_col) (valid_moves g) = true /\
    apply_move old_row old_col new_row new_col g = (g1, Returns ic) /\
    ((ic = true /\
      exists moves, _get_piece_moves g1 new_row new_col true = Returns moves /\
                    moves <> [] /\ g' = chained g1 new_row new_col moves)
     \/
     ((ic = false \/ _get_piece_moves g1 new_row new_col true = Returns []) /\
      exists u, _end_turn g1 = (g', Returns u))).
Proof.
  unfold make_move. intros H. step H. step H.
  destruct (selected_piece g) as [[old_row old_col]|] eqn:Hsel;
    [|leaf H; discriminate].
  destruct (py_in _ _) eqn:Hin; cbv beta iota delta [negb] in H;
    [|leaf H; discriminate].
  step H as Happ. rename a into ic, g0 into g1. step H as Hcont.
  assert (g0 = g1 /\
          (if ic then _can_continue_capture g1 new_row new_col
           else Returns false) = Returns a) as [-> Hc].
  { destruct ic; leaf Hcont; auto. }
  clear Hcont.
  exists old_row, old_col, g1, ic. repeat split; try assumption.
  destruct a as [|].
  - left. step H as Hsel'. step H as Hmoves. step H as Hset. leaf H.
    destruct ic; [|discriminate].
    apply obind_returns in Hc as (ms & Hms & Hne).
    injection Hne as Hne. apply nonempty_true in Hne.
    split; [reflexivity|]. exists ms. repeat split; try assumption.
    change (_get_piece_moves g1 new_row new_col true = Returns a0) in Hmoves.
    assert (a0 = ms) as -> by congruence. reflexivity.
  - right. step H as Hend. leaf H. split; [|eauto].
    destruct ic; [right|left; reflexivity].
    apply obind_returns in Hc as (ms & Hms & Hne).
    injection Hne as Hne. apply nonempty_false in Hne. congruence.
Qed.

(** ** The end of a turn *)

Lemma in_range x lo hi : In x (range lo hi) <-> lo <= x < hi.
Proof.
  unfold range. rewrite in_map_iff. split.
  - intros (k & <- & Hk). apply in_seq in Hk. lia.
  - intros Hx. exists (Z.to_nat (x - lo)). split; [lia|].
    apply in_seq. lia.
Qed.

Lemma for_any_true {A} (f : A -> outcome bool) l :
  for_any f l = Returns true -> exists x, In x l /\ f x = Returns true.
Proof.
  induction l as [|x t IH]; simpl; [discriminate|].
  intros H. apply obind_returns in H as ([|] & Hx & H).
  - exists x. auto.
  - destruct (IH H) as (y & Hy & Hfy). exists y. auto.
Qed.

Lemma for_any_false {A} (f : A -> outcome bool) l :
  for_any f l = Returns false -> forall x, In x l -> f x = Returns false.
Proof.
  induction l as [|x t IH]; simpl; [contradiction|].
  intros H. apply obind_returns in H as ([|] & Hx & H); [discriminate|].
  intros y [<-|Hy]; auto.
Qed.


Lemma destination_exclusive co g :
  has_destination co g -> no_destination co g -> False.
Proof.
  intros (row & col & p & l & Hr & Hc & Hp & Hcol & Hl & Hne) Hno.
  rewrite (Hno row col p Hr Hc Hp Hcol) in Hl. congruence.
Qed.


Lemma scan_true co g :
  for_any (fun row => for_any (scan_body co g row) (range 0 8)) (range 0 8)
    = Returns true ->
  has_destination co g.
Proof.
  intros H. apply for_any_true in H as (row & Hrow & H).
  apply for_any_true in H as (col & Hcol & H).
  apply in_range in Hrow, Hcol. unfold scan_body in H.
  apply obind_returns in H as ([p|] & Hp & H); [|discriminate].
  destruct (color_eqb _ _) eqn:Hc; [|discriminate].
  apply obind_returns in H as (l & Hl & H). injection H as H.
  exists row, col, p, l. repeat split; try lia; try assumption.
  - apply color_eqb_eq; assumption.
  - apply nonempty_true; assumption.
Qed.

Lemma scan_false co g :
  for_any (fun row => for_any (scan_body co g row) (range 0 8)) (range 0 8)
    = Returns false ->
  no_destination co g.
Proof.
  intros H row col p Hrow Hcol Hp Hc.
  pose proof (for_any_false _ _ H row (proj2 (in_range _ _ _) Hrow)) as H1.
  pose proof (for_any_false _ _ H1 col (proj2 (in_range _ _ _) Hcol)) as H2.
  unfold scan_body in H2. rewrite Hp in H2. simpl in H2.
  rewrite (proj2 (color_eqb_eq _ _) Hc) in H2.
  apply obind_returns in H2 as (l & Hl & H2). injection H2 as H2.
  apply nonempty_false in H2. congruence.
Qed.

Lemma is_game_over_true g :
  is_game_over g = Returns true -> no_destination false g.
Proof.
  unfold is_game_over. intros H.
  apply obind_returns in H as ([|] & Hs & H); [discriminate|].
  apply scan_false. exact Hs.
Qed.

Lemma is_game_over_false g :
  is_game_over g = Returns false -> has_destination false g.
Proof.
  unfold is_game_over. intros H.
  apply obind_returns in H as ([|] & Hs & H); [|discriminate].
  apply scan_true. exact Hs.
Qed.

Lemma scan_for_captures_true g :
  scan_for_captures g = Returns true -> has_destination true g.
Proof. apply scan_true. Qed.

Lemma scan_for_captures_false g :
  scan_for_captures g = Returns false -> no_destination true g.
Proof. apply scan_false. Qed.

Lemma _end_turn_returns g g' u :
  _end_turn g = (g', Returns u) ->
  exists over,
    current_player g' = other (current_player g) /\
    board g' = board g /\
    selected_piece g' = None /\
    valid_moves g' = [] /\
    scan_for_captures g' = Returns (must_capture g') /\
    is_game_over g' = Returns over /\
    winner g' = if over then Some (current_player g) else winner g.
Proof.
  unfold _end_turn. intros H.
  step H. step H. step H. step H. step H as Hcheck.
  unfold _check_for_captures in Hcheck.
  step Hcheck as Hscan. step Hcheck. leaf Hcheck.
  step H as Hover.
  match type of Hover with _ = Returns ?b => rename b into over end.
  exists over. destruct over.
  - step H. leaf H. simpl. repeat split; try assumption.
    destruct (current_player g); reflexivity.
  - leaf H. simpl. repeat split; assumption.
Qed.

(** The end of a turn, in any state.  When an accepted move ends the turn
    (the selection is cleared: no chained capture continues), the player to
    move switches; if no piece of the new player to move has a destination,
    [winner] is the player who just moved and [is_game_over] returns [True];
    if one has, [winner] is left as it was before the move, whatever that
    was, and [is_game_over] returns [False].  One of the two cases always
    applies. *)
Theorem win_detection_at_turn_end (g g' : CheckersGame) (new_row new_col : Z) :
  make_move new_row new_col g = (g', Returns true) ->
  selected_piece g' = None ->
  current_player g' = other (current_player g) /\
  (no_destination false g' ->
     winner g' = Some (current_player g) /\ is_game_over g' = Returns true) /\
  (has_destination false g' ->
     winner g' = winner g /\ (winner g = None -> winner g' = None) /\
     is_game_over g' = Returns false) /\
  (no_destination false g' \/ has_destination false g').
Proof.
  intros Hmove Hsel.
  apply make_move_true_inv in Hmove
    as (old_row & old_col & g1 & ic & _ & _ & Happ & [Hchain|Hend]).
  { destruct Hchain as (_ & moves & _ & _ & ->). discriminate. }
  destruct Hend as (_ & u & Hend).
  apply apply_move_frame in Happ as [(Hp & _ & _ & _ & Hw) _].
  apply _end_turn_returns in Hend
    as (over & Hp' & _ & _ & _ & _ & Hover & Hwin).
  rewrite Hp, Hw in *. split; [assumption|].
  destruct over.
  - pose proof (is_game_over_true _ Hover) as Hno.
    split; [auto|]. split; [|auto].
    intros Hhas. destruct (destination_exclusive _ _ Hhas Hno).
  - pose proof (is_game_over_false _ Hover) as Hhas.
    split; [|split; [|auto]].
    + intros Hno. destruct (destination_exclusive _ _ Hhas Hno).
    + intros _. repeat split; [assumption | congruence | assumption].
Qed.

(** ** Runs *)

Lemma play_reachable l : forall g g' bs,
  reachable g -> play l g = (g', Returns bs) -> reachable g'.
Proof.
  induction l as [|c t IH]; simpl; intros g g' bs Hg H.
  - injection H as <- _. exact Hg.
  - destruct (perform c g) as [g1 [b|e]] eqn:Hc; [|discriminate].
    destruct (play t g1) as [g2 [bs'|e]] eqn:Ht; [|discriminate].
    injection H as <- _. eapply IH; [|exact Ht].
    eapply reach_call; eauto.
Qed.

Lemma play_reachable_on_board l : forall g g' bs,
  Forall on_board l ->
  reachable_on_board g -> play l g = (g', Returns bs) -> reachable_on_board g'.
Proof.
  induction l as [|c t IH]; simpl; intros g g' bs Hl Hg H.
  - injection H as <- _. exact Hg.
  - destruct (perform c g) as [g1 [b|e]] eqn:Hc; [|discriminate].
    destruct (play t g1) as [g2 [bs'|e]] eqn:Ht; [|discriminate].
    injection H as <- _. inversion Hl; subst.
    eapply IH; [assumption| |exact Ht].
    eapply reach_ob_call; eauto.
Qed.

Lemma reachable_on_board_reachable g : reachable_on_board g -> reachable g.
Proof.
  induction 1; [constructor|]. eapply reach_call; eauto.
Qed.

Lemma __init___returns : __init__ blank = (new, Returns tt).
Proof. vm_compute. reflexivity. Qed.

Lemma before_chain_reachable : reachable_on_board before_chain.
Proof.
  eapply (play_reachable_on_board chain_setup new _
            (repeat true 11)).
  - unfold chain_setup. repeat constructor; simpl; lia.
  - constructor.
  - vm_compute. reflexivity.
Qed.

Lemma after_wrap_reachable : reachable after_wrap.
Proof.
  eapply (play_reachable wrap_setup new _ (repeat true 12)).
  - constructor.
  - vm_compute. reflexivity.
Qed.

(** ** Witnesses of the theorems above *)

Lemma chain_capture_continues_witness :
  exists g',
    make_move 4 3 before_chain = (g', Returns true) /\
    current_player g' = current_player before_chain /\
    selected_piece g' = Some (4, 3) /\
    valid_moves g' = [(6, 5)] /\
    _get_piece_moves g' 4 3 true = Returns [(6, 5)] /\
    board g' = board (fst (apply_move 2 5 4 3 before_chain)) /\
    must_capture g' = must_capture before_chain /\
    winner g' = winner before_chain.
Proof.
  apply (chain_capture_continues before_chain
           (fst (apply_move 2 5 4 3 before_chain)) 2 5 4 3 true [(6, 5)]).
  - vm_compute; reflexivity.
  - vm_compute; reflexivity.
  - vm_compute; reflexivity.
  - vm_compute; reflexivity.
  - vm_compute; reflexivity.
  - discriminate.
Defined.

Lemma win_detection_at_turn_end_witness :
  current_player (fst (make_move 4 1 opening)) = other (current_player opening).
Proof.
  apply (win_detection_at_turn_end opening (fst (make_move 4 1 opening)) 4 1).
  - vm_compute; reflexivity.
  - vm_compute; reflexivity.
Defined.

(** ** Coordinates off the board *)

(** C4.  [select_piece] has an exception path: on a new game, a row or a
    column of 8, or a row of -9, raises [IndexError]; and the indices -8..-1
    are not rejected either, they designate the squares counted from the far
    edge, so that [select_piece(6, -1)] returns [True] and stores the
    selection [(6, -1)]. *)
Theorem select_piece_off_board :
  select_piece 8 0 new = (new, Raises IndexError) /\
  select_piece 0 8 new = (new, Raises IndexError) /\
  select_piece (-9) 0 new = (new, Raises IndexError) /\
  select_piece 6 (-1) new
    = (chained new 6 (-1) [], Returns true).
Proof. repeat split; vm_compute; reflexivity. Qed.

(** ** Snapshots *)

Lemma piece_roundtrip (l : list (option Piece)) :
  map (fun piece_data => match piece_data with
                         | Some d => Snapshots.piece_deserialize (Some d)
                         | None => None
                         end)
      (map (fun piece => match piece with
                         | Some p => Some (Snapshots.piece_serialize p)
                         | None => None
                         end) l) = l.
Proof.
  induction l as [|x t IH]; cbn [map]; [reflexivity|].
  rewrite IH. destruct x as [[c k]|]; reflexivity.
Qed.

Lemma board_roundtrip (b : Grid) :
  map (fun row =>
         map (fun piece_data => match piece_data with
                                | Some d => Snapshots.piece_deserialize (Some d)
                                | None => None
                                end) row)
      (map (fun row =>
              map (fun piece => match piece with
                                | Some p => Some (Snapshots.piece_serialize p)
                                | None => None
                                end) row) b) = b.
Proof.
  induction b as [|r t IH]; cbn [map]; [reflexivity|].
  rewrite piece_roundtrip, IH. reflexivity.
Qed.

Lemma deserialize_serialize g :
  Snapshots.deserialize (Snapshots.serialize g) = (g, Returns tt).
Proof.
  unfold Snapshots.deserialize.
  erewrite bind_run by exact __init___returns.
  unfold bind, assign. cbv beta iota.
  destruct g as [b p s v m w].
  unfold set_winner, set_must_capture, set_valid_moves, set_selected_piece,
    set_current_player, set_board. simpl.
  rewrite board_roundtrip. reflexivity.
Qed.

(** C6.  Deserializing a snapshot written by [serialize] returns, without
    raising, a game whose snapshot is the same on all six fields; the game
    itself is the one that was serialized. *)
Theorem snapshot_round_trip (g : CheckersGame) :
  exists g',
    Snapshots.deserialize (Snapshots.serialize g) = (g', Returns tt) /\
    Snapshots.serialize g' = Snapshots.serialize g /\
    g' = g.
Proof.
  exists g. split; [apply deserialize_serialize|]. split; reflexivity.
Qed.

(** ** Python indexing on a list of eight elements *)

Lemma py_index_8 i : -8 <= i < 8 -> py_index 8 i = Some (pos8 i).
Proof.
  intros Hi. unfold py_index, pos8. change (Z.of_nat 8) with 8. change (Z.opp 8) with (-8).
  destruct (Z.leb_spec 0 i); cbn [andb].
  - destruct (Z.ltb_spec i 8); [|lia]. rewrite Z.mod_small by lia. reflexivity.
  - destruct (Z.leb_spec (-8) i); [|lia]. destruct (Z.ltb_spec i 0); [|lia].
    cbn [andb]. do 2 f_equal.
    apply (Z.mod_unique_pos i 8 (-1) (i + 8)); lia.
Qed.

Lemma py_index_8_inv i k : py_index 8 i = Some k -> -8 <= i < 8.
Proof.
  unfold py_index. change (Z.of_nat 8) with 8. change (Z.opp 8) with (-8).
  destruct (Z.leb_spec 0 i), (Z.ltb_spec i 8), (Z.leb_spec (-8) i),
    (Z.ltb_spec i 0); cbn [andb]; intros Hk; try discriminate; lia.
Qed.

Lemma pos8_lt i : (pos8 i < 8)%nat.
Proof. unfold pos8. pose proof (Z.mod_pos_bound i 8). lia. Qed.

Lemma pos8_small i : 0 <= i < 8 -> pos8 i = Z.to_nat i.
Proof. intros Hi. unfold pos8. rewrite Z.mod_small by lia. reflexivity. Qed.

Lemma pos8_inj i j : 0 <= i < 8 -> 0 <= j < 8 -> pos8 i = pos8 j -> i = j.
Proof. intros Hi Hj. rewrite !pos8_small by assumption. lia. Qed.

Lemma pos8_parity i : -8 <= i < 8 -> Z.of_nat (pos8 i) mod 2 = i mod 2.
Proof.
  intros Hi. unfold pos8. rewrite Z2Nat.id by (apply Z.mod_pos_bound; lia).
  destruct (Z.leb_spec 0 i).
  - rewrite (Z.mod_small i 8) by lia. reflexivity.
  - replace (i mod 8) with (i + 8)
      by (apply (Z.mod_unique_pos i 8 (-1) (i + 8)); lia).
    replace (i + 8) with (i + 4 * 2) by lia. apply Z.mod_add. lia.
Qed.

Lemma getitem_8 {A} (l : list A) i x :
  length l = 8%nat ->
  getitem l i = Returns x <-> (-8 <= i < 8 /\ l !! pos8 i = Some x).
Proof.
  intros Hl. unfold getitem. rewrite Hl. split.
  - destruct (py_index 8 i) as [k|] eqn:Hk; [|discriminate].
    pose proof (py_index_8_inv _ _ Hk) as Hi.
    rewrite (py_index_8 i Hi) in Hk. injection Hk as <-.
    destruct (l !! pos8 i); [|discriminate]. intros H. injection H as ->. auto.
  - intros [Hi Hx]. rewrite (py_index_8 i Hi), Hx. reflexivity.
Qed.

Lemma getitem_8_total {A} (l : list A) i :
  length l = 8%nat -> -8 <= i < 8 -> exists x, getitem l i = Returns x.
Proof.
  intros Hl Hi.
  destruct (lookup_lt_is_Some_2 l (pos8 i)) as [x Hx].
  { rewrite Hl. apply pos8_lt. }
  exists x. apply getitem_8; auto.
Qed.

Lemma setitem_8 {A} (l l' : list A) i x :
  length l = 8%nat ->
  setitem l i x = Returns l' <-> (-8 <= i < 8 /\ l' = <[pos8 i := x]> l).
Proof.
  intros Hl. unfold setitem. rewrite Hl. split.
  - destruct (py_index 8 i) as [k|] eqn:Hk; [|discriminate].
    pose proof (py_index_8_inv _ _ Hk) as Hi.
    rewrite (py_index_8 i Hi) in Hk. injection Hk as <-.
    intros H. injection H as <-. auto.
  - intros [Hi ->]. rewrite (py_index_8 i Hi). reflexivity.
Qed.

(** ** Reading and writing a well-formed grid *)

Lemma wf_grid_row b i r : wf_grid b -> b !! i = Some r -> length r = 8%nat.
Proof.
  intros [_ Hrows] Hr. rewrite Forall_forall in Hrows.
  apply Hrows. eapply list_elem_of_lookup_2; eauto.
Qed.

Lemma grid_get_cell b row col v :
  wf_grid b ->
  grid_get b row col = Returns v <->
  (-8 <= row < 8 /\ -8 <= col < 8 /\ cell b (pos8 row) (pos8 col) = Some v).
Proof.
  intros Hwf. unfold grid_get, cell. split.
  - intros H. apply obind_returns in H as (r & Hr & H).
    apply getitem_8 in Hr as [Hrow Hr]; [|apply Hwf].
    apply getitem_8 in H as [Hcol H]; [|eapply wf_grid_row; eauto].
    rewrite Hr. auto.
  - intros (Hrow & Hcol & H).
    destruct (b !! pos8 row) as [r|] eqn:Hr; [|discriminate].
    rewrite (proj2 (getitem_8 b row r (proj1 Hwf)) (conj Hrow Hr)). simpl.
    apply getitem_8; [eapply wf_grid_row; eauto|auto].
Qed.

Lemma cell_total b i j :
  wf_grid b -> (i < 8)%nat -> (j < 8)%nat -> exists v, cell b i j = Some v.
Proof.
  intros Hwf Hi Hj. unfold cell.
  destruct (lookup_lt_is_Some_2 b i) as [r Hr]; [rewrite (proj1 Hwf); lia|].
  rewrite Hr. apply lookup_lt_is_Some_2.
  rewrite (wf_grid_row _ _ _ Hwf Hr). lia.
Qed.

Lemma grid_get_total b row col :
  wf_grid b -> -8 <= row < 8 -> -8 <= col < 8 ->
  exists v, grid_get b row col = Returns v.
Proof.
  intros Hwf Hrow Hcol.
  destruct (cell_total b (pos8 row) (pos8 col) Hwf (pos8_lt _) (pos8_lt _))
    as [v Hv].
  exists v. apply grid_get_cell; auto.
Qed.

Lemma grid_get_raises b row col v :
  wf_grid b -> grid_get b row col = Returns v -> -8 <= row < 8 /\ -8 <= col < 8.
Proof.
  intros Hwf H. apply grid_get_cell in H as (? & ? & _); auto.
Qed.

Lemma grid_set_cell b b' row col v :
  wf_grid b ->
  grid_set b row col v = Returns b' ->
  -8 <= row < 8 /\ -8 <= col < 8 /\ wf_grid b' /\
  forall i j,
    cell b' i j =
      if decide (i = pos8 row /\ j = pos8 col)
      then Some v else cell b i j.
Proof.
  intros Hwf H. unfold grid_set in H.
  apply obind_returns in H as (r & Hr & H).
  apply getitem_8 in Hr as [Hrow Hr]; [|apply Hwf].
  pose proof (wf_grid_row _ _ _ Hwf Hr) as Hlen.
  apply obind_returns in H as (r' & Hr' & H).
  apply setitem_8 in Hr' as [Hcol ->]; [|assumption].
  apply setitem_8 in H as [_ ->]; [|apply Hwf].
  split; [assumption|]. split; [assumption|]. split.
  - destruct Hwf as [Hl Hrows]. split.
    + rewrite length_insert. assumption.
    + apply Forall_insert; [assumption|]. rewrite length_insert. assumption.
  - intros i j. unfold cell.
    destruct (decide (i = pos8 row)) as [->|Hi].
    + rewrite list_lookup_insert_eq
        by (rewrite (proj1 Hwf); apply pos8_lt).
      destruct (decide (j = pos8 col)) as [->|Hj].
      * rewrite list_lookup_insert_eq by (rewrite Hlen; apply pos8_lt).
        rewrite decide_True by auto. reflexivity.
      * rewrite list_lookup_insert_ne by auto.
        rewrite decide_False by tauto. rewrite Hr. reflexivity.
    + rewrite list_lookup_insert_ne by auto.
      rewrite decide_False by tauto. reflexivity.
Qed.

Lemma grid_set_total b row col v :
  wf_grid b -> -8 <= row < 8 -> -8 <= col < 8 ->
  exists b', grid_set b row col v = Returns b'.
Proof.
  intros Hwf Hrow Hcol. unfold grid_set.
  destruct (getitem_8_total b row (proj1 Hwf) Hrow) as [r Hr].
  rewrite Hr. simpl.
  pose proof Hr as Hr'. apply getitem_8 in Hr' as [_ Hr']; [|apply Hwf].
  pose proof (wf_grid_row _ _ _ Hwf Hr') as Hlen.
  rewrite (proj2 (setitem_8 r _ col v Hlen) (conj Hcol eq_refl)). simpl.
  eexists. apply setitem_8; [apply Hwf|]. split; [assumption|reflexivity].
Qed.

Lemma dark_only_cell b :
  wf_grid b ->
  dark_only b <->
  (forall i j p, cell b i j = Some (Some p) ->
                 (Z.of_nat i + Z.of_nat j) mod 2 = 1).
Proof.
  intros Hwf. split.
  - intros Hd i j p Hc.
    assert (i < 8 /\ j < 8)%nat as [Hi Hj].
    { unfold cell in Hc. destruct (b !! i) as [r|] eqn:Hr; [|discriminate].
      pose proof (lookup_lt_Some _ _ _ Hr) as H1.
      pose proof (lookup_lt_Some _ _ _ Hc) as H2.
      rewrite (proj1 Hwf) in H1. rewrite (wf_grid_row _ _ _ Hwf Hr) in H2.
      auto. }
    apply (Hd (Z.of_nat i) (Z.of_nat j) p); [lia|lia|].
    apply grid_get_cell; [assumption|]. split; [lia|]. split; [lia|].
    rewrite !pos8_small by lia. rewrite !Nat2Z.id. assumption.
  - intros Hc row col p Hrow Hcol Hg.
    apply grid_get_cell in Hg as (_ & _ & Hg); [|assumption].
    apply Hc in Hg. rewrite !pos8_small in Hg by lia.
    rewrite !Z2Nat.id in Hg by lia. assumption.
Qed.

Lemma dark_only_set b b' row col v :
  wf_grid b -> dark_only b ->
  grid_set b row col v = Returns b' ->
  (v <> None -> (row + col) mod 2 = 1) ->
  dark_only b'.
Proof.
  intros Hwf Hd Hset Hv.
  destruct (grid_set_cell _ _ _ _ _ Hwf Hset) as (Hrow & Hcol & Hwf' & Hcell).
  apply dark_only_cell; [assumption|]. intros i j p Hc.
  rewrite Hcell in Hc. destruct (decide _) as [[-> ->]|_].
  - injection Hc as ->.
    pose proof (pos8_parity row Hrow). pose proof (pos8_parity col Hcol).
    specialize (Hv ltac:(discriminate)).
    rewrite Z.add_mod by lia. rewrite H, H0. rewrite <- Z.add_mod by lia.
    assumption.
  - revert Hc. apply dark_only_cell; assumption.
Qed.

(** ** The destinations computed by [_get_piece_moves] *)

Lemma pos_eqb_eq a b : pos_eqb a b = true <-> a = b.
Proof.
  destruct a as [a1 a2], b as [b1 b2]. unfold pos_eqb. simpl.
  rewrite andb_true_iff, !Z.eqb_eq. split; [intros [-> ->]|intros [=]]; auto.
Qed.

Lemma py_in_In x l : py_in x l = true <-> In x l.
Proof.
  unfold py_in. rewrite existsb_exists. split.
  - intros (y & Hy & Heq). apply pos_eqb_eq in Heq. subst. assumption.
  - intros Hx. exists x. split; [assumption|]. apply pos_eqb_eq. reflexivity.
Qed.

Lemma for_append_returns {A B} (cond : A -> outcome bool) (val : A -> B) l out :
  for_append cond val l = Returns out ->
  (forall d, In d l -> exists b, cond d = Returns b) /\
  (forall x, In x out <-> exists d, In d l /\ cond d = Returns true /\ x = val d).
Proof.
  revert out. induction l as [|d t IH]; simpl; intros out H.
  - injection H as <-. split; [contradiction|].
    intros x. split; [contradiction|]. intros (? & [] & _).
  - apply obind_returns in H as (b & Hb & H).
    apply obind_returns in H as (rest & Hrest & H). injection H as <-.
    destruct (IH rest Hrest) as [IH1 IH2]. split.
    + intros d' [<-|Hd]; eauto.
    + intros x. destruct b; simpl; rewrite ?IH2; split.
      * intros [<-|(d' & Hd' & Hc & ->)]; eauto 6.
      * intros (d' & [<-|Hd'] & Hc & ->); eauto 6.
      * intros (d' & Hd' & Hc & ->); eauto 6.
      * intros (d' & [<-|Hd'] & Hc & ->); [congruence|eauto 6].
Qed.

Lemma directions_four p d : In d (directions p) -> In d four_directions.
Proof.
  unfold directions, four_directions.
  destruct (_ || _), (_ || _); simpl; tauto.
Qed.

Lemma in_board_spec x : in_board x = true <-> 0 <= x < 8.
Proof. unfold in_board. rewrite andb_true_iff, Z.leb_le, Z.ltb_lt. tauto. Qed.

Lemma capture_cond_true g p row col d :
  capture_cond g p row col d = Returns true ->
  0 <= row + fst d * 2 < 8 /\ 0 <= col + snd d * 2 < 8.
Proof.
  unfold capture_cond. destruct d as [d_row d_col]. simpl.
  destruct (in_board _ && in_board _) eqn:Hb; simpl; [|discriminate].
  apply andb_true_iff in Hb as [H1 H2].
  apply in_board_spec in H1, H2. auto.
Qed.

Lemma step_cond_true g row col d :
  step_cond g row col d = Returns true ->
  0 <= row + fst d < 8 /\ 0 <= col + snd d < 8.
Proof.
  unfold step_cond. destruct d as [d_row d_col]. simpl.
  destruct (in_board _ && in_board _) eqn:Hb; simpl; [|discriminate].
  apply andb_true_iff in Hb as [H1 H2].
  apply in_board_spec in H1, H2. auto.
Qed.

Lemma jump_diagonal row col d :
  In d four_directions ->
  0 <= row + fst d * 2 < 8 -> 0 <= col + snd d * 2 < 8 ->
  diagonal_step row col (row + fst d * 2) (col + snd d * 2) /\
  Z.abs (row + fst d * 2 - row) = 2.
Proof.
  unfold four_directions, diagonal_step. simpl.
  intros [<-|[<-|[<-|[<-|[]]]]]; simpl; lia.
Qed.

Lemma step_diagonal row col d :
  In d four_directions ->
  0 <= row + fst d < 8 -> 0 <= col + snd d < 8 ->
  diagonal_step row col (row + fst d) (col + snd d) /\
  Z.abs (row + fst d - row) = 1.
Proof.
  unfold four_directions, diagonal_step. simpl.
  intros [<-|[<-|[<-|[<-|[]]]]]; simpl; lia.
Qed.

(** The outcome of [moves_along]: the jumps when there is one or when only
    captures are asked for, otherwise the single steps. *)
Lemma moves_along_returns g p row col dirs co l :
  moves_along g p row col dirs co = Returns l ->
  exists captures,
    for_append (capture_cond g p row col) (jump_to row col) dirs
      = Returns captures /\
    ((nonempty captures || co = true /\ l = captures) \/
     (captures = [] /\ co = false /\
      for_append (step_cond g row col) (step_to row col) dirs = Returns l)).
Proof.
  unfold moves_along. intros H.
  apply obind_returns in H as (captures & Hc & H). exists captures.
  split; [assumption|].
  destruct (nonempty captures || co) eqn:Hb.
  - left. injection H as <-. auto.
  - right. apply orb_false_iff in Hb as [Hn ->].
    apply nonempty_false in Hn. auto.
Qed.

Lemma _get_piece_moves_returns g row col co l :
  _get_piece_moves g row col co = Returns l ->
  (l = [] /\ exists piece, grid_get (board g) row col = Returns piece /\
     forall p, piece = Some p -> color p <> current_player g) \/
  (exists p, grid_get (board g) row col = Returns (Some p) /\
     color p = current_player g /\
     moves_along g p row col (directions p) co = Returns l).
Proof.
  unfold _get_piece_moves. intros H.
  apply obind_returns in H as ([p|] & Hp & H).
  - destruct (color_eqb (color p) (current_player g)) eqn:Hc; simpl in H.
    + right. exists p. apply color_eqb_eq in Hc. auto.
    + left. injection H as <-. split; [reflexivity|]. exists (Some p).
      split; [assumption|]. intros ? [= <-] Heq.
      apply color_eqb_eq in Heq. congruence.
  - left. injection H as <-. split; [reflexivity|]. exists None.
    split; [assumption|]. discriminate.
Qed.

Lemma _get_piece_moves_diagonal g row col co l new_row new_col :
  _get_piece_moves g row col co = Returns l ->
  In (new_row, new_col) l ->
  diagonal_step row col new_row new_col /\
  (co = true -> Z.abs (new_row - row) = 2).
Proof.
  intros H Hin.
  apply _get_piece_moves_returns in H as [[-> _]|(p & _ & _ & H)];
    [contradiction|].
  apply moves_along_returns in H as (captures & Hc & [[_ ->]|(-> & -> & Hs)]).
  - apply for_append_returns in Hc as [_ Hc].
    apply Hc in Hin as (d & Hd & Hcond & Heq).
    apply directions_four in Hd. apply capture_cond_true in Hcond as [H1 H2].
    unfold jump_to in Heq. injection Heq as -> ->.
    destruct (jump_diagonal row col d Hd H1 H2). auto.
  - apply for_append_returns in Hs as [_ Hs].
    apply Hs in Hin as (d & Hd & Hcond & Heq).
    apply directions_four in Hd. apply step_cond_true in Hcond as [H1 H2].
    unfold step_to in Heq. injection Heq as -> ->.
    destruct (step_diagonal row col d Hd H1 H2). split; [auto|discriminate].
Qed.

(** ** The shape of an accepted selection *)

Lemma select_piece_true_inv row col g g' :
  select_piece row col g = (g', Returns true) ->
  exists p moves,
    grid_get (board g) row col = Returns (Some p) /\
    color p = current_player g /\
    _get_piece_moves g row col (must_capture g) = Returns moves /\
    (must_capture g = true -> moves <> []) /\
    g' = chained g row col moves.
Proof.
  unfold select_piece. intros H. step H as Hp. step H.
  destruct a as [p|]; [|leaf H; discriminate].
  destruct (color_eqb _ _) eqn:Hc; cbv beta iota delta [negb] in H;
    [|leaf H; discriminate].
  apply color_eqb_eq in Hc. step H.
  destruct (must_capture g) eqn:Hm.
  - step H as Hmoves. rename a into moves.
    destruct (nonempty moves) eqn:Hne; cbv beta iota delta [negb] in H;
      [|leaf H; discriminate].
    step H. step H. leaf H. exists p, moves.
    apply nonempty_true in Hne. repeat split; auto.
  - step H as Hmoves. rename a into moves. step H. step H. leaf H.
    exists p, moves. repeat split; auto.
Qed.

(** ** The squares after a move *)

Lemma promote_cells p new_row new_col g g' u :
  wf_grid (board g) ->
  promote (Some p) new_row new_col g = (g', Returns u) ->
  wf_grid (board g') /\
  forall i j,
    cell (board g') i j =
      if decide (i = pos8 new_row /\ j = pos8 new_col)
      then match cell (board g) i j with
           | Some (Some q) =>
               Some (Some (if (color_eqb (color p) red && (new_row =? 0))
                              || (color_eqb (color p) black && (new_row =? 7))
                           then mkPiece (color q) true else q))
           | c => c
           end
      else cell (board g) i j.
Proof.
  intros Hwf. unfold promote. destruct (_ || _).
  - intros H. step H as Hhere. rename a into here.
    apply grid_get_cell in Hhere as (_ & _ & Hhere); [|assumption].
    destruct here as [q|].
    + apply store_returns in H as (b' & Hset & ->).
      apply grid_set_cell in Hset as (_ & _ & Hwf' & Hcell); [|assumption].
      split; [assumption|]. intros i j. simpl. rewrite Hcell.
      destruct (decide _) as [[-> ->]|_]; [|reflexivity].
      rewrite Hhere. reflexivity.
    + leaf H. split; [assumption|]. intros i j.
      destruct (decide _) as [[-> ->]|_]; [|reflexivity].
      rewrite Hhere. reflexivity.
  - intros H. leaf H. split; [assumption|]. intros i j.
    destruct (decide _); [|reflexivity].
    destruct (cell (board g) i j) as [[q|]|]; reflexivity.
Qed.

Lemma apply_move_cells old_row old_col new_row new_col g g1 ic :
  wf_grid (board g) ->
  apply_move old_row old_col new_row new_col g = (g1, Returns ic) ->
  exists p,
    grid_get (board g) old_row old_col = Returns (Some p) /\
    wf_grid (board g1) /\ -8 <= new_row < 8 /\ -8 <= new_col < 8 /\
    forall i j,
      cell (board g1) i j =
        if decide (ic = true /\ i = pos8 ((new_row + old_row) / 2)
                   /\ j = pos8 ((new_col + old_col) / 2))
        then Some None
        else if decide (i = pos8 old_row /\ j = pos8 old_col) then Some None
        else if decide (i = pos8 new_row /\ j = pos8 new_col)
             then Some (Some (promoted p new_row))
             else cell (board g) i j.
Proof.
  intros Hwf H. unfold apply_move in H.
  step H as Hget. rename a into piece.
  step H as Hnew. apply store_returns in Hnew as (b1 & Hb1 & ->).
  apply grid_set_cell in Hb1 as (Hnr & Hnc & Hwf1 & Hc1); [|assumption].
  step H as Hold. apply store_returns in Hold as (b2 & Hb2 & ->).
  apply grid_set_cell in Hb2 as (_ & _ & Hwf2 & Hc2); [|assumption].
  step H as Hmid. rename g0 into g3. step H as Hpro. leaf H.
  destruct piece as [p|]; [|discriminate].
  exists p. split; [assumption|].
  assert (wf_grid (board g3) /\
          forall i j, cell (board g3) i j =
            if decide ((Z.abs (new_row - old_row) =? 2) = true
                       /\ i = pos8 ((new_row + old_row) / 2)
                       /\ j = pos8 ((new_col + old_col) / 2))
            then Some None else cell b2 i j) as [Hwf3 Hc3].
  { destruct (Z.abs _ =? 2).
    - apply store_returns in Hmid as (b3 & Hb3 & ->).
      apply grid_set_cell in Hb3 as (_ & _ & Hwf3 & Hc3); [|exact Hwf2].
      split; [assumption|]. intros i j. simpl. rewrite Hc3.
      destruct (decide _), (decide _); tauto || reflexivity.
    - leaf Hmid. split; [exact Hwf2|]. intros i j.
      rewrite decide_False; [reflexivity|]. intros [[=] _]. }
  apply promote_cells in Hpro as [Hwf4 Hc4]; [|assumption].
  split; [assumption|]. split; [assumption|]. split; [assumption|].
  intros i j. rewrite Hc4, Hc3, Hc2, Hc1. simpl. unfold promoted.
  repeat (destruct (decide _)); try reflexivity; try tauto.
Qed.

(** ** The invariant of the reachable states *)

Lemma wf_grid_new : wf_grid (board new).
Proof.
  split; [vm_compute; reflexivity|]. vm_compute. repeat constructor.
Qed.

Lemma dark_only_new : dark_only (board new).
Proof.
  apply dark_only_cell; [apply wf_grid_new|].
  remember (board new) as b eqn:Hb. vm_compute in Hb. subst b.
  intros i j p H. unfold cell in H.
  do 8 (destruct i as [|i];
        [cbn in H;
         do 8 (destruct j as [|j];
               [first [discriminate H | reflexivity]|]);
         discriminate H|]).
  discriminate H.
Qed.

Lemma invariant_new : invariant new.
Proof.
  split; [apply wf_grid_new|]. split; [apply dark_only_new|].
  intros ? ? ? ? H. vm_compute in H. discriminate H.
Qed.

Lemma invariant_chained g row col moves :
  wf_grid (board g) -> dark_only (board g) ->
  _get_piece_moves g row col true = Returns moves
  \/ _get_piece_moves g row col false = Returns moves ->
  invariant (chained g row col moves).
Proof.
  intros Hwf Hd Hm. split; [assumption|]. split; [assumption|].
  intros old_row old_col new_row new_col Hsel Hin.
  simpl in Hsel, Hin. injection Hsel as <- <-.
  destruct Hm as [Hm|Hm];
    exact (proj1 (_get_piece_moves_diagonal _ _ _ _ _ _ _ Hm Hin)).
Qed.

Lemma invariant_select row col g g' b :
  invariant g -> select_piece row col g = (g', Returns b) -> invariant g'.
Proof.
  intros Hinv H. destruct b.
  - apply select_piece_true_inv in H as (p & moves & _ & _ & Hm & _ & ->).
    destruct Hinv as (Hwf & Hd & _).
    apply invariant_chained; try assumption.
    destruct (must_capture g); auto.
  - apply select_piece_false_same in H as ->. assumption.
Qed.

Lemma diagonal_step_parity old_row old_col new_row new_col :
  diagonal_step old_row old_col new_row new_col ->
  (new_row + new_col) mod 2 = (old_row + old_col) mod 2.
Proof.
  intros (_ & _ & Habs & _).
  assert (new_row + new_col = old_row + old_col + (new_col - old_col) * 2
          \/ new_row + new_col = old_row + old_col + 0 * 2) as [->| ->] by lia;
    apply Z.mod_add; lia.
Qed.

Lemma apply_move_invariant old_row old_col new_row new_col g g1 ic :
  wf_grid (board g) -> dark_only (board g) ->
  diagonal_step old_row old_col new_row new_col ->
  apply_move old_row old_col new_row new_col g = (g1, Returns ic) ->
  wf_grid (board g1) /\ dark_only (board g1).
Proof.
  intros Hwf Hd Hstep H.
  apply apply_move_cells in H as (p & Hp & Hwf1 & Hnr & Hnc & Hcell);
    [|assumption].
  split; [assumption|].
  apply dark_only_cell; [assumption|]. intros i j q Hq.
  rewrite Hcell in Hq.
  destruct (decide _); [discriminate|].
  destruct (decide _); [discriminate|].
  destruct (decide _) as [[-> ->]|_].
  - apply grid_get_cell in Hp as (Hor & Hoc & Hp); [|assumption].
    apply (proj1 (dark_only_cell _ Hwf) Hd) in Hp.
    apply diagonal_step_parity in Hstep.
    rewrite Z.add_mod in Hp |- * by lia.
    rewrite !pos8_parity in Hp |- * by assumption.
    rewrite <- Z.add_mod in Hp |- * by lia. congruence.
  - revert Hq. apply dark_only_cell; assumption.
Qed.

Lemma invariant_move row col g g' b :
  invariant g -> make_move row col g = (g', Returns b) -> invariant g'.
Proof.
  intros Hinv H. destruct b.
  - apply make_move_true_inv in H
      as (old_row & old_col & g1 & ic & Hsel & Hin & Happ & Hcases).
    destruct Hinv as (Hwf & Hd & Hok).
    apply py_in_In in Hin. pose proof (Hok _ _ _ _ Hsel Hin) as Hstep.
    destruct (apply_move_invariant _ _ _ _ _ _ _ Hwf Hd Hstep Happ)
      as [Hwf1 Hd1].
    destruct Hcases as [(_ & moves & Hm & _ & ->)|(_ & u & Hend)].
    + apply invariant_chained; auto.
    + apply _end_turn_returns in Hend as (over & _ & Hb & Hs & _).
      split; [rewrite Hb; assumption|]. split; [rewrite Hb; assumption|].
      intros ? ? ? ? Hsome. rewrite Hs in Hsome. discriminate.
  - apply make_move_false_same in H as ->. assumption.
Qed.

Lemma reachable_invariant g : reachable g -> invariant g.
Proof.
  induction 1 as [|g c g' b _ IH H]; [apply invariant_new|].
  destruct c as [row col|row col]; simpl in H.
  - eapply invariant_select; eauto.
  - eapply invariant_move; eauto.
Qed.

(** C8.  In every reachable state (a new game, and the state left by any
    call of [select_piece] or [make_move] that returned, whatever its
    coordinates), every square that holds a piece has [row + col] odd; and
    every move accepted from such a state goes to a square of the board one
    or two squares away, by the same amount in both coordinates, from the
    selected coordinates. *)
Theorem pieces_stay_on_dark_squares (g : CheckersGame) :
  reachable g ->
  (forall row col p,
     0 <= row < 8 -> 0 <= col < 8 ->
     grid_get (board g) row col = Returns (Some p) ->
     (row + col) mod 2 = 1 /\ Board.is_dark_square row col = true) /\
  (forall new_row new_col g',
     make_move new_row new_col g = (g', Returns true) ->
     exists old_row old_col,
       selected_piece g = Some (old_row, old_col) /\
       0 <= new_row < 8 /\ 0 <= new_col < 8 /\
       Z.abs (new_row - old_row) = Z.abs (new_col - old_col) /\
       (Z.abs (new_row - old_row) = 1 \/ Z.abs (new_row - old_row) = 2)).
Proof.
  intros Hr. destruct (reachable_invariant g Hr) as (Hwf & Hd & Hok). split.
  - intros row col p Hrow Hcol Hp.
    pose proof (Hd row col p Hrow Hcol Hp) as Hodd. split; [assumption|].
    unfold Board.is_dark_square. apply Z.eqb_eq. assumption.
  - intros new_row new_col g' H.
    apply make_move_true_inv in H
      as (old_row & old_col & _ & _ & Hsel & Hin & _).
    apply py_in_In in Hin. exists old_row, old_col.
    split; [assumption|]. exact (Hok _ _ _ _ Hsel Hin).
Qed.

Lemma pieces_stay_on_dark_squares_witness :
  (5 + 0) mod 2 = 1 /\ Board.is_dark_square 5 0 = true.
Proof.
  apply (proj1 (pieces_stay_on_dark_squares after_wrap after_wrap_reachable)
           5 0 (mkPiece red false)).
  - lia.
  - lia.
  - vm_compute. reflexivity.
Defined.

(** ** No exception on a well-formed grid *)

Lemma for_append_total {A B} (cond : A -> outcome bool) (val : A -> B) l :
  (forall d, In d l -> exists b, cond d = Returns b) ->
  exists out, for_append cond val l = Returns out.
Proof.
  induction l as [|d t IH]; simpl; intros H; [eauto|].
  destruct (H d (or_introl eq_refl)) as [b ->].
  destruct IH as [rest ->]; [auto|]. simpl. eauto.
Qed.

Lemma for_any_total {A} (f : A -> outcome bool) l :
  (forall x, In x l -> exists b, f x = Returns b) ->
  exists b, for_any f l = Returns b.
Proof.
  induction l as [|x t IH]; simpl; intros H; [eauto|].
  destruct (H x (or_introl eq_refl)) as [b ->]. simpl.
  destruct b; [eauto|]. apply IH. auto.
Qed.

Lemma four_directions_unit d :
  In d four_directions -> -1 <= fst d <= 1 /\ -1 <= snd d <= 1.
Proof.
  unfold four_directions. simpl. intros [<-|[<-|[<-|[<-|[]]]]]; simpl; lia.
Qed.

Lemma capture_cond_total g p row col d :
  wf_grid (board g) -> -8 <= row < 8 -> -8 <= col < 8 ->
  In d four_directions ->
  exists b, capture_cond g p row col d = Returns b.
Proof.
  intros Hwf Hrow Hcol Hd. apply four_directions_unit in Hd.
  destruct d as [d_row d_col]. simpl in Hd. unfold capture_cond.
  destruct (in_board (row + d_row * 2) && in_board (col + d_col * 2)) eqn:Hb;
    simpl; [|eauto].
  apply andb_true_iff in Hb as [H1 H2]. apply in_board_spec in H1, H2.
  destruct (grid_get_total (board g) (row + d_row) (col + d_col) Hwf)
    as [mid ->]; [lia|lia|]. simpl.
  destruct mid as [m|]; [|eauto].
  destruct (color_eqb _ _); [eauto|].
  destruct (grid_get_total (board g) (row + d_row * 2) (col + d_col * 2) Hwf)
    as [tgt ->]; [lia|lia|]. simpl. eauto.
Qed.

Lemma step_cond_total g row col d :
  wf_grid (board g) -> exists b, step_cond g row col d = Returns b.
Proof.
  intros Hwf. destruct d as [d_row d_col]. unfold step_cond.
  destruct (in_board (row + d_row) && in_board (col + d_col)) eqn:Hb;
    simpl; [|eauto].
  apply andb_true_iff in Hb as [H1 H2]. apply in_board_spec in H1, H2.
  destruct (grid_get_total (board g) (row + d_row) (col + d_col) Hwf)
    as [tgt ->]; [lia|lia|]. simpl. eauto.
Qed.

Lemma moves_along_total g p row col co :
  wf_grid (board g) -> -8 <= row < 8 -> -8 <= col < 8 ->
  exists l, moves_along g p row col (directions p) co = Returns l.
Proof.
  intros Hwf Hrow Hcol. unfold moves_along.
  destruct (for_append_total (capture_cond g p row col) (jump_to row col)
              (directions p)) as [captures ->].
  { intros d Hd. apply capture_cond_total; auto.
    eapply directions_four; eauto. }
  simpl. destruct (_ || _); [eauto|].
  apply for_append_total. intros d _. apply step_cond_total. assumption.
Qed.

Lemma _get_piece_moves_own g row col p co :
  grid_get (board g) row col = Returns (Some p) ->
  color p = current_player g ->
  _get_piece_moves g row col co = moves_along g p row col (directions p) co.
Proof.
  intros Hp Hc. unfold _get_piece_moves. rewrite Hp. simpl.
  rewrite (proj2 (color_eqb_eq _ _) Hc). reflexivity.
Qed.

Lemma _get_piece_moves_total g row col co :
  wf_grid (board g) -> -8 <= row < 8 -> -8 <= col < 8 ->
  exists l, _get_piece_moves g row col co = Returns l.
Proof.
  intros Hwf Hrow Hcol. unfold _get_piece_moves.
  destruct (grid_get_total (board g) row col Hwf Hrow Hcol) as [piece ->].
  simpl. destruct piece as [p|]; [|eauto].
  destruct (negb _); [eauto|]. apply moves_along_total; assumption.
Qed.

Lemma scan_total co g :
  wf_grid (board g) ->
  exists b,
    for_any (fun row => for_any (scan_body co g row) (range 0 8)) (range 0 8)
      = Returns b.
Proof.
  intros Hwf. apply for_any_total. intros row Hrow. apply in_range in Hrow.
  apply for_any_total. intros col Hcol. apply in_range in Hcol.
  unfold scan_body.
  destruct (grid_get_total (board g) row col Hwf) as [piece ->]; [lia|lia|].
  simpl. destruct piece as [p|]; [|eauto].
  destruct (color_eqb _ _); [|eauto].
  destruct (_get_piece_moves_total g row col co Hwf) as [l ->]; [lia|lia|].
  simpl. eauto.
Qed.

Lemma scan_for_captures_has g :
  wf_grid (board g) -> has_destination true g ->
  scan_for_captures g = Returns true.
Proof.
  intros Hwf Hhas. destruct (scan_total true g Hwf) as [[|] Hb].
  - exact Hb.
  - destruct (destination_exclusive _ _ Hhas (scan_false _ _ Hb)).
Qed.

(** ** The forced-capture flag in play on the board *)

Lemma moves_along_captures g p row col dirs captures :
  for_append (capture_cond g p row col) (jump_to row col) dirs
    = Returns captures ->
  moves_along g p row col dirs true = Returns captures.
Proof.
  intros H. unfold moves_along. rewrite H. simpl.
  rewrite orb_true_r. reflexivity.
Qed.

(** A two-square destination offered without the capture-only flag is a
    capture. *)
Lemma jump_is_capture g row col l new_row new_col :
  _get_piece_moves g row col false = Returns l ->
  In (new_row, new_col) l -> Z.abs (new_row - row) = 2 ->
  _get_piece_moves g row col true = Returns l /\ l <> [] /\
  exists p, grid_get (board g) row col = Returns (Some p) /\
            color p = current_player g.
Proof.
  intros H Hin Habs.
  apply _get_piece_moves_returns in H as [[-> _]|(p & Hp & Hc & H)];
    [contradiction|].
  rewrite (_get_piece_moves_own g row col p true Hp Hc).
  apply moves_along_returns in H as (captures & Hcap & [[_ ->]|(-> & _ & Hs)]).
  - split; [apply moves_along_captures; assumption|].
    split; [intros ->; contradiction|eauto].
  - exfalso. apply for_append_returns in Hs as [_ Hs].
    apply Hs in Hin as (d & Hd & Hcond & Heq).
    apply directions_four in Hd. apply step_cond_true in Hcond as [H1 H2].
    unfold step_to in Heq. injection Heq as -> ->.
    destruct (step_diagonal row col d Hd H1 H2) as [_ Hone]. lia.
Qed.

Lemma capture_flag_ok_new : capture_flag_ok new.
Proof.
  split; [vm_compute; reflexivity|].
  intros ? ? H. vm_compute in H. discriminate H.
Qed.

Lemma capture_flag_ok_select row col g g' b :
  0 <= row < 8 -> 0 <= col < 8 ->
  capture_flag_ok g -> select_piece row col g = (g', Returns b) ->
  capture_flag_ok g'.
Proof.
  intros Hrow Hcol [Hscan Hsel] H. destruct b.
  - apply select_piece_true_inv in H as (p & moves & _ & _ & Hm & _ & ->).
    split; [exact Hscan|].
    intros old_row old_col [= <- <-]. auto.
  - apply select_piece_false_same in H as ->. split; assumption.
Qed.

Lemma capture_flag_ok_move row col g g' b :
  0 <= row < 8 -> 0 <= col < 8 ->
  invariant g -> capture_flag_ok g ->
  make_move row col g = (g', Returns b) ->
  capture_flag_ok g' /\
  (b = true -> current_player g' = current_player g ->
   must_capture g = true).
Proof.
  intros Hrow Hcol (Hwf & Hd & Hok) [Hscan Hsel] H. destruct b.
  - apply make_move_true_inv in H
      as (old_row & old_col & g1 & ic & Hs & Hin & Happ & Hcases).
    apply py_in_In in Hin.
    destruct (Hsel _ _ Hs) as (Hor & Hoc & Hvalid).
    pose proof (Hok _ _ _ _ Hs Hin) as Hstep.
    destruct (apply_move_invariant _ _ _ _ _ _ _ Hwf Hd Hstep Happ)
      as [Hwf1 _].
    destruct (apply_move_frame _ _ _ _ _ _ _ Happ)
      as [(Hp1 & _ & _ & Hm1 & _) Hic].
    destruct Hcases as [(-> & moves & Hm & Hne & ->)|(_ & u & Hend)].
    + assert (must_capture g = true) as Hforced.
      { destruct (must_capture g) eqn:Hmc; [reflexivity|exfalso].
        symmetry in Hic. apply Z.eqb_eq in Hic.
        destruct (jump_is_capture _ _ _ _ _ _ Hvalid Hin Hic)
          as (Htrue & Hnil & p & Hp & Hc).
        assert (has_destination true g) as Hhas.
        { exists old_row, old_col, p, (valid_moves g). auto 8. }
        apply scan_for_captures_has in Hhas; [|assumption]. congruence. }
      split; [|auto]. split.
      * change (scan_for_captures g1 = Returns (must_capture g1)).
        rewrite Hm1, Hforced.
        apply scan_for_captures_has; [assumption|].
        pose proof Hm as Hm'.
        apply _get_piece_moves_returns in Hm' as [[-> _]|(p & Hp & Hc & _)];
          [contradiction|].
        exists row, col, p, moves. auto 8.
      * intros ? ? [= <- <-]. split; [assumption|]. split; [assumption|].
        change (_get_piece_moves g1 row col (must_capture g1) = Returns moves).
        rewrite Hm1, Hforced. assumption.
    + apply _end_turn_returns in Hend
        as (over & Hp' & _ & Hnone & _ & Hscan' & _).
      split.
      * split; [assumption|]. intros ? ? Hsome. congruence.
      * intros _ Hsame. rewrite Hp', Hp1 in Hsame.
        destruct (other_neq _ Hsame).
  - apply make_move_false_same in H as ->. split; [split; assumption|].
    discriminate.
Qed.

Lemma reachable_on_board_ok g :
  reachable_on_board g -> invariant g /\ capture_flag_ok g.
Proof.
  induction 1 as [|g c g' b Hg [Hinv Hflag] Hc H].
  - split; [apply invariant_new|apply capture_flag_ok_new].
  - split.
    + apply reachable_invariant. apply reachable_on_board_reachable.
      eapply reach_ob_call; eauto.
    + destruct c as [row col|row col]; simpl in Hc, H;
        destruct Hc as [Hrow Hcol].
      * exact (capture_flag_ok_select row col g g' b Hrow Hcol Hflag H).
      * exact (proj1 (capture_flag_ok_move row col g g' b Hrow Hcol
                        Hinv Hflag H)).
Qed.

(** In play on the board, [select_piece] refuses a piece without capture
    whenever the player to move has a capture somewhere. *)
Lemma forced_capture_on_board g row col p :
  reachable_on_board g ->
  has_destination true g ->
  grid_get (board g) row col = Returns (Some p) ->
  color p = current_player g ->
  _get_piece_moves g row col true = Returns [] ->
  select_piece row col g = (g, Returns false).
Proof.
  intros Hr Hhas Hp Hc Hnone.
  destruct (reachable_on_board_ok g Hr) as [(Hwf & _) [Hscan _]].
  rewrite (scan_for_captures_has g Hwf Hhas) in Hscan.
  injection Hscan as Hforced.
  unfold select_piece.
  erewrite bind_run by (unfold read; rewrite Hp; reflexivity).
  erewrite bind_run by reflexivity. cbv beta iota.
  rewrite (proj2 (color_eqb_eq _ _) Hc). cbv beta iota delta [negb].
  erewrite bind_run by reflexivity. rewrite <- Hforced.
  erewrite bind_run by (unfold read; rewrite Hnone; reflexivity).
  reflexivity.
Qed.

(** ** Selections during a chain *)

(** C1 fails as stated.  [before_chain] is reached from a new game by calls
    on the board; there black has selected [(2,5)], and the jump to [(4,3)]
    is accepted and leaves black to move with a further capture from
    [(4,3)].  In the state after that jump, [select_piece(4, 7)], on a square
    other than the landing square, returns [True] and moves the selection to
    [(4,7)]; the jump of that other piece to [(6,5)] is then accepted and
    ends the turn, the chaining piece still standing on [(4,3)]. *)
Lemma chain_selection_not_locked :
  reachable_on_board before_chain /\
  selected_piece before_chain = Some (2, 5) /\
  make_move 4 3 before_chain = (in_chain, Returns true) /\
  current_player in_chain = current_player before_chain /\
  selected_piece in_chain = Some (4, 3) /\
  _can_continue_capture in_chain 4 3 = Returns true /\
  (4, 7) <> (4, 3) /\
  select_piece 4 7 in_chain = (chained in_chain 4 7 [(6, 5)], Returns true) /\
  selected_piece (chained in_chain 4 7 [(6, 5)]) = Some (4, 7) /\
  (exists g',
     make_move 6 5 (chained in_chain 4 7 [(6, 5)]) = (g', Returns true) /\
     current_player g' = red /\
     grid_get (board g') 4 3 = Returns (Some (mkPiece black false)) /\
     grid_get (board g') 6 5 = Returns (Some (mkPiece black false)) /\
     grid_get (board g') 4 7 = Returns None).
Proof.
  split; [exact before_chain_reachable|].
  split; [vm_compute; reflexivity|].
  split; [vm_compute; reflexivity|].
  split; [vm_compute; reflexivity|].
  split; [vm_compute; reflexivity|].
  split; [vm_compute; reflexivity|].
  split; [discriminate|].
  split; [vm_compute; reflexivity|].
  split; [reflexivity|].
  eexists. split; [vm_compute; reflexivity|].
  repeat split; vm_compute; reflexivity.
Qed.

(** ** Forced capture and indices off the board *)

(** C2 at a state the engine reaches.  [after_wrap] is reached from a new
    game by twelve calls that all return [True]; the last two select black's
    piece of [(1,6)] as [(1,-2)] and jump with it to [(3,0)], over the square
    [(2,-1)], which is [(2,7)].  The forced-capture flag was not set before
    that jump and is not recomputed during a chain: in [after_wrap] black has
    a capture (the scan of [_check_for_captures] finds one), the black piece
    on [(0,1)] has none, and [select_piece(0, 1)] returns [True] and selects
    it. *)
Theorem forced_capture_skipped_after_wrap :
  reachable after_wrap /\
  play wrap_setup new = (after_wrap, Returns (repeat true 12)) /\
  current_player after_wrap = black /\
  must_capture after_wrap = false /\
  scan_for_captures after_wrap = Returns true /\
  has_destination true after_wrap /\
  grid_get (board after_wrap) 0 1 = Returns (Some (mkPiece black false)) /\
  _get_piece_moves after_wrap 0 1 true = Returns [] /\
  select_piece 0 1 after_wrap = (chained after_wrap 0 1 [], Returns true).
Proof.
  split; [exact after_wrap_reachable|].
  split; [vm_compute; reflexivity|].
  split; [vm_compute; reflexivity|].
  split; [vm_compute; reflexivity|].
  split; [vm_compute; reflexivity|].
  split.
  { apply scan_for_captures_true. vm_compute. reflexivity. }
  repeat split; vm_compute; reflexivity.
Qed.

(** ** Kings *)

Lemma promoted_color p row : color (promoted p row) = color p.
Proof. unfold promoted. destruct (_ || _); reflexivity. Qed.

Lemma promoted_king p row : king p = true -> king (promoted p row) = true.
Proof. unfold promoted. destruct (_ || _); auto. Qed.

Lemma directions_king p : king p = true -> directions p = four_directions.
Proof.
  intros Hk. unfold directions. rewrite Hk, !orb_true_r. reflexivity.
Qed.

Lemma get_move_directions_king p :
  king p = true -> Piece.get_move_directions p = four_directions.
Proof.
  intros Hk. unfold Piece.get_move_directions.
  rewrite Hk, !orb_true_r. reflexivity.
Qed.

Lemma grid_get_on_board b row col v :
  wf_grid b -> 0 <= row < 8 -> 0 <= col < 8 ->
  grid_get b row col = Returns v <->
  cell b (Z.to_nat row) (Z.to_nat col) = Some v.
Proof.
  intros Hwf Hrow Hcol. rewrite grid_get_cell by assumption.
  rewrite !pos8_small by assumption. split; [tauto|].
  intros H. repeat split; try lia. assumption.
Qed.

Lemma move_keeps_kings row col g g' b :
  invariant g -> make_move row col g = (g', Returns b) ->
  forall r c q,
    0 <= r < 8 -> 0 <= c < 8 ->
    grid_get (board g') r c = Returns (Some q) ->
    grid_get (board g) r c = Returns (Some q) \/
    (exists old_row old_col p,
       (r, c) = (row, col) /\
       selected_piece g = Some (old_row, old_col) /\
       grid_get (board g) old_row old_col = Returns (Some p) /\
       q = promoted p row).
Proof.
  intros (Hwf & Hd & Hok) H r c q Hr Hc Hq. destruct b.
  - apply make_move_true_inv in H
      as (old_row & old_col & g1 & ic & Hs & Hin & Happ & Hcases).
    apply py_in_In in Hin.
    destruct (Hok _ _ _ _ Hs Hin) as (Hrow & Hcol & _).
    apply apply_move_cells in Happ as (p & Hp & Hwf1 & _ & _ & Hcell);
      [|assumption].
    assert (board g' = board g1) as Hb.
    { destruct Hcases as [(_ & moves & _ & _ & ->)|(_ & u & Hend)];
        [reflexivity|].
      apply _end_turn_returns in Hend as (over & _ & Hb & _). exact Hb. }
    rewrite Hb in Hq. apply grid_get_on_board in Hq; try assumption.
    rewrite Hcell in Hq.
    destruct (decide _); [discriminate|].
    destruct (decide _); [discriminate|].
    destruct (decide _) as [[Hi Hj]|_].
    + right. exists old_row, old_col, p.
      rewrite !pos8_small in Hi, Hj by assumption.
      assert (r = row) as -> by lia. assert (c = col) as -> by lia.
      injection Hq as <-. auto.
    + left. apply grid_get_on_board; assumption.
  - apply make_move_false_same in H as ->. auto.
Qed.

(** C9.  From a reachable state, a call that returns never takes a crown
    away: a piece found on a square afterwards is the piece that was on that
    square, unchanged, or it is the piece that moved there, with its colour
    and, if it was a king, still a king.  And whatever its colour, a king's
    directions are the four diagonal unit vectors, in [_get_piece_moves] as
    in [Piece.get_move_directions]: in the state after the call, also in the
    middle of a chain, the destinations of a king of the player to move are
    those found along these four directions. *)
Theorem kings_stay_kings (g g' : CheckersGame) (c : call) (b : bool) :
  reachable g ->
  perform c g = (g', Returns b) ->
  (forall row col q,
     0 <= row < 8 -> 0 <= col < 8 ->
     grid_get (board g') row col = Returns (Some q) ->
     grid_get (board g) row col = Returns (Some q) \/
     (exists old_row old_col p,
        c = Move row col /\
        selected_piece g = Some (old_row, old_col) /\
        grid_get (board g) old_row old_col = Returns (Some p) /\
        color q = color p /\ (king p = true -> king q = true))) /\
  (forall q, king q = true ->
     directions q = [(-1, -1); (-1, 1); (1, -1); (1, 1)] /\
     Piece.get_move_directions q = [(-1, -1); (-1, 1); (1, -1); (1, 1)]) /\
  (forall row col q co,
     grid_get (board g') row col = Returns (Some q) ->
     color q = current_player g' -> king q = true ->
     _get_piece_moves g' row col co
       = moves_along g' q row col [(-1, -1); (-1, 1); (1, -1); (1, 1)] co).
Proof.
  intros Hr H. pose proof (reachable_invariant g Hr) as Hinv. split; [|split].
  - intros row col q Hrow Hcol Hq. destruct c as [r c|r c]; simpl in H.
    + left. destruct b.
      * apply select_piece_true_inv in H as (_ & ? & _ & _ & _ & _ & ->).
        exact Hq.
      * apply select_piece_false_same in H as ->. exact Hq.
    + destruct (move_keeps_kings _ _ _ _ _ Hinv H row col q Hrow Hcol Hq)
        as [Hsame|(old_row & old_col & p & Heq & Hs & Hp & ->)];
        [left; assumption|right].
      injection Heq as -> ->. exists old_row, old_col, p.
      split; [reflexivity|]. split; [assumption|]. split; [assumption|].
      split; [apply promoted_color|apply promoted_king].
  - intros q Hk. split.
    + apply directions_king; assumption.
    + apply get_move_directions_king; assumption.
  - intros row col q co Hq Hc Hk.
    rewrite (_get_piece_moves_own _ _ _ _ co Hq Hc).
    rewrite (directions_king q Hk). reflexivity.
Qed.

Lemma kings_stay_kings_witness :
  (exists old_row old_col p,
     selected_piece king_to_move = Some (old_row, old_col) /\
     grid_get (board king_to_move) old_row old_col = Returns (Some p) /\
     color (mkPiece black true) = color p /\
     (king p = true -> king (mkPiece black true) = true)) /\
  directions (mkPiece red true) = [(-1, -1); (-1, 1); (1, -1); (1, 1)] /\
  Piece.get_move_directions (mkPiece red true)
    = [(-1, -1); (-1, 1); (1, -1); (1, 1)].
Proof.
  destruct (kings_stay_kings king_to_move blocked (Move 5 6) true)
    as (Hkept & Hdirs & _).
  - apply (play_reachable (firstn 53 blocked_game) new king_to_move
             (repeat true 53)).
    + apply reach_new.
    + vm_compute. reflexivity.
  - vm_compute. reflexivity.
  - split.
    + destruct (Hkept 5 6 (mkPiece black true))
        as [Hthere|(old_row & old_col & p & _ & Hs & Hp & Hc & Hk)].
      * lia.
      * lia.
      * vm_compute. reflexivity.
      * vm_compute in Hthere. discriminate Hthere.
      * exists old_row, old_col, p. auto.
    + apply Hdirs. reflexivity.
Defined.

(** ** [CheckersGame._get_piece_moves] and [Board.get_valid_moves] *)

Lemma is_valid_position_spec row col :
  Board.is_valid_position row col = in_board row && in_board col.
Proof. reflexivity. Qed.

Lemma get_piece_on_board b row col :
  0 <= row < 8 -> 0 <= col < 8 -> Board.get_piece b row col = grid_get b row col.
Proof.
  intros Hrow Hcol. unfold Board.get_piece. rewrite is_valid_position_spec.
  rewrite (proj2 (in_board_spec row) Hrow), (proj2 (in_board_spec col) Hcol).
  reflexivity.
Qed.

Lemma get_piece_off_board b row col :
  ~ (0 <= row < 8 /\ 0 <= col < 8) -> Board.get_piece b row col = Returns None.
Proof.
  intros H. unfold Board.get_piece. rewrite is_valid_position_spec.
  destruct (in_board row) eqn:Hr, (in_board col) eqn:Hc; try reflexivity.
  apply in_board_spec in Hr, Hc. tauto.
Qed.

Lemma check_capture_agrees g p row col d :
  wf_grid (board g) -> 0 <= row < 8 -> 0 <= col < 8 ->
  In d four_directions ->
  exists b,
    capture_cond g p row col d = Returns b /\
    Board._check_capture (board g) row col (fst d) (snd d) (color p)
      = Returns (if b then Some (jump_to row col d) else None).
Proof.
  intros Hwf Hrow Hcol Hd. apply four_directions_unit in Hd.
  destruct d as [d_row d_col]. simpl in Hd.
  unfold capture_cond, Board._check_capture, jump_to. simpl fst. simpl snd.
  rewrite is_valid_position_spec.
  destruct (in_board (row + d_row * 2) && in_board (col + d_col * 2)) eqn:Hb;
    cbv beta iota delta [negb]; [|eauto].
  apply andb_true_iff in Hb as [H1 H2]. apply in_board_spec in H1, H2.
  rewrite !get_piece_on_board by lia.
  destruct (grid_get_total (board g) (row + d_row) (col + d_col) Hwf)
    as [mid ->]; [lia|lia|]. simpl obind.
  destruct mid as [m|]; [|eauto].
  destruct (color_eqb _ _); [eauto|].
  destruct (grid_get_total (board g) (row + d_row * 2) (col + d_col * 2) Hwf)
    as [tgt ->]; [lia|lia|]. simpl obind.
  destruct tgt; simpl; eauto.
Qed.

Lemma for_fold_union {A} (cond : A -> outcome bool) (val : A -> Z * Z)
    (body : gset (Z * Z) -> A -> outcome (gset (Z * Z))) l :
  (forall d, In d l ->
     exists b, cond d = Returns b /\
       forall acc, body acc d = Returns (if b then acc ∪ {[val d]} else acc)) ->
  exists out,
    for_append cond val l = Returns out /\
    forall acc, for_fold body l acc = Returns (acc ∪ list_to_set out).
Proof.
  induction l as [|d t IH]; intros H.
  - exists []. split; [reflexivity|]. intros acc. simpl.
    rewrite (right_id_L ∅ (∪)). reflexivity.
  - destruct (H d (or_introl eq_refl)) as (b & Hb & Hbody).
    destruct IH as (rest & Hrest & Hfold); [intros; apply H; right; assumption|].
    exists (if b then val d :: rest else rest). split.
    + simpl. rewrite Hb. simpl. rewrite Hrest. reflexivity.
    + intros acc. simpl. rewrite Hbody. simpl. rewrite Hfold.
      destruct b; [|reflexivity].
      simpl. rewrite (assoc_L (∪)). reflexivity.
Qed.

Lemma list_to_set_nonempty (l : list (Z * Z)) :
  bool_decide ((list_to_set l : gset (Z * Z)) ≠ ∅) = nonempty l.
Proof.
  destruct l as [|x t]; simpl.
  - apply bool_decide_eq_false_2. intros H. apply H. reflexivity.
  - apply bool_decide_eq_true_2. set_solver.
Qed.

(** C10.  On a grid of eight rows of eight squares, for a square of the
    board that holds a piece of the player to move, and for either value of
    [capture_only], [CheckersGame._get_piece_moves] and
    [Board.get_valid_moves] both return, and the set returned by the second
    is the set of the elements of the list returned by the first. *)
Theorem move_generators_agree
    (g : CheckersGame) (row col : Z) (p : Piece) (capture_only : bool) :
  wf_grid (board g) ->
  0 <= row < 8 -> 0 <= col < 8 ->
  grid_get (board g) row col = Returns (Some p) ->
  color p = current_player g ->
  exists (l : list (Z * Z)) (s : gset (Z * Z)),
    _get_piece_moves g row col capture_only = Returns l /\
    Board.get_valid_moves (board g) row col capture_only = Returns s /\
    forall x, x ∈ s <-> In x l.
Proof.
  intros Hwf Hrow Hcol Hp Hc.
  rewrite (_get_piece_moves_own g row col p capture_only Hp Hc).
  unfold Board.get_valid_moves. rewrite get_piece_on_board by assumption.
  rewrite Hp. simpl obind.
  change (Piece.get_move_directions p) with (directions p).
  unfold moves_along.
  destruct (for_fold_union (capture_cond g p row col) (jump_to row col)
    (fun (acc : gset (Z * Z)) '(d_row, d_col) =>
       capture_pos <- Board._check_capture (board g) row col d_row d_col
                        (color p) ;;
       match capture_pos with
       | Some pos => Returns (acc ∪ {[pos]})
       | None => Returns acc
       end) (directions p)) as (captures & Hcap & Hfold).
  { intros d Hd. apply directions_four in Hd.
    destruct (check_capture_agrees g p row col d Hwf Hrow Hcol Hd)
      as (b & Hb & Hcheck).
    exists b. split; [assumption|]. intros acc.
    destruct d as [d_row d_col]. simpl in Hcheck. rewrite Hcheck.
    destruct b; reflexivity. }
  rewrite Hcap, Hfold. simpl obind.
  rewrite (left_id_L ∅ (∪)). rewrite list_to_set_nonempty.
  destruct (nonempty captures || capture_only).
  - exists captures, (list_to_set captures). repeat split; try reflexivity.
    + intros Hx. apply list_elem_of_In. apply elem_of_list_to_set in Hx.
      assumption.
    + intros Hx. apply elem_of_list_to_set. apply list_elem_of_In.
      assumption.
  - destruct (for_fold_union (step_cond g row col) (step_to row col)
      (fun (acc : gset (Z * Z)) '(d_row, d_col) =>
         let new_row := row + d_row in
         let new_col := col + d_col in
         if Board.is_valid_position new_row new_col then
           tgt <- Board.get_piece (board g) new_row new_col ;;
           if truthy tgt then Returns acc
           else Returns (acc ∪ {[(new_row, new_col)]})
         else Returns acc) (directions p)) as (steps & Hst & Hfold2).
    { intros d _. destruct d as [d_row d_col].
      unfold step_cond, step_to. simpl fst. simpl snd.
      rewrite is_valid_position_spec.
      destruct (in_board (row + d_row) && in_board (col + d_col)) eqn:Hb;
        cbv beta iota zeta delta [negb].
      - apply andb_true_iff in Hb as [H1 H2]. apply in_board_spec in H1, H2.
        rewrite get_piece_on_board by assumption.
        destruct (grid_get_total (board g) (row + d_row) (col + d_col) Hwf)
          as [tgt ->]; [lia|lia|].
        exists (negb (truthy tgt)). split; [reflexivity|]. intros acc.
        destruct tgt; reflexivity.
      - exists false. split; reflexivity. }
    rewrite Hst, Hfold2. rewrite (left_id_L ∅ (∪)).
    exists steps, (list_to_set steps). repeat split; try reflexivity.
    + intros Hx. apply list_elem_of_In. apply elem_of_list_to_set in Hx.
      assumption.
    + intros Hx. apply elem_of_list_to_set. apply list_elem_of_In.
      assumption.
Qed.

Lemma move_generators_agree_witness :
  exists (l : list (Z * Z)) (s : gset (Z * Z)),
    _get_piece_moves in_chain 4 7 true = Returns l /\
    Board.get_valid_moves (board in_chain) 4 7 true = Returns s /\
    forall x, x ∈ s <-> In x l.
Proof.
  apply (move_generators_agree in_chain 4 7 (mkPiece black false) true).
  - split; [vm_compute; reflexivity|]. vm_compute. repeat constructor.
  - lia.
  - lia.
  - vm_compute. reflexivity.
  - vm_compute. reflexivity.
Defined.

(** * Further properties of the engine *)

(** ** Exceptions *)

Lemma getitem_8_out {A} (l : list A) i :
  length l = 8%nat -> ~ (-8 <= i < 8) -> getitem l i = Raises IndexError.
Proof.
  intros Hl Hi. unfold getitem. rewrite Hl.
  destruct (py_index 8 i) as [k|] eqn:Hk; [|reflexivity].
  destruct (Hi (py_index_8_inv _ _ Hk)).
Qed.

Lemma grid_get_out b row col :
  wf_grid b -> ~ (-8 <= row < 8 /\ -8 <= col < 8) ->
  grid_get b row col = Raises IndexError.
Proof.
  intros Hwf Hout. unfold grid_get.
  destruct (getitem b row) as [r|e] eqn:Hr.
  - apply getitem_8 in Hr as [Hrow Hr]; [|apply Hwf]. simpl.
    apply getitem_8_out; [eapply wf_grid_row; eauto|tauto].
  - simpl. destruct (decide (-8 <= row < 8)) as [Hrow|Hrow].
    + destruct (getitem_8_total b row (proj1 Hwf) Hrow) as [r Hr'].
      congruence.
    + rewrite (getitem_8_out b row (proj1 Hwf) Hrow) in Hr. congruence.
Qed.

Lemma select_piece_in_range row col g :
  wf_grid (board g) -> -8 <= row < 8 -> -8 <= col < 8 ->
  exists g' b, select_piece row col g = (g', Returns b).
Proof.
  intros Hwf Hrow Hcol. unfold select_piece.
  destruct (grid_get_total (board g) row col Hwf Hrow Hcol) as [piece Hp].
  erewrite bind_run by (unfold read; rewrite Hp; reflexivity).
  erewrite bind_run by reflexivity. cbv beta.
  destruct piece as [p|]; [|unfold ret; eauto].
  destruct (negb _); [unfold ret; eauto|].
  erewrite bind_run by reflexivity.
  destruct (must_capture g).
  - destruct (_get_piece_moves_total g row col true Hwf Hrow Hcol) as [l Hl].
    erewrite bind_run by (unfold read; rewrite Hl; reflexivity).
    destruct (negb _); [unfold ret; eauto|].
    unfold bind, assign, ret. eauto.
  - destruct (_get_piece_moves_total g row col false Hwf Hrow Hcol) as [l Hl].
    erewrite bind_run by (unfold read; rewrite Hl; reflexivity).
    unfold bind, assign, ret. eauto.
Qed.

Lemma select_piece_out_of_range row col g :
  wf_grid (board g) -> ~ (-8 <= row < 8 /\ -8 <= col < 8) ->
  select_piece row col g = (g, Raises IndexError).
Proof.
  intros Hwf Hout. unfold select_piece, bind, read.
  rewrite (grid_get_out (board g) row col Hwf Hout). reflexivity.
Qed.

(** X1.  In a reachable state, [select_piece] raises exactly on an index
    outside -8..7, and then it is [IndexError] with the game untouched; on
    every index from -8 to 7, negative ones included, it returns. *)
Theorem select_piece_raises_exactly_out_of_range
    (g : CheckersGame) (row col : Z) :
  reachable g ->
  (-8 <= row < 8 /\ -8 <= col < 8 ->
   exists g' b, select_piece row col g = (g', Returns b)) /\
  (~ (-8 <= row < 8 /\ -8 <= col < 8) ->
   select_piece row col g = (g, Raises IndexError)).
Proof.
  intros Hr. destruct (reachable_invariant g Hr) as (Hwf & _). split.
  - intros [Hrow Hcol]. apply select_piece_in_range; assumption.
  - apply select_piece_out_of_range; assumption.
Qed.

Lemma select_piece_raises_exactly_out_of_range_witness :
  (exists g' b, select_piece (-8) 7 after_wrap = (g', Returns b)) /\
  select_piece 3 (-9) after_wrap = (after_wrap, Raises IndexError).
Proof.
  destruct (select_piece_raises_exactly_out_of_range after_wrap (-8) 7
              after_wrap_reachable) as [Hin _].
  destruct (select_piece_raises_exactly_out_of_range after_wrap 3 (-9)
              after_wrap_reachable) as [_ Hout].
  split; [apply Hin; lia|apply Hout; lia].
Defined.

(** ** The selection in the reachable states *)

Lemma selection_sound_new : selection_sound new.
Proof. intros ? ? H. vm_compute in H. discriminate H. Qed.

Lemma selection_sound_chained g row col p moves co :
  grid_get (board g) row col = Returns (Some p) ->
  color p = current_player g ->
  _get_piece_moves g row col co = Returns moves ->
  selection_sound (chained g row col moves).
Proof.
  intros Hp Hc Hm old_row old_col [= <- <-]. exists p, co. auto.
Qed.

Lemma selection_sound_call c g g' b :
  perform c g = (g', Returns b) -> selection_sound g -> selection_sound g'.
Proof.
  intros H Hs. destruct c as [row col|row col]; simpl in H; destruct b.
  - apply select_piece_true_inv in H as (p & moves & Hp & Hc & Hm & _ & ->).
    eapply selection_sound_chained; eauto.
  - apply select_piece_false_same in H as ->. assumption.
  - apply make_move_true_inv in H
      as (old_row & old_col & g1 & ic & _ & _ & _ & Hcases).
    destruct Hcases as [(_ & moves & Hm & Hne & ->)|(_ & u & Hend)].
    + pose proof Hm as Hm'.
      apply _get_piece_moves_returns in Hm' as [[-> _]|(p & Hp & Hc & _)];
        [contradiction|].
      eapply selection_sound_chained; eauto.
    + apply _end_turn_returns in Hend as (over & _ & _ & Hnone & _).
      intros ? ? Hsome. congruence.
  - apply make_move_false_same in H as ->. assumption.
Qed.

Lemma reachable_selection_sound g : reachable g -> selection_sound g.
Proof.
  induction 1 as [|g c g' b _ IH H]; [apply selection_sound_new|].
  eapply selection_sound_call; eauto.
Qed.

Lemma store_total row col v g :
  wf_grid (board g) -> -8 <= row < 8 -> -8 <= col < 8 ->
  exists g', store row col v g = (g', Returns tt) /\ wf_grid (board g') /\
             same_but_board g g'.
Proof.
  intros Hwf Hrow Hcol. unfold store.
  destruct (grid_set_total (board g) row col v Hwf Hrow Hcol) as [b' Hb].
  rewrite Hb. eexists. split; [reflexivity|]. split.
  - apply grid_set_cell in Hb as (_ & _ & Hwf' & _); assumption.
  - repeat split.
Qed.

Lemma promote_total p row col g :
  wf_grid (board g) -> -8 <= row < 8 -> -8 <= col < 8 ->
  exists g', promote (Some p) row col g = (g', Returns tt).
Proof.
  intros Hwf Hrow Hcol. unfold promote. destruct (_ || _); [|unfold ret; eauto].
  destruct (grid_get_total (board g) row col Hwf Hrow Hcol) as [here Hh].
  erewrite bind_run by (unfold read; rewrite Hh; reflexivity).
  destruct here as [q|]; [|unfold ret; eauto].
  destruct (store_total row col (Some (mkPiece (color q) true)) g Hwf Hrow Hcol)
    as (g' & Hs & _). eauto.
Qed.

Lemma midpoint_range a b :
  -8 <= a < 8 -> 0 <= b < 8 -> -8 <= (b + a) / 2 < 8.
Proof.
  intros Ha Hb. split.
  - apply Z.div_le_lower_bound; lia.
  - apply Z.div_lt_upper_bound; lia.
Qed.

Lemma apply_move_total old_row old_col new_row new_col p g :
  wf_grid (board g) ->
  grid_get (board g) old_row old_col = Returns (Some p) ->
  0 <= new_row < 8 -> 0 <= new_col < 8 ->
  exists g1,
    apply_move old_row old_col new_row new_col g
      = (g1, Returns (Z.abs (new_row - old_row) =? 2)).
Proof.
  intros Hwf Hp Hrow Hcol.
  destruct (grid_get_raises _ _ _ _ Hwf Hp) as [Hor Hoc].
  unfold apply_move.
  erewrite bind_run by (unfold read; rewrite Hp; reflexivity).
  destruct (store_total new_row new_col (Some p) g Hwf) as (g1 & H1 & Hwf1 & _);
    [lia|lia|].
  erewrite bind_run by exact H1.
  destruct (store_total old_row old_col None g1 Hwf1 Hor Hoc)
    as (g2 & H2 & Hwf2 & _).
  erewrite bind_run by exact H2.
  assert (exists g3,
    (if Z.abs (new_row - old_row) =? 2
     then store ((new_row + old_row) / 2) ((new_col + old_col) / 2) None
     else ret tt) g2 = (g3, Returns tt) /\ wf_grid (board g3))
    as (g3 & H3 & Hwf3).
  { destruct (Z.abs _ =? 2).
    - destruct (store_total ((new_row + old_row) / 2)
                  ((new_col + old_col) / 2) None g2 Hwf2)
        as (g3 & H3 & Hwf3 & _); [apply midpoint_range; assumption ..|].
      eauto.
    - unfold ret. eauto. }
  erewrite bind_run by exact H3.
  destruct (promote_total p new_row new_col g3 Hwf3) as [g4 H4]; [lia|lia|].
  erewrite bind_run by exact H4. unfold ret. eauto.
Qed.

Lemma scan_for_captures_total g :
  wf_grid (board g) -> exists b, scan_for_captures g = Returns b.
Proof. intros Hwf. exact (scan_total true g Hwf). Qed.

Lemma is_game_over_total g :
  wf_grid (board g) -> exists b, is_game_over g = Returns b.
Proof.
  intros Hwf. destruct (scan_total false g Hwf) as [any Ha].
  exists (negb any).
  change (obind (for_any (fun row => for_any (scan_body false g row)
                                       (range 0 8)) (range 0 8))
                (fun found => Returns (negb found)) = Returns (negb any)).
  rewrite Ha. reflexivity.
Qed.

Lemma _end_turn_total g :
  wf_grid (board g) -> exists g', _end_turn g = (g', Returns tt).
Proof.
  intros Hwf. unfold _end_turn.
  erewrite bind_run by reflexivity.
  erewrite bind_run by reflexivity.
  erewrite bind_run by reflexivity.
  erewrite bind_run by reflexivity.
  set (g1 := set_valid_moves _ _).
  destruct (scan_for_captures_total g1 Hwf) as [found Hf].
  assert (_check_for_captures g1 = (set_must_capture g1 found, Returns found))
    as Hcheck.
  { unfold _check_for_captures.
    erewrite bind_run by (unfold read; rewrite Hf; reflexivity).
    reflexivity. }
  erewrite bind_run by exact Hcheck.
  destruct (is_game_over_total (set_must_capture g1 found) Hwf) as [over Ho].
  erewrite bind_run by (unfold read; rewrite Ho; reflexivity).
  destruct over; unfold bind, attr, assign, ret; eauto.
Qed.

Lemma make_move_returns g row col :
  invariant g -> selection_sound g ->
  exists g' b, make_move row col g = (g', Returns b).
Proof.
  intros (Hwf & Hd & Hok) Hsound.
  unfold make_move.
  erewrite bind_run by reflexivity. erewrite bind_run by reflexivity.
  destruct (selected_piece g) as [[old_row old_col]|] eqn:Hsel;
    [|unfold ret; eauto].
  destruct (py_in (row, col) (valid_moves g)) eqn:Hin;
    cbv beta iota delta [negb]; [|unfold ret; eauto].
  apply py_in_In in Hin.
  destruct (Hok _ _ _ _ Hsel Hin) as (Hrow & Hcol & Hstep).
  destruct (Hsound _ _ Hsel) as (p & co & Hp & _ & _).
  destruct (apply_move_total old_row old_col row col p g Hwf Hp Hrow Hcol)
    as [g1 Happ].
  erewrite bind_run by exact Happ.
  destruct (apply_move_invariant _ _ _ _ _ _ _ Hwf Hd
              (conj Hrow (conj Hcol Hstep)) Happ) as [Hwf1 _].
  destruct (_get_piece_moves_total g1 row col true Hwf1) as [l Hl];
    [lia|lia|].
  assert (exists cont,
    (if Z.abs (row - old_row) =? 2
     then read (fun g0 => _can_continue_capture g0 row col)
     else ret false) g1 = (g1, Returns cont)) as [cont Hcont].
  { destruct (Z.abs _ =? 2); [|unfold ret; eauto].
    unfold read, _can_continue_capture. rewrite Hl. simpl. eauto. }
  erewrite bind_run by exact Hcont.
  destruct cont.
  - erewrite bind_run by reflexivity.
    erewrite bind_run
      by (unfold read;
          change (_get_piece_moves
                    (set_selected_piece g1 (Some (row, col))) row col true)
            with (_get_piece_moves g1 row col true);
          rewrite Hl; reflexivity).
    unfold bind, assign, ret. eauto.
  - destruct (_end_turn_total g1 Hwf1) as [g2 Hend].
    erewrite bind_run by exact Hend. unfold ret. eauto.
Qed.


(** X2.  In a reachable state, whatever the calls and indices that led to
    it, [make_move] returns for every pair of integers: it has no exception
    path there. *)
Theorem make_move_never_raises (g : CheckersGame) (row col : Z) :
  reachable g ->
  exists g' b, make_move row col g = (g', Returns b).
Proof.
  intros Hr. apply make_move_returns.
  - apply reachable_invariant. assumption.
  - apply reachable_selection_sound. assumption.
Qed.

Lemma make_move_never_raises_witness :
  exists g' b, make_move (-3) 100 after_wrap = (g', Returns b).
Proof.
  apply (make_move_never_raises after_wrap (-3) 100).
  exact after_wrap_reachable.
Defined.

(** ** What [_get_piece_moves] offers *)

Lemma directions_allowed p d : In d (directions p) <-> allowed_direction p d.
Proof.
  unfold directions, allowed_direction.
  destruct p as [[|] [|]], d as [d_row d_col]; simpl; split;
    intros H; intuition (try congruence; try lia);
    repeat match goal with
           | H : (_, _) = (_, _) |- _ => injection H as <- <-
           end; try lia; try (left; split; [lia|auto]; fail);
    try (right; split; [lia|auto]; fail);
    subst; auto 10.
Qed.

Lemma capture_cond_can_jump g p row col d :
  capture_cond g p row col d = Returns true <-> can_jump g p row col d.
Proof.
  unfold capture_cond, can_jump. destruct d as [d_row d_col]. simpl. split.
  - destruct (in_board _ && in_board _) eqn:Hb; simpl; [|discriminate].
    apply andb_true_iff in Hb as [H1 H2]. apply in_board_spec in H1, H2.
    intros H. apply obind_returns in H as ([m|] & Hm & H); [|discriminate].
    destruct (color_eqb (color m) (color p)) eqn:Hc; [discriminate|].
    apply obind_returns in H as (tgt & Ht & H).
    destruct tgt; [discriminate|].
    split; [assumption|]. split; [assumption|]. split; [|assumption].
    exists m. split; [assumption|]. intros Heq.
    apply color_eqb_eq in Heq. congruence.
  - intros (H1 & H2 & (m & Hm & Hc) & Ht).
    rewrite (proj2 (in_board_spec _) H1), (proj2 (in_board_spec _) H2).
    simpl. rewrite Hm. simpl.
    destruct (color_eqb (color m) (color p)) eqn:Heq.
    + apply color_eqb_eq in Heq. contradiction.
    + rewrite Ht. reflexivity.
Qed.

Lemma step_cond_can_step g row col d :
  step_cond g row col d = Returns true <-> can_step g row col d.
Proof.
  unfold step_cond, can_step. destruct d as [d_row d_col]. simpl. split.
  - destruct (in_board _ && in_board _) eqn:Hb; simpl; [|discriminate].
    apply andb_true_iff in Hb as [H1 H2]. apply in_board_spec in H1, H2.
    intros H. apply obind_returns in H as (tgt & Ht & H).
    destruct tgt; [discriminate|]. auto.
  - intros (H1 & H2 & Ht).
    rewrite (proj2 (in_board_spec _) H1), (proj2 (in_board_spec _) H2).
    simpl. rewrite Ht. reflexivity.
Qed.

(** X3.  For a piece of the player to move, the destinations that
    [_get_piece_moves] returns with [capture_only] are exactly the squares
    two steps away in a direction open to the piece, on the board and empty,
    with a piece of the other colour on the square in between. *)
Theorem captures_offered_are_the_jumps
    (g : CheckersGame) (row col : Z) (p : Piece) (l : list (Z * Z)) :
  grid_get (board g) row col = Returns (Some p) ->
  color p = current_player g ->
  _get_piece_moves g row col true = Returns l ->
  forall new_row new_col,
    In (new_row, new_col) l <->
    exists d, allowed_direction p d /\
              new_row = row + fst d * 2 /\ new_col = col + snd d * 2 /\
              can_jump g p row col d.
Proof.
  intros Hp Hc H new_row new_col.
  rewrite (_get_piece_moves_own g row col p true Hp Hc) in H.
  apply moves_along_returns in H as (captures & Hcap & [[_ ->]|(_ & [=] & _)]).
  apply for_append_returns in Hcap as [_ Hcap]. rewrite Hcap. split.
  - intros (d & Hd & Hcond & Heq). unfold jump_to in Heq.
    injection Heq as -> ->. exists d.
    split; [apply directions_allowed; assumption|].
    split; [reflexivity|]. split; [reflexivity|].
    apply capture_cond_can_jump. assumption.
  - intros (d & Hd & -> & -> & Hj). exists d.
    split; [apply directions_allowed; assumption|].
    split; [apply capture_cond_can_jump; assumption|reflexivity].
Qed.

Lemma captures_offered_are_the_jumps_witness :
  In (6, 5) [(6, 5)] <->
  exists d, allowed_direction (mkPiece black false) d /\
            6 = 4 + fst d * 2 /\ 5 = 3 + snd d * 2 /\
            can_jump in_chain (mkPiece black false) 4 3 d.
Proof.
  apply (captures_offered_are_the_jumps in_chain 4 3 (mkPiece black false)
           [(6, 5)]).
  - vm_compute. reflexivity.
  - vm_compute. reflexivity.
  - vm_compute. reflexivity.
Defined.

(** X4.  Captures come first for each piece: without [capture_only],
    [_get_piece_moves] returns the captures of the piece when it has one,
    and only when it has none the single steps, in a direction open to the
    piece, onto an empty square of the board. *)
Theorem captures_take_precedence
    (g : CheckersGame) (row col : Z) (p : Piece) (l captures : list (Z * Z)) :
  grid_get (board g) row col = Returns (Some p) ->
  color p = current_player g ->
  _get_piece_moves g row col false = Returns l ->
  _get_piece_moves g row col true = Returns captures ->
  (captures <> [] -> l = captures) /\
  (captures = [] ->
   forall new_row new_col,
     In (new_row, new_col) l <->
     exists d, allowed_direction p d /\
               new_row = row + fst d /\ new_col = col + snd d /\
               can_step g row col d).
Proof.
  intros Hp Hc Hl Hcap.
  rewrite (_get_piece_moves_own g row col p false Hp Hc) in Hl.
  rewrite (_get_piece_moves_own g row col p true Hp Hc) in Hcap.
  apply moves_along_returns in Hcap
    as (caps & Hcaps & [[_ ->]|(_ & [=] & _)]).
  apply moves_along_returns in Hl as (caps' & Hcaps' & Hl).
  assert (caps' = caps) as -> by congruence.
  destruct Hl as [[Hne ->]|(-> & _ & Hsteps)].
  - rewrite orb_false_r in Hne. apply nonempty_true in Hne.
    split; [reflexivity|]. intros ->. contradiction.
  - split; [intros Hne; contradiction|]. intros _ new_row new_col.
    apply for_append_returns in Hsteps as [_ Hsteps]. rewrite Hsteps. split.
    + intros (d & Hd & Hcond & Heq). unfold step_to in Heq.
      injection Heq as -> ->. exists d.
      split; [apply directions_allowed; assumption|].
      split; [reflexivity|]. split; [reflexivity|].
      apply step_cond_can_step. assumption.
    + intros (d & Hd & -> & -> & Hs). exists d.
      split; [apply directions_allowed; assumption|].
      split; [apply step_cond_can_step; assumption|reflexivity].
Qed.

Lemma captures_take_precedence_witness :
  (([] : list (Z * Z)) <> [] -> [(4, 1)] = []) /\
  (([] : list (Z * Z)) = [] ->
   forall new_row new_col,
     In (new_row, new_col) [(4, 1)] <->
     exists d, allowed_direction (mkPiece red false) d /\
               new_row = 5 + fst d /\ new_col = 0 + snd d /\
               can_step new 5 0 d).
Proof.
  apply (captures_take_precedence new 5 0 (mkPiece red false) [(4, 1)] []).
  - vm_compute. reflexivity.
  - vm_compute. reflexivity.
  - vm_compute. reflexivity.
  - vm_compute. reflexivity.
Defined.

(** ** The effect of an accepted move *)

Lemma pos8_eq a b : pos8 a = pos8 b -> a mod 8 = b mod 8.
Proof.
  unfold pos8. intros H. apply Z2Nat.inj in H; [assumption| |];
    apply Z.mod_pos_bound; lia.
Qed.

Lemma pos8_far a b :
  Z.abs (a - b) = 1 \/ Z.abs (a - b) = 2 -> pos8 a <> pos8 b.
Proof.
  intros Hab H. apply pos8_eq in H.
  revert H. Z.div_mod_to_equations. lia.
Qed.

Lemma pos8_mid_new a b :
  Z.abs (a - b) = 2 -> pos8 ((a + b) / 2) <> pos8 a.
Proof.
  intros Hab H. apply pos8_eq in H.
  revert H. Z.div_mod_to_equations. lia.
Qed.

Lemma pos8_mid_old a b :
  Z.abs (a - b) = 2 -> pos8 ((a + b) / 2) <> pos8 b.
Proof.
  intros Hab H. apply pos8_eq in H.
  revert H. Z.div_mod_to_equations. lia.
Qed.

Lemma pos8_mod a : pos8 (a mod 8) = pos8 a.
Proof. unfold pos8. rewrite Z.mod_mod by lia. reflexivity. Qed.

(** What a destination offered by [_get_piece_moves] is. *)
Lemma destination_facts g row col p co l new_row new_col :
  grid_get (board g) row col = Returns (Some p) ->
  color p = current_player g ->
  _get_piece_moves g row col co = Returns l ->
  In (new_row, new_col) l ->
  grid_get (board g) new_row new_col = Returns None /\
  (Z.abs (new_row - row) = 2 ->
   exists m,
     grid_get (board g) ((new_row + row) / 2) ((new_col + col) / 2)
       = Returns (Some m) /\ color m <> color p).
Proof.
  intros Hp Hc H Hin.
  rewrite (_get_piece_moves_own g row col p co Hp Hc) in H.
  apply moves_along_returns in H as (captures & Hcap & [[_ ->]|(_ & _ & Hs)]).
  - apply for_append_returns in Hcap as [_ Hcap].
    apply Hcap in Hin as (d & Hd & Hcond & Heq).
    unfold jump_to in Heq. injection Heq as -> ->.
    apply capture_cond_can_jump in Hcond as (_ & _ & (m & Hm & Hcm) & Hnone).
    split; [assumption|]. intros _. exists m.
    replace (row + fst d * 2 + row) with ((row + fst d) * 2) by lia.
    replace (col + snd d * 2 + col) with ((col + snd d) * 2) by lia.
    rewrite !Z.div_mul by lia. auto.
  - apply for_append_returns in Hs as [_ Hs].
    apply Hs in Hin as (d & Hd & Hcond & Heq).
    unfold step_to in Heq. injection Heq as -> ->.
    apply directions_four in Hd. pose proof Hcond as Hcond'.
    apply step_cond_can_step in Hcond as (_ & _ & Hnone).
    apply step_cond_true in Hcond' as [H1 H2].
    destruct (step_diagonal row col d Hd H1 H2) as [_ Hone].
    split; [assumption|]. lia.
Qed.

(** X5.  The board after an accepted move, from any reachable state.  The
    selected square held a piece of the player to move and the destination
    was empty; afterwards the selected square is empty and the destination
    holds that piece, with its colour, crowned if it is red and reaches row 0
    or black and reaches row 7, and otherwise with the rank it had.  After a
    two-square move the square in between held a piece of the other colour
    and is empty.  Every other square of the board is as it was. *)
Theorem accepted_move_effect (g g' : CheckersGame) (row col : Z) :
  reachable g ->
  make_move row col g = (g', Returns true) ->
  exists old_row old_col p,
    selected_piece g = Some (old_row, old_col) /\
    grid_get (board g) old_row old_col = Returns (Some p) /\
    color p = current_player g /\
    grid_get (board g) row col = Returns None /\
    grid_get (board g') old_row old_col = Returns None /\
    (exists q,
       grid_get (board g') row col = Returns (Some q) /\
       color q = color p /\
       king q = king p || ((color_eqb (color p) red && (row =? 0))
                           || (color_eqb (color p) black && (row =? 7)))) /\
    (Z.abs (row - old_row) = 2 ->
     exists m,
       grid_get (board g) ((row + old_row) / 2) ((col + old_col) / 2)
         = Returns (Some m) /\
       color m <> color p /\
       grid_get (board g') ((row + old_row) / 2) ((col + old_col) / 2)
         = Returns None) /\
    (forall r c,
       0 <= r < 8 -> 0 <= c < 8 ->
       (r, c) <> (row, col) ->
       (r, c) <> (old_row mod 8, old_col mod 8) ->
       (Z.abs (row - old_row) = 2 ->
        (r, c) <> (((row + old_row) / 2) mod 8, ((col + old_col) / 2) mod 8)) ->
       grid_get (board g') r c = grid_get (board g) r c).
Proof.
  intros Hr H. destruct (reachable_invariant g Hr) as (Hwf & Hd & Hok).
  pose proof (reachable_selection_sound g Hr) as Hsound.
  apply make_move_true_inv in H
    as (old_row & old_col & g1 & ic & Hsel & Hin & Happ & Hcases).
  apply py_in_In in Hin.
  destruct (Hok _ _ _ _ Hsel Hin) as (Hrow & Hcol & Habs & Hstep).
  destruct (Hsound _ _ Hsel) as (p & co & Hp & Hc & Hvalid).
  destruct (destination_facts g old_row old_col p co _ row col Hp Hc Hvalid
              Hin) as [Hempty Hmid].
  destruct (apply_move_frame _ _ _ _ _ _ _ Happ) as [_ Hic].
  apply apply_move_cells in Happ as (p' & Hp' & Hwf1 & _ & _ & Hcell);
    [|assumption].
  assert (p' = p) as -> by congruence.
  assert (board g' = board g1) as Hb.
  { destruct Hcases as [(_ & moves & _ & _ & ->)|(_ & u & Hend)];
      [reflexivity|].
    apply _end_turn_returns in Hend as (over & _ & Hb & _). exact Hb. }
  rewrite Hb.
  destruct (grid_get_raises _ _ _ _ Hwf Hp) as [Hor Hoc].
  assert (ic = true <-> Z.abs (row - old_row) = 2) as Hjump.
  { rewrite Hic. apply Z.eqb_eq. }
  exists old_row, old_col, p.
  split; [assumption|]. split; [assumption|]. split; [assumption|].
  split; [assumption|]. split; [|split; [|split]].
  - apply grid_get_cell; [assumption|]. split; [assumption|].
    split; [assumption|]. rewrite Hcell.
    destruct (decide _); [reflexivity|].
    rewrite decide_True by auto. reflexivity.
  - exists (promoted p row). split; [|split].
    + apply grid_get_cell; [assumption|]. split; [lia|]. split; [lia|].
      rewrite Hcell.
      rewrite decide_False.
      2:{ intros (Hi & Hm & _). apply Hjump in Hi.
          symmetry in Hm. revert Hm. apply pos8_mid_new. assumption. }
      rewrite decide_False.
      2:{ intros [Hm _]. symmetry in Hm. revert Hm.
          apply pos8_far. rewrite <- Z.abs_opp.
          replace (- (old_row - row)) with (row - old_row) by lia.
          assumption. }
      rewrite decide_True by auto. reflexivity.
    + apply promoted_color.
    + unfold promoted. destruct (_ || _); simpl.
      * rewrite orb_true_r. reflexivity.
      * rewrite orb_false_r. reflexivity.
  - intros H2. destruct (Hmid H2) as (m & Hm & Hcm). exists m.
    split; [assumption|]. split; [assumption|].
    destruct (grid_get_raises _ _ _ _ Hwf Hm) as [Hmr Hmc].
    apply grid_get_cell; [assumption|]. split; [assumption|].
    split; [assumption|]. rewrite Hcell.
    rewrite decide_True; [reflexivity|]. split; [|auto]. apply Hjump.
    assumption.
  - intros r c Hr8 Hc8 Hnew Hold Hmidne.
    destruct (grid_get_total (board g1) r c Hwf1) as [v Hv]; [lia|lia|].
    rewrite Hv. symmetry.
    apply grid_get_cell in Hv as (_ & _ & Hv); [|assumption].
    apply grid_get_cell; [assumption|]. split; [lia|]. split; [lia|].
    rewrite Hcell in Hv.
    rewrite decide_False in Hv.
    2:{ intros (Hi & Hm1 & Hm2). apply Hjump in Hi. apply (Hmidne Hi).
        apply pos8_eq in Hm1, Hm2.
        rewrite (Z.mod_small r), (Z.mod_small c) in * by lia.
        congruence. }
    rewrite decide_False in Hv.
    2:{ intros [Hm1 Hm2]. apply Hold. apply pos8_eq in Hm1, Hm2.
        rewrite (Z.mod_small r), (Z.mod_small c) in * by lia.
        congruence. }
    rewrite decide_False in Hv.
    2:{ intros [Hm1 Hm2]. apply Hnew. apply pos8_eq in Hm1, Hm2.
        rewrite !Z.mod_small in * by lia. congruence. }
    assumption.
Qed.

Lemma accepted_move_effect_witness :
  exists old_row old_col p,
    selected_piece before_chain = Some (old_row, old_col) /\
    grid_get (board before_chain) old_row old_col = Returns (Some p) /\
    color p = current_player before_chain /\
    grid_get (board before_chain) 4 3 = Returns None /\
    grid_get (board in_chain) old_row old_col = Returns None /\
    (exists q,
       grid_get (board in_chain) 4 3 = Returns (Some q) /\
       color q = color p /\
       king q = king p || ((color_eqb (color p) red && (4 =? 0))
                           || (color_eqb (color p) black && (4 =? 7)))) /\
    (Z.abs (4 - old_row) = 2 ->
     exists m,
       grid_get (board before_chain) ((4 + old_row) / 2) ((3 + old_col) / 2)
         = Returns (Some m) /\
       color m <> color p /\
       grid_get (board in_chain) ((4 + old_row) / 2) ((3 + old_col) / 2)
         = Returns None) /\
    (forall r c,
       0 <= r < 8 -> 0 <= c < 8 ->
       (r, c) <> (4, 3) ->
       (r, c) <> (old_row mod 8, old_col mod 8) ->
       (Z.abs (4 - old_row) = 2 ->
        (r, c) <> (((4 + old_row) / 2) mod 8, ((3 + old_col) / 2) mod 8)) ->
       grid_get (board in_chain) r c = grid_get (board before_chain) r c).
Proof.
  apply (accepted_move_effect before_chain in_chain 4 3).
  - apply reachable_on_board_reachable. exact before_chain_reachable.
  - vm_compute. reflexivity.
Defined.

(** ** The flags in play on the board *)

(** X6.  In play on the board, the forced-capture flag is accurate in every
    state, in the middle of a chain too: [must_capture] is [True] exactly
    when a piece of the player to move has a capture; and a selection is a
    square of the board whose legal destinations are those
    [_get_piece_moves] gives under that flag. *)
Theorem capture_flag_accurate_on_board (g : CheckersGame) :
  reachable_on_board g ->
  (must_capture g = true <-> has_destination true g) /\
  (forall old_row old_col,
     selected_piece g = Some (old_row, old_col) ->
     0 <= old_row < 8 /\ 0 <= old_col < 8 /\
     _get_piece_moves g old_row old_col (must_capture g)
       = Returns (valid_moves g)).
Proof.
  intros Hr. destruct (reachable_on_board_ok g Hr) as [(Hwf & _) [Hscan Hsel]].
  split; [|exact Hsel]. split.
  - intros Hm. apply scan_for_captures_true. rewrite Hscan, Hm. reflexivity.
  - intros Hhas. rewrite (scan_for_captures_has g Hwf Hhas) in Hscan.
    congruence.
Qed.

Lemma capture_flag_accurate_on_board_witness :
  must_capture in_chain = true <-> has_destination true in_chain.
Proof.
  apply (capture_flag_accurate_on_board in_chain).
  apply (reach_ob_call before_chain (Move 4 3) in_chain true).
  - exact before_chain_reachable.
  - simpl. lia.
  - vm_compute. reflexivity.
Defined.

(** X7.  In play on the board, [select_piece] refuses a piece that has no
    capture whenever some piece of the player to move has one: it returns
    [False] and changes nothing. *)
Theorem forced_capture_enforced_on_board
    (g : CheckersGame) (row col : Z) (p : Piece) :
  reachable_on_board g ->
  has_destination true g ->
  grid_get (board g) row col = Returns (Some p) ->
  color p = current_player g ->
  _get_piece_moves g row col true = Returns [] ->
  select_piece row col g = (g, Returns false).
Proof. apply forced_capture_on_board. Qed.

Lemma forced_capture_enforced_on_board_witness :
  select_piece 0 1 in_chain = (in_chain, Returns false).
Proof.
  apply (forced_capture_enforced_on_board in_chain 0 1 (mkPiece black false)).
  - apply (reach_ob_call before_chain (Move 4 3) in_chain true).
    + exact before_chain_reachable.
    + simpl. lia.
    + vm_compute. reflexivity.
  - apply scan_for_captures_true. vm_compute. reflexivity.
  - vm_compute. reflexivity.
  - vm_compute. reflexivity.
  - vm_compute. reflexivity.
Defined.

(** X8.  After any accepted move, in any state: either the same player is
    to move, the selection is on the destination with a non-empty list of
    legal destinations, and the forced-capture flag and the winner are
    untouched; or the other player is to move, nothing is selected, the list
    of legal destinations is empty and the forced-capture flag has been
    recomputed: it is [True] exactly when a piece of the new player has a
    capture. *)
Theorem accepted_move_continues_or_passes
    (g g' : CheckersGame) (row col : Z) :
  make_move row col g = (g', Returns true) ->
  (current_player g' = current_player g /\
   selected_piece g' = Some (row, col) /\
   valid_moves g' <> [] /\
   must_capture g' = must_capture g /\
   winner g' = winner g) \/
  (current_player g' = other (current_player g) /\
   selected_piece g' = None /\
   valid_moves g' = [] /\
   (must_capture g' = true <-> has_destination true g')).
Proof.
  intros H.
  apply make_move_true_inv in H
    as (old_row & old_col & g1 & ic & _ & _ & Happ & Hcases).
  destruct (apply_move_frame _ _ _ _ _ _ _ Happ)
    as [(Hp & _ & _ & Hm & Hw) _].
  destruct Hcases as [(_ & moves & _ & Hne & ->)|(_ & u & Hend)].
  - left. simpl. auto.
  - right. apply _end_turn_returns in Hend
      as (over & Hp' & _ & Hnone & Hnil & Hscan & _).
    split; [congruence|]. split; [assumption|]. split; [assumption|]. split.
    + intros Hm'. apply scan_for_captures_true. rewrite Hscan, Hm'.
      reflexivity.
    + intros Hhas. destruct (must_capture g') eqn:Hm'; [reflexivity|].
      destruct (destination_exclusive _ _ Hhas
                  (scan_for_captures_false _ Hscan)).
Qed.

Lemma accepted_move_continues_or_passes_witness :
  (current_player in_chain = current_player before_chain /\
   selected_piece in_chain = Some (4, 3) /\
   valid_moves in_chain <> [] /\
   must_capture in_chain = must_capture before_chain /\
   winner in_chain = winner before_chain) \/
  (current_player in_chain = other (current_player before_chain) /\
   selected_piece in_chain = None /\
   valid_moves in_chain = [] /\
   (must_capture in_chain = true <-> has_destination true in_chain)).
Proof.
  apply (accepted_move_continues_or_passes before_chain in_chain 4 3).
  vm_compute. reflexivity.
Defined.

(** ** The winner in play on the board *)

Lemma captures_are_moves g row col l :
  _get_piece_moves g row col true = Returns l -> l <> [] ->
  _get_piece_moves g row col false = Returns l.
Proof.
  intros H Hne. pose proof H as H'.
  apply _get_piece_moves_returns in H' as [[-> _]|(p & Hp & Hc & H')];
    [contradiction|].
  rewrite (_get_piece_moves_own g row col p false Hp Hc).
  apply moves_along_returns in H' as (caps & Hcaps & [[_ ->]|(_ & [=] & _)]).
  unfold moves_along. rewrite Hcaps. simpl.
  rewrite (proj2 (nonempty_true caps) Hne). reflexivity.
Qed.

Lemma own_piece_of_moves g row col co l :
  _get_piece_moves g row col co = Returns l -> l <> [] ->
  exists p, grid_get (board g) row col = Returns (Some p) /\
            color p = current_player g.
Proof.
  intros H Hne.
  apply _get_piece_moves_returns in H as [[-> _]|(p & Hp & Hc & _)];
    [contradiction|eauto].
Qed.

(** A state of play on the board in which a move is accepted is not over. *)
Lemma accepted_move_not_over g row col g' :
  invariant g -> capture_flag_ok g ->
  make_move row col g = (g', Returns true) ->
  has_destination false g.
Proof.
  intros Hinv [_ Hsel] H.
  apply make_move_true_inv in H
    as (old_row & old_col & _ & _ & Hs & Hin & _).
  apply py_in_In in Hin.
  destruct (Hsel _ _ Hs) as (Hor & Hoc & Hvalid).
  assert (valid_moves g <> []) as Hne by (intros Hnil; rewrite Hnil in Hin;
                                          contradiction).
  destruct (own_piece_of_moves _ _ _ _ _ Hvalid Hne) as (p & Hp & Hc).
  exists old_row, old_col, p, (valid_moves g).
  repeat split; try assumption; try lia.
  destruct (must_capture g); [|assumption].
  apply captures_are_moves; assumption.
Qed.

Lemma is_game_over_has g :
  wf_grid (board g) -> has_destination false g ->
  is_game_over g = Returns false.
Proof.
  intros Hwf Hhas. destruct (is_game_over_total g Hwf) as [[|] Hb].
  - destruct (destination_exclusive _ _ Hhas (is_game_over_true _ Hb)).
  - exact Hb.
Qed.

Lemma winner_ok_new : winner_ok new.
Proof. right. split; vm_compute; reflexivity. Qed.

Lemma winner_ok_call c g g' b :
  on_board c -> invariant g -> capture_flag_ok g ->
  perform c g = (g', Returns b) -> winner_ok g -> winner_ok g'.
Proof.
  intros Hc Hinv Hflag H Hw.
  destruct c as [row col|row col]; simpl in H; destruct b.
  - apply select_piece_true_inv in H as (_ & moves & _ & _ & _ & _ & ->).
    exact Hw.
  - apply select_piece_false_same in H as ->. exact Hw.
  - pose proof (accepted_move_not_over _ _ _ _ Hinv Hflag H) as Hhas.
    assert (winner g = None) as Hnone.
    { destruct Hw as [[Hover _]|[_ Hnone]]; [|assumption].
      destruct (destination_exclusive _ _ Hhas (is_game_over_true _ Hover)). }
    pose proof (invariant_move _ _ _ _ _ Hinv H) as (Hwf' & _).
    apply make_move_true_inv in H
      as (old_row & old_col & g1 & ic & _ & _ & Happ & Hcases).
    destruct (apply_move_frame _ _ _ _ _ _ _ Happ)
      as [(Hp1 & _ & _ & _ & Hw1) _].
    destruct Hcases as [(_ & moves & Hm & Hne & ->)|(_ & u & Hend)].
    + right. split; [|simpl; congruence].
      apply is_game_over_has; [exact Hwf'|].
      destruct (own_piece_of_moves _ _ _ _ _ Hm Hne) as (p & Hp & Hcp).
      destruct Hinv as (Hwf & Hd & Hok).
      exists row, col, p, moves. simpl in Hc.
      repeat split; try assumption; try lia.
      apply captures_are_moves; assumption.
    + apply _end_turn_returns in Hend
        as (over & Hp' & _ & _ & _ & _ & Hover & Hwin).
      destruct over.
      * left. split; [assumption|]. rewrite Hwin, Hp', other_other.
        reflexivity.
      * right. split; [assumption|]. congruence.
  - apply make_move_false_same in H as ->. exact Hw.
Qed.

Lemma reachable_on_board_winner_ok g : reachable_on_board g -> winner_ok g.
Proof.
  induction 1 as [|g c g' b Hg IH Hc H]; [apply winner_ok_new|].
  destruct (reachable_on_board_ok g Hg) as [Hinv Hflag].
  eapply winner_ok_call; eauto.
Qed.

(** X9.  In play on the board, [winner] is set exactly when the game is
    over: either [is_game_over] returns [True] and [winner] is the opponent
    of the player to move, or [is_game_over] returns [False] and [winner] is
    [None]. *)
Theorem winner_set_exactly_when_over (g : CheckersGame) :
  reachable_on_board g ->
  (is_game_over g = Returns true /\
   winner g = Some (other (current_player g))) \/
  (is_game_over g = Returns false /\ winner g = None).
Proof. apply reachable_on_board_winner_ok. Qed.

Lemma winner_set_exactly_when_over_witness :
  (is_game_over in_chain = Returns true /\
   winner in_chain = Some (other (current_player in_chain))) \/
  (is_game_over in_chain = Returns false /\ winner in_chain = None).
Proof.
  apply (winner_set_exactly_when_over in_chain).
  apply (reach_ob_call before_chain (Move 4 3) in_chain true).
  - exact before_chain_reachable.
  - simpl. lia.
  - vm_compute. reflexivity.
Defined.

(** X10.  In play on the board, a finished game stays finished: once the
    player to move has no destination, every [make_move] returns [False] and
    changes nothing. *)
Theorem no_move_once_over (g : CheckersGame) (row col : Z) :
  reachable_on_board g ->
  is_game_over g = Returns true ->
  make_move row col g = (g, Returns false).
Proof.
  intros Hr Hover. destruct (reachable_on_board_ok g Hr) as [Hinv Hflag].
  destruct (make_move_returns g row col Hinv) as (g' & b & H).
  { apply reachable_selection_sound. apply reachable_on_board_reachable.
    assumption. }
  destruct b.
  - pose proof (accepted_move_not_over _ _ _ _ Hinv Hflag H) as Hhas.
    destruct (destination_exclusive _ _ Hhas (is_game_over_true _ Hover)).
  - pose proof (make_move_false_same _ _ _ _ H) as ->. exact H.
Qed.

(** * [board.py] and [piece.py] *)

(** ** Bounds *)

(** X11.  [Board.get_piece] is safe on every pair of integers: on a grid of
    eight rows of eight squares it never raises, and off the board it
    returns [None]; on the board it returns what the square holds. *)
Theorem get_piece_is_bounds_safe (squares : Grid) (row col : Z) :
  wf_grid squares ->
  exists v,
    Board.get_piece squares row col = Returns v /\
    (0 <= row < 8 /\ 0 <= col < 8 -> grid_get squares row col = Returns v) /\
    (~ (0 <= row < 8 /\ 0 <= col < 8) -> v = None).
Proof.
  intros Hwf. destruct (decide (0 <= row < 8 /\ 0 <= col < 8)) as [[Hr Hc]|Hout].
  - destruct (grid_get_total squares row col Hwf) as [v Hv]; [lia|lia|].
    exists v. rewrite get_piece_on_board by assumption.
    split; [assumption|]. split; [auto|]. intros Hn. destruct Hn. auto.
  - exists None. rewrite get_piece_off_board by assumption.
    split; [reflexivity|]. split; [intros Hin; contradiction|reflexivity].
Qed.

Lemma get_piece_is_bounds_safe_witness :
  exists v,
    Board.get_piece (board new) (-1) 8 = Returns v /\
    (0 <= -1 < 8 /\ 0 <= 8 < 8 -> grid_get (board new) (-1) 8 = Returns v) /\
    (~ (0 <= -1 < 8 /\ 0 <= 8 < 8) -> v = None).
Proof.
  apply (get_piece_is_bounds_safe (board new) (-1) 8).
  split; [vm_compute; reflexivity|]. vm_compute. repeat constructor.
Defined.

Lemma is_valid_position_true row col :
  Board.is_valid_position row col = true <-> 0 <= row < 8 /\ 0 <= col < 8.
Proof.
  rewrite is_valid_position_spec, andb_true_iff, !in_board_spec. tauto.
Qed.

(** X12.  [Board.move_piece] never raises on a grid of eight rows of eight
    squares, whatever the positions; when one of the two positions is off
    the board, or the origin is empty, it returns [None] and leaves the
    squares as they are. *)
Theorem move_piece_is_bounds_safe
    (squares : Grid) (from_row from_col to_row to_col : Z) :
  wf_grid squares ->
  exists squares' r,
    Board.move_piece squares (from_row, from_col) (to_row, to_col)
      = (squares', Returns r) /\
    wf_grid squares' /\
    (~ ((0 <= from_row < 8 /\ 0 <= from_col < 8)
        /\ (0 <= to_row < 8 /\ 0 <= to_col < 8))
     \/ grid_get squares from_row from_col = Returns None ->
     squares' = squares /\ r = None).
Proof.
  intros Hwf. unfold Board.move_piece.
  destruct (Board.is_valid_position from_row from_col
            && Board.is_valid_position to_row to_col) eqn:Hv;
    cbv beta iota delta [negb].
  - apply andb_true_iff in Hv as [Hf Ht].
    apply is_valid_position_true in Hf as [Hfr Hfc], Ht as [Htr Htc].
    destruct (grid_get_total squares from_row from_col Hwf) as [piece Hp];
      [lia|lia|].
    rewrite Hp. destruct piece as [p|]; cbv beta iota delta [negb truthy].
    + destruct (grid_set_total squares to_row to_col (Some p) Hwf)
        as [s1 Hs1]; [lia|lia|].
      rewrite Hs1.
      pose proof (grid_set_cell _ _ _ _ _ Hwf Hs1) as (_ & _ & Hwf1 & _).
      destruct (grid_set_total s1 from_row from_col None Hwf1)
        as [s2 Hs2]; [lia|lia|].
      rewrite Hs2.
      pose proof (grid_set_cell _ _ _ _ _ Hwf1 Hs2) as (_ & _ & Hwf2 & _).
      destruct (Z.abs (to_row - from_row) =? 2).
      * destruct (grid_set_total s2 ((to_row + from_row) / 2)
                    ((to_col + from_col) / 2) None Hwf2) as [s3 Hs3];
          [apply midpoint_range; lia ..|].
        rewrite Hs3.
        pose proof (grid_set_cell _ _ _ _ _ Hwf2 Hs3) as (_ & _ & Hwf3 & _).
        exists s3, (Some ((to_row + from_row) / 2, (to_col + from_col) / 2)).
        split; [reflexivity|]. split; [assumption|].
        intros [Hout|Hnone]; [tauto|congruence].
      * exists s2, None. split; [reflexivity|]. split; [assumption|].
        intros [Hout|Hnone]; [tauto|congruence].
    + exists squares, None. auto.
  - exists squares, None. auto.
Qed.

Lemma move_piece_is_bounds_safe_witness :
  exists squares' r,
    Board.move_piece (board new) (5, 0) (4, 8) = (squares', Returns r) /\
    wf_grid squares' /\
    (~ ((0 <= 5 < 8 /\ 0 <= 0 < 8) /\ (0 <= 4 < 8 /\ 0 <= 8 < 8))
     \/ grid_get (board new) 5 0 = Returns None ->
     squares' = board new /\ r = None).
Proof.
  apply (move_piece_is_bounds_safe (board new) 5 0 4 8).
  split; [vm_compute; reflexivity|]. vm_compute. repeat constructor.
Defined.

(** ** Directions *)

(** X13.  [Piece.can_move_direction] and [Piece.get_move_directions] agree
    on the steps of one row: such a step is accepted by the first exactly
    when it is in the list returned by the second. *)
Theorem can_move_direction_agrees (p : Piece) (row_delta col_delta : Z) :
  Z.abs row_delta = 1 ->
  Piece.can_move_direction p row_delta col_delta = true <->
  In (row_delta, col_delta) (Piece.get_move_directions p).
Proof.
  intros Hone. unfold Piece.can_move_direction, Piece.get_move_directions.
  destruct (Z.eqb_spec (Z.abs row_delta) (Z.abs col_delta)) as [Heq|Hne];
    cbv beta iota delta [negb].
  - destruct p as [[|] [|]]; simpl;
      rewrite ?Z.ltb_lt; split; intros H;
      repeat match goal with
             | H : _ \/ _ |- _ => destruct H
             | H : (_, _) = (_, _) |- _ => injection H as <- <-
             | H : False |- _ => destruct H
             end; try reflexivity; try lia;
      assert (row_delta = 1 \/ row_delta = -1) as [->| ->] by lia;
      assert (col_delta = 1 \/ col_delta = -1) as [->| ->] by lia;
      try lia; auto 6.
  - split; [discriminate|]. intros H. exfalso. apply Hne.
    destruct p as [[|] [|]]; simpl in H;
      repeat match goal with
             | H : _ \/ _ |- _ => destruct H
             | H : (_, _) = (_, _) |- _ => injection H as <- <-
             | H : False |- _ => destruct H
             end; reflexivity.
Qed.

Lemma can_move_direction_agrees_witness :
  Piece.can_move_direction (mkPiece red false) 1 (-1) = true <->
  In (1, -1) (Piece.get_move_directions (mkPiece red false)).
Proof.
  apply (can_move_direction_agrees (mkPiece red false) 1 (-1)). reflexivity.
Defined.

(** ** Snapshots of a board *)

Lemma board_init_returns : Board.__init__ = Returns (board new).
Proof. vm_compute. reflexivity. Qed.

Lemma board_rows_roundtrip (l : list (option Piece)) :
  map (fun piece_data => match piece_data with
                         | Some d => PieceSnapshots.deserialize (Some d)
                         | None => None
                         end)
      (map (fun piece => match piece with
                         | Some p => Some (PieceSnapshots.serialize p)
                         | None => None
                         end) l) = l.
Proof.
  induction l as [|x t IH]; cbn [map]; [reflexivity|].
  rewrite IH. destruct x as [[c k]|]; reflexivity.
Qed.

(** X14.  [Board.deserialize] gives back the squares that [Board.serialize]
    wrote, whatever their number and content, and does not raise. *)
Theorem board_round_trip (squares : Grid) :
  Board.deserialize (Board.serialize squares) = Returns squares.
Proof.
  unfold Board.deserialize. rewrite board_init_returns. simpl obind.
  f_equal. unfold Board.serialize.
  induction squares as [|r t IH]; cbn [map]; [reflexivity|].
  rewrite board_rows_roundtrip, IH. reflexivity.
Qed.

(** ** The board scans of [board.py] and of the engine *)

Lemma for_any_ext {A} (f f' : A -> outcome bool) l :
  (forall x, In x l -> f x = f' x) -> for_any f l = for_any f' l.
Proof.
  induction l as [|x t IH]; simpl; intros H; [reflexivity|].
  rewrite (H x (or_introl eq_refl)). destruct (f' x) as [[|]|e]; simpl;
    try reflexivity. apply IH. auto.
Qed.

(** The set [Board.get_valid_moves] returns for a piece, whatever its
    colour, is that of the destinations found along its directions. *)
Lemma get_valid_moves_along g row col p co :
  wf_grid (board g) -> 0 <= row < 8 -> 0 <= col < 8 ->
  grid_get (board g) row col = Returns (Some p) ->
  exists l,
    moves_along g p row col (directions p) co = Returns l /\
    Board.get_valid_moves (board g) row col co = Returns (list_to_set l).
Proof.
  intros Hwf Hrow Hcol Hp.
  unfold Board.get_valid_moves. rewrite get_piece_on_board by assumption.
  rewrite Hp. simpl obind.
  change (Piece.get_move_directions p) with (directions p).
  unfold moves_along.
  destruct (for_fold_union (capture_cond g p row col) (jump_to row col)
    (fun (acc : gset (Z * Z)) '(d_row, d_col) =>
       capture_pos <- Board._check_capture (board g) row col d_row d_col
                        (color p) ;;
       match capture_pos with
       | Some pos => Returns (acc ∪ {[pos]})
       | None => Returns acc
       end) (directions p)) as (captures & Hcap & Hfold).
  { intros d Hd. apply directions_four in Hd.
    destruct (check_capture_agrees g p row col d Hwf Hrow Hcol Hd)
      as (b & Hb & Hcheck).
    exists b. split; [assumption|]. intros acc.
    destruct d as [d_row d_col]. simpl in Hcheck. rewrite Hcheck.
    destruct b; reflexivity. }
  rewrite Hcap, Hfold. simpl obind.
  rewrite (left_id_L ∅ (∪)). rewrite list_to_set_nonempty.
  destruct (nonempty captures || co); [eauto|].
  destruct (for_fold_union (step_cond g row col) (step_to row col)
    (fun (acc : gset (Z * Z)) '(d_row, d_col) =>
       let new_row := row + d_row in
       let new_col := col + d_col in
       if Board.is_valid_position new_row new_col then
         tgt <- Board.get_piece (board g) new_row new_col ;;
         if truthy tgt then Returns acc
         else Returns (acc ∪ {[(new_row, new_col)]})
       else Returns acc) (directions p)) as (steps & Hst & Hfold2).
  { intros d _. destruct d as [d_row d_col].
    unfold step_cond, step_to. simpl fst. simpl snd.
    rewrite is_valid_position_spec.
    destruct (in_board (row + d_row) && in_board (col + d_col)) eqn:Hb;
      cbv beta iota zeta delta [negb].
    - apply andb_true_iff in Hb as [H1 H2]. apply in_board_spec in H1, H2.
      rewrite get_piece_on_board by assumption.
      destruct (grid_get_total (board g) (row + d_row) (col + d_col) Hwf)
        as [tgt ->]; [lia|lia|].
      exists (negb (truthy tgt)). split; [reflexivity|]. intros acc.
      destruct tgt; reflexivity.
    - exists false. split; reflexivity. }
  rewrite Hst, Hfold2. rewrite (left_id_L ∅ (∪)). eauto.
Qed.

Lemma scan_body_agrees g co row col :
  wf_grid (board g) -> 0 <= row < 8 -> 0 <= col < 8 ->
  (piece <- Board.get_piece (board g) row col ;;
   match piece with
   | Some p =>
       if color_eqb (color p) (current_player g) then
         moves <- Board.get_valid_moves (board g) row col co ;;
         Returns (bool_decide (moves ≠ ∅))
       else Returns false
   | None => Returns false
   end) = scan_body co g row col.
Proof.
  intros Hwf Hrow Hcol. unfold scan_body.
  rewrite get_piece_on_board by assumption.
  destruct (grid_get_total (board g) row col Hwf) as [piece Hp]; [lia|lia|].
  rewrite Hp. simpl obind. destruct piece as [p|]; [|reflexivity].
  destruct (color_eqb (color p) (current_player g)) eqn:Hc; [|reflexivity].
  apply color_eqb_eq in Hc.
  destruct (get_valid_moves_along g row col p co Hwf Hrow Hcol Hp)
    as (l & Hl & Hset).
  rewrite Hset, (_get_piece_moves_own g row col p co Hp Hc), Hl. simpl.
  rewrite list_to_set_nonempty. reflexivity.
Qed.

Lemma board_scan_agrees g co :
  wf_grid (board g) ->
  for_any (fun row =>
    for_any (fun col =>
      piece <- Board.get_piece (board g) row col ;;
      match piece with
      | Some p =>
          if color_eqb (color p) (current_player g) then
            moves <- Board.get_valid_moves (board g) row col co ;;
            Returns (bool_decide (moves ≠ ∅))
          else Returns false
      | None => Returns false
      end) (range 0 8)) (range 0 8)
  = for_any (fun row => for_any (scan_body co g row) (range 0 8)) (range 0 8).
Proof.
  intros Hwf. apply for_any_ext. intros row Hrow. apply in_range in Hrow.
  apply for_any_ext. intros col Hcol. apply in_range in Hcol.
  apply scan_body_agrees; assumption.
Qed.

(** X15.  On a grid of eight rows of eight squares, the scans of [board.py]
    for the player to move agree with those of the engine:
    [Board.has_captures_available] returns what the scan of
    [_check_for_captures] finds, and [Board.has_valid_moves] returns the
    negation of [is_game_over]. *)
Theorem board_scans_agree_with_engine (g : CheckersGame) :
  wf_grid (board g) ->
  Board.has_captures_available (board g) (current_player g)
    = scan_for_captures g /\
  exists b,
    Board.has_valid_moves (board g) (current_player g) = Returns b /\
    is_game_over g = Returns (negb b).
Proof.
  intros Hwf. split.
  - exact (board_scan_agrees g true Hwf).
  - destruct (scan_total false g Hwf) as [b Hb]. exists b. split.
    + unfold Board.has_valid_moves.
      change Board.BOARD_SIZE with 8.
      rewrite (board_scan_agrees g false Hwf). exact Hb.
    + change (obind (for_any (fun row => for_any (scan_body false g row)
                                            (range 0 8)) (range 0 8))
                    (fun found => Returns (negb found)) = Returns (negb b)).
      rewrite Hb. reflexivity.
Qed.

Lemma board_scans_agree_with_engine_witness :
  Board.has_captures_available (board in_chain) (current_player in_chain)
    = scan_for_captures in_chain /\
  exists b,
    Board.has_valid_moves (board in_chain) (current_player in_chain)
      = Returns b /\
    is_game_over in_chain = Returns (negb b).
Proof.
  apply (board_scans_agree_with_engine in_chain).
  split; [vm_compute; reflexivity|]. vm_compute. repeat constructor.
Defined.

(** ** Moving a piece in [board.py] and in the engine *)

Lemma store_run row col v g b' :
  grid_set (board g) row col v = Returns b' ->
  store row col v g = (set_board g b', Returns tt).
Proof. intros H. unfold store. rewrite H. reflexivity. Qed.

(** X16.  Relocation, capture and promotion are the same in the two files:
    on a grid of eight rows of eight squares, from a square of the board that
    holds a piece to a square of the board, [Board.move_piece] followed by
    [Board.promote_if_eligible] on the destination leaves the squares that
    lines 115-130 of [CheckersGame.make_move] leave, and [move_piece] returns
    the position of the jumped square exactly when the engine counts the
    move as a capture. *)
Theorem board_move_matches_engine
    (g : CheckersGame) (old_row old_col new_row new_col : Z) (p : Piece) :
  wf_grid (board g) ->
  0 <= old_row < 8 -> 0 <= old_col < 8 ->
  0 <= new_row < 8 -> 0 <= new_col < 8 ->
  grid_get (board g) old_row old_col = Returns (Some p) ->
  exists s1 s2,
    Board.move_piece (board g) (old_row, old_col) (new_row, new_col)
      = (s1, Returns (if Z.abs (new_row - old_row) =? 2
                      then Some ((new_row + old_row) / 2,
                                 (new_col + old_col) / 2)
                      else None)) /\
    Board.promote_if_eligible s1 new_row new_col = (s2, Returns tt) /\
    apply_move old_row old_col new_row new_col g
      = (set_board g s2, Returns (Z.abs (new_row - old_row) =? 2)).
Proof.
  intros Hwf Hor Hoc Hnr Hnc Hp.
  unfold Board.move_piece, apply_move.
  rewrite (proj2 (is_valid_position_true old_row old_col) (conj Hor Hoc)).
  rewrite (proj2 (is_valid_position_true new_row new_col) (conj Hnr Hnc)).
  cbv beta iota delta [negb andb]. rewrite Hp.
  cbv beta iota delta [negb truthy].
  erewrite bind_run by (unfold read; rewrite Hp; reflexivity).
  destruct (grid_set_total (board g) new_row new_col (Some p) Hwf)
    as [b1 Hb1]; [lia|lia|].
  rewrite Hb1. erewrite bind_run by (apply store_run; exact Hb1).
  pose proof (grid_set_cell _ _ _ _ _ Hwf Hb1) as (_ & _ & Hwf1 & Hc1).
  destruct (grid_set_total b1 old_row old_col None Hwf1)
    as [b2 Hb2]; [lia|lia|].
  rewrite Hb2. erewrite bind_run by (apply store_run; exact Hb2).
  pose proof (grid_set_cell _ _ _ _ _ Hwf1 Hb2) as (_ & _ & Hwf2 & Hc2).
  assert (exists b3,
    wf_grid b3 /\
    (if Z.abs (new_row - old_row) =? 2
     then match grid_set b2 ((new_row + old_row) / 2)
                  ((new_col + old_col) / 2) None with
          | Returns s3 =>
              (s3, Returns (Some ((new_row + old_row) / 2,
                                  (new_col + old_col) / 2)))
          | Raises e => (b2, Raises e)
          end
     else (b2, Returns None))
    = (b3, Returns (if Z.abs (new_row - old_row) =? 2
                    then Some ((new_row + old_row) / 2,
                               (new_col + old_col) / 2)
                    else None)) /\
    (if Z.abs (new_row - old_row) =? 2
     then store ((new_row + old_row) / 2) ((new_col + old_col) / 2) None
     else ret tt) (set_board (set_board g b1) b2)
    = (set_board g b3, Returns tt) /\
    forall q, cell b3 (pos8 new_row) (pos8 new_col) = Some (Some q) -> q = p)
    as (b3 & Hwf3 & Hmove & Hstore & Hhere).
  { assert (forall q, cell b2 (pos8 new_row) (pos8 new_col) = Some (Some q)
                      -> q = p) as Hq2.
    { intros q Hq. rewrite Hc2 in Hq.
      destruct (decide _); [discriminate|]. rewrite Hc1 in Hq.
      rewrite decide_True in Hq by auto. congruence. }
    destruct (Z.abs (new_row - old_row) =? 2).
    - destruct (grid_set_total b2 ((new_row + old_row) / 2)
                  ((new_col + old_col) / 2) None Hwf2) as [b3 Hb3];
        [apply midpoint_range; lia ..|].
      pose proof (grid_set_cell _ _ _ _ _ Hwf2 Hb3) as (_ & _ & Hwf3 & Hc3).
      exists b3. rewrite Hb3. split; [assumption|]. split; [reflexivity|].
      split; [apply (store_run _ _ _ (set_board (set_board g b1) b2));
              exact Hb3|].
      intros q Hq. rewrite Hc3 in Hq.
      destruct (decide _); [discriminate|]. auto.
    - exists b2. split; [assumption|]. split; [reflexivity|].
      split; [reflexivity|]. assumption. }
  rewrite Hmove. erewrite bind_run by exact Hstore. exists b3.
  assert (exists s2,
    Board.promote_if_eligible b3 new_row new_col = (s2, Returns tt) /\
    promote (Some p) new_row new_col (set_board g b3)
      = (set_board g s2, Returns tt)) as (s2 & Hpro1 & Hpro2).
  { unfold Board.promote_if_eligible, promote.
    rewrite get_piece_on_board by assumption.
    destruct (grid_get_total b3 new_row new_col Hwf3) as [here Hh];
      [lia|lia|].
    rewrite Hh.
    pose proof Hh as Hh'. apply grid_get_cell in Hh' as (_ & _ & Hh');
      [|assumption].
    change (Board.BOARD_SIZE - 1) with 7.
    destruct here as [q|].
    - rewrite (Hhere q Hh').
      destruct ((color_eqb (color p) red && (new_row =? 0))
                || (color_eqb (color p) black && (new_row =? 7))).
      + destruct (grid_set_total b3 new_row new_col
                    (Some (mkPiece (color p) true)) Hwf3) as [b4 Hb4];
          [lia|lia|].
        rewrite Hb4. exists b4. split; [reflexivity|].
        erewrite bind_run by (unfold read; simpl; rewrite Hh; reflexivity).
        rewrite (Hhere q Hh').
        apply (store_run _ _ _ (set_board g b3)). exact Hb4.
      + exists b3. split; reflexivity.
    - exists b3. split; [reflexivity|].
      destruct ((color_eqb (color p) red && (new_row =? 0))
                || (color_eqb (color p) black && (new_row =? 7))).
      + erewrite bind_run by (unfold read; simpl; rewrite Hh; reflexivity).
        reflexivity.
      + reflexivity. }
  exists s2. split; [reflexivity|]. split; [exact Hpro1|].
  erewrite bind_run by exact Hpro2. reflexivity.
Qed.

Lemma board_move_matches_engine_witness :
  exists s1 s2,
    Board.move_piece (board before_chain) (2, 5) (4, 3)
      = (s1, Returns (if Z.abs (4 - 2) =? 2
                      then Some ((4 + 2) / 2, (3 + 5) / 2)
                      else None)) /\
    Board.promote_if_eligible s1 4 3 = (s2, Returns tt) /\
    apply_move 2 5 4 3 before_chain
      = (set_board before_chain s2, Returns (Z.abs (4 - 2) =? 2)).
Proof.
  apply (board_move_matches_engine before_chain 2 5 4 3 (mkPiece black false)).
  - split; [vm_compute; reflexivity|]. vm_compute. repeat constructor.
  - lia.
  - lia.
  - lia.
  - lia.
  - vm_compute. reflexivity.
Defined.

(** ** Counting pieces *)

Lemma range_cons lo hi : lo < hi -> range lo hi = lo :: range (lo + 1) hi.
Proof.
  intros H. unfold range.
  replace (Z.to_nat (hi - lo)) with (S (Z.to_nat (hi - (lo + 1)))) by lia.
  cbn [seq map]. f_equal; [lia|].
  rewrite <- seq_shift, map_map. apply map_ext. intros k. lia.
Qed.

Lemma range_nil lo : range lo lo = [].
Proof. unfold range. rewrite Z.sub_diag. reflexivity. Qed.

Lemma for_fold_ext {A S} (body body' : S -> A -> outcome S) l s :
  (forall s' x, In x l -> body s' x = body' s' x) ->
  for_fold body l s = for_fold body' l s.
Proof.
  revert s. induction l as [|x t IH]; simpl; intros s H; [reflexivity|].
  rewrite (H s x (or_introl eq_refl)).
  destruct (body' s x) as [s'|e]; simpl; [|reflexivity].
  apply IH. auto.
Qed.

(** A loop over the indices of a list that adds up a weight of each
    element. *)
Lemma for_fold_sum {A} (w : A -> Z) (get : Z -> outcome A) (l : list A) :
  forall lo s,
    (forall k x, l !! k = Some x -> get (lo + Z.of_nat k) = Returns x) ->
    for_fold (fun s' i => x <- get i ;; Returns (s' + w x))
             (range lo (lo + Z.of_nat (length l))) s
    = Returns (s + fold_right (fun x t => w x + t) 0 l).
Proof.
  induction l as [|x t IH]; intros lo s Hget.
  - simpl length. rewrite Z.add_0_r, range_nil. simpl. f_equal. lia.
  - rewrite range_cons by (simpl length; lia). cbn [for_fold].
    pose proof (Hget 0%nat x eq_refl) as H0. rewrite Z.add_0_r in H0.
    rewrite H0. cbn [obind fold_right].
    replace (lo + Z.of_nat (length (x :: t)))
      with (lo + 1 + Z.of_nat (length t)) by (simpl length; lia).
    rewrite IH.
    + f_equal. lia.
    + intros k y Hk. replace (lo + 1 + Z.of_nat k)
        with (lo + Z.of_nat (S k)) by lia. apply Hget. exact Hk.
Qed.

Lemma grid_get_row b row col r :
  wf_grid b -> 0 <= row < 8 -> 0 <= col < 8 ->
  b !! Z.to_nat row = Some r ->
  grid_get b row col = getitem r col.
Proof.
  intros Hwf Hrow Hcol Hr. unfold grid_get.
  rewrite (proj2 (getitem_8 b row r (proj1 Hwf))); [reflexivity|].
  split; [lia|]. rewrite pos8_small by assumption. exact Hr.
Qed.

Lemma count_pieces_row b c row r s :
  wf_grid b -> 0 <= row < 8 -> b !! Z.to_nat row = Some r ->
  for_fold (fun count' col =>
      piece <- Board.get_piece b row col ;;
      match piece with
      | Some p => if color_eqb (color p) c then Returns (count' + 1)
                  else Returns count'
      | None => Returns count'
      end) (range 0 8) s
  = Returns (s + count_row c r).
Proof.
  intros Hwf Hrow Hr.
  pose proof (wf_grid_row _ _ _ Hwf Hr) as Hlen.
  rewrite (for_fold_ext _
             (fun s' i => x <- getitem r i ;; Returns (s' + piece_count c x))).
  - pose proof (for_fold_sum (piece_count c) (getitem r) r 0 s) as H.
    rewrite Hlen in H. apply H. intros k x Hk.
    pose proof (lookup_lt_Some _ _ _ Hk) as Hlt. rewrite Hlen in Hlt.
    apply getitem_8; [assumption|]. split; [lia|].
    rewrite pos8_small by lia. rewrite Z.add_0_l, Nat2Z.id. exact Hk.
  - intros s' col Hcol. apply in_range in Hcol.
    rewrite get_piece_on_board by assumption.
    rewrite (grid_get_row b row col r Hwf Hrow Hcol Hr).
    destruct (getitem r col) as [[p|]|e]; simpl; try reflexivity.
    + destruct (color_eqb _ _); f_equal; lia.
    + f_equal. lia.
Qed.

Lemma count_pieces_spec b c :
  wf_grid b -> Board.count_pieces b c = Returns (count_grid c b).
Proof.
  intros Hwf. unfold Board.count_pieces. change Board.BOARD_SIZE with 8.
  rewrite (for_fold_ext _
             (fun s' i => r <- getitem b i ;; Returns (s' + count_row c r))).
  - pose proof (for_fold_sum (count_row c) (getitem b) b 0 0) as H.
    rewrite (proj1 Hwf) in H. apply H. intros k r Hk.
    pose proof (lookup_lt_Some _ _ _ Hk) as Hlt. rewrite (proj1 Hwf) in Hlt.
    apply getitem_8; [apply Hwf|]. split; [lia|].
    rewrite pos8_small by lia. rewrite Z.add_0_l, Nat2Z.id. exact Hk.
  - intros s' row Hrow. apply in_range in Hrow.
    destruct (lookup_lt_is_Some_2 b (Z.to_nat row)) as [r Hr];
      [rewrite (proj1 Hwf); lia|].
    rewrite (count_pieces_row b c row r s' Hwf Hrow Hr).
    rewrite (proj2 (getitem_8 b row r (proj1 Hwf))); [reflexivity|].
    split; [lia|]. rewrite pos8_small by assumption. exact Hr.
Qed.

Lemma count_row_insert c (r : list (option Piece)) j v old :
  r !! j = Some old ->
  count_row c (<[j:=v]> r) = count_row c r - piece_count c old + piece_count c v.
Proof.
  revert j. induction r as [|x t IH]; intros j Hj; [discriminate|].
  destruct j as [|j]; simpl in *.
  - injection Hj as ->. lia.
  - rewrite (IH j Hj). lia.
Qed.

Lemma count_grid_insert c (b : Grid) i r r' :
  b !! i = Some r ->
  count_grid c (<[i:=r']> b) = count_grid c b - count_row c r + count_row c r'.
Proof.
  revert i. induction b as [|x t IH]; intros i Hi; [discriminate|].
  destruct i as [|i]; simpl in *.
  - injection Hi as ->. lia.
  - rewrite (IH i Hi). lia.
Qed.

(** Writing a square changes the count by what leaves and what enters. *)
Lemma count_grid_set c b b' row col v old :
  wf_grid b ->
  grid_set b row col v = Returns b' ->
  cell b (pos8 row) (pos8 col) = Some old ->
  count_grid c b' = count_grid c b - piece_count c old + piece_count c v.
Proof.
  intros Hwf Hset Hold. unfold grid_set in Hset.
  apply obind_returns in Hset as (r & Hr & Hset).
  apply getitem_8 in Hr as [Hrow Hr]; [|apply Hwf].
  pose proof (wf_grid_row _ _ _ Hwf Hr) as Hlen.
  apply obind_returns in Hset as (r' & Hr' & Hset).
  apply setitem_8 in Hr' as [Hcol ->]; [|assumption].
  apply setitem_8 in Hset as [_ ->]; [|apply Hwf].
  unfold cell in Hold. rewrite Hr in Hold.
  rewrite (count_grid_insert c b _ r _ Hr).
  rewrite (count_row_insert c r _ v old Hold). lia.
Qed.

Lemma piece_count_promoted c p :
  piece_count c (Some (mkPiece (color p) true)) = piece_count c (Some p).
Proof. reflexivity. Qed.

(** The count of a colour after relocation, capture and promotion. *)
Lemma apply_move_count c old_row old_col new_row new_col g g1 ic p jumped :
  wf_grid (board g) ->
  grid_get (board g) old_row old_col = Returns (Some p) ->
  grid_get (board g) new_row new_col = Returns None ->
  0 <= new_row < 8 -> 0 <= new_col < 8 ->
  Z.abs (new_row - old_row) = 1 \/ Z.abs (new_row - old_row) = 2 ->
  (ic = true ->
   grid_get (board g) ((new_row + old_row) / 2) ((new_col + old_col) / 2)
     = Returns jumped) ->
  apply_move old_row old_col new_row new_col g = (g1, Returns ic) ->
  count_grid c (board g1)
    = count_grid c (board g) - (if ic then piece_count c jumped else 0).
Proof.
  intros Hwf Hp Hempty Hnr Hnc Hstep Hjumped H.
  destruct (apply_move_frame _ _ _ _ _ _ _ H) as [_ Hic]. subst ic.
  assert (pos8 old_row <> pos8 new_row) as Hfar.
  { apply pos8_far. rewrite <- Z.abs_opp.
    replace (- (old_row - new_row)) with (new_row - old_row) by lia.
    assumption. }
  destruct (grid_get_raises _ _ _ _ Hwf Hp) as [Hor Hoc].
  pose proof Hp as Hpc. apply grid_get_cell in Hpc as (_ & _ & Hpc);
    [|assumption].
  pose proof Hempty as Hec. apply grid_get_cell in Hec as (_ & _ & Hec);
    [|assumption].
  unfold apply_move in H.
  step H as Hget. assert (a = Some p) as -> by congruence.
  step H as Hnew. apply store_returns in Hnew as (b1 & Hb1 & ->).
  pose proof (grid_set_cell _ _ _ _ _ Hwf Hb1) as (_ & _ & Hwf1 & Hc1).
  pose proof (count_grid_set c _ _ _ _ _ _ Hwf Hb1 Hec) as Hn1.
  step H as Hold. apply store_returns in Hold as (b2 & Hb2 & ->).
  simpl board in Hb2.
  pose proof (grid_set_cell _ _ _ _ _ Hwf1 Hb2) as (_ & _ & Hwf2 & Hc2).
  assert (cell b1 (pos8 old_row) (pos8 old_col) = Some (Some p)) as Ho1.
  { rewrite Hc1. rewrite decide_False by tauto. exact Hpc. }
  pose proof (count_grid_set c _ _ _ _ _ _ Hwf1 Hb2 Ho1) as Hn2.
  assert (cell b2 (pos8 new_row) (pos8 new_col) = Some (Some p)) as Hnew2.
  { rewrite Hc2. rewrite decide_False by (intros [Hx _]; auto).
    rewrite Hc1. rewrite decide_True by auto. reflexivity. }
  step H as Hmid. rename g0 into g3.
  assert (wf_grid (board g3) /\
          cell (board g3) (pos8 new_row) (pos8 new_col) = Some (Some p) /\
          count_grid c (board g3)
            = count_grid c b2
              - (if Z.abs (new_row - old_row) =? 2
                 then piece_count c jumped else 0))
    as (Hwf3 & Hnew3 & Hn3).
  { destruct (Z.eqb_spec (Z.abs (new_row - old_row)) 2) as [Hjump|_].
    - specialize (Hjumped eq_refl).
      apply store_returns in Hmid as (b3 & Hb3 & ->). simpl board in *.
      pose proof (grid_set_cell _ _ _ _ _ Hwf2 Hb3) as (_ & _ & Hwf3 & Hc3).
      destruct (grid_get_raises _ _ _ _ Hwf Hjumped) as [Hmr Hmc].
      apply grid_get_cell in Hjumped as (_ & _ & Hj); [|assumption].
      assert (cell b2 (pos8 ((new_row + old_row) / 2))
                (pos8 ((new_col + old_col) / 2)) = Some jumped) as Hj2.
      { rewrite Hc2. rewrite decide_False.
        2:{ intros [Hx _]. revert Hx. apply pos8_mid_old. assumption. }
        rewrite Hc1. rewrite decide_False.
        2:{ intros [Hx _]. revert Hx. apply pos8_mid_new. assumption. }
        exact Hj. }
      split; [assumption|]. split.
      + rewrite Hc3. rewrite decide_False.
        2:{ intros [Hx _]. symmetry in Hx. revert Hx.
            apply pos8_mid_new. assumption. }
        exact Hnew2.
      + rewrite (count_grid_set c _ _ _ _ _ _ Hwf2 Hb3 Hj2). simpl. lia.
    - leaf Hmid. simpl board. split; [assumption|].
      split; [assumption|]. lia. }
  step H as Hpro. rename g0 into g4.
  apply ret_returns in H as [Hg1 _]. rewrite Hg1. clear Hg1.
  assert (count_grid c (board g4) = count_grid c (board g3)) as Hn4.
  { unfold promote in Hpro. destruct (_ || _); [|leaf Hpro; reflexivity].
    step Hpro as Hhere.
    apply grid_get_cell in Hhere as (_ & _ & Hhere); [|assumption].
    rewrite Hnew3 in Hhere. injection Hhere as <-.
    apply store_returns in Hpro as (b4 & Hb4 & ->). simpl board.
    rewrite (count_grid_set c _ _ _ _ _ _ Hwf3 Hb4 Hnew3).
    rewrite piece_count_promoted. lia. }
  rewrite Hn4, Hn3, Hn2, Hn1. simpl piece_count. lia.
Qed.

(** X17.  An accepted move, from any reachable state, keeps the number of
    pieces of the player who moves, as [Board.count_pieces] counts them, and
    takes exactly one piece from the opponent when it is a two-square move,
    none otherwise. *)
Theorem accepted_move_piece_counts
    (g g' : CheckersGame) (row col old_row old_col : Z) :
  reachable g ->
  selected_piece g = Some (old_row, old_col) ->
  make_move row col g = (g', Returns true) ->
  exists own opp,
    Board.count_pieces (board g) (current_player g) = Returns own /\
    Board.count_pieces (board g) (other (current_player g)) = Returns opp /\
    Board.count_pieces (board g') (current_player g) = Returns own /\
    Board.count_pieces (board g') (other (current_player g))
      = Returns (if Z.abs (row - old_row) =? 2 then opp - 1 else opp).
Proof.
  intros Hr Hsel H. destruct (reachable_invariant g Hr) as (Hwf & Hd & Hok).
  pose proof (reachable_selection_sound g Hr) as Hsound.
  pose proof (invariant_move _ _ _ _ _ (conj Hwf (conj Hd Hok)) H)
    as (Hwf' & _).
  apply make_move_true_inv in H
    as (old_row' & old_col' & g1 & ic & Hsel' & Hin & Happ & Hcases).
  rewrite Hsel in Hsel'. injection Hsel' as <- <-.
  apply py_in_In in Hin.
  destruct (Hok _ _ _ _ Hsel Hin) as (Hrow & Hcol & Habs & Hstep).
  destruct (Hsound _ _ Hsel) as (p & co & Hp & Hc & Hvalid).
  destruct (destination_facts g old_row old_col p co _ row col Hp Hc Hvalid
              Hin) as [Hempty Hmid].
  destruct (apply_move_frame _ _ _ _ _ _ _ Happ) as [_ Hic].
  assert (board g' = board g1) as Hb.
  { destruct Hcases as [(_ & moves & _ & _ & ->)|(_ & u & Hend)];
      [reflexivity|].
    apply _end_turn_returns in Hend as (over & _ & Hb & _). exact Hb. }
  exists (count_grid (current_player g) (board g)),
         (count_grid (other (current_player g)) (board g)).
  rewrite !count_pieces_spec by assumption.
  split; [reflexivity|]. split; [reflexivity|].
  rewrite Hb. rewrite <- Hic.
  destruct ic.
  - symmetry in Hic. apply Z.eqb_eq in Hic.
    destruct (Hmid Hic) as (m & Hm & Hcm).
    rewrite (apply_move_count (current_player g) _ _ _ _ _ _ _ p (Some m)
               Hwf Hp Hempty Hrow Hcol Hstep (fun _ => Hm) Happ).
    rewrite (apply_move_count (other (current_player g)) _ _ _ _ _ _ _ p
               (Some m) Hwf Hp Hempty Hrow Hcol Hstep (fun _ => Hm) Happ).
    simpl piece_count. rewrite <- Hc.
    destruct (color m), (color p); simpl; try congruence;
      split; f_equal; lia.
  - assert (false = true ->
            grid_get (board g) ((row + old_row) / 2) ((col + old_col) / 2)
              = Returns None) as Hno by discriminate.
    rewrite (apply_move_count (current_player g) _ _ _ _ _ _ _ p None
               Hwf Hp Hempty Hrow Hcol Hstep Hno Happ).
    rewrite (apply_move_count (other (current_player g)) _ _ _ _ _ _ _ p None
               Hwf Hp Hempty Hrow Hcol Hstep Hno Happ).
    split; f_equal; lia.
Qed.

Lemma accepted_move_piece_counts_witness :
  exists own opp,
    Board.count_pieces (board before_chain) (current_player before_chain)
      = Returns own /\
    Board.count_pieces (board before_chain)
        (other (current_player before_chain)) = Returns opp /\
    Board.count_pieces (board in_chain) (current_player before_chain)
      = Returns own /\
    Board.count_pieces (board in_chain) (other (current_player before_chain))
      = Returns (if Z.abs (4 - 2) =? 2 then opp - 1 else opp).
Proof.
  apply (accepted_move_piece_counts before_chain in_chain 4 3 2 5).
  - apply reachable_on_board_reachable. exact before_chain_reachable.
  - vm_compute. reflexivity.
  - vm_compute. reflexivity.
Defined.

(** * Further properties of the turn protocol *)

Lemma finished_reachable : reachable_on_board finished.
Proof.
  apply (play_reachable_on_board full_game new finished (repeat true 51)).
  - unfold full_game. repeat constructor; simpl; lia.
  - apply reach_ob_new.
  - vm_compute. reflexivity.
Qed.

Lemma no_move_once_over_witness :
  make_move 1 2 finished = (finished, Returns false).
Proof.
  apply (no_move_once_over finished 1 2).
  - exact finished_reachable.
  - vm_compute. reflexivity.
Defined.

(** X18.  The capture rule at the level of moves, in play on the board: an
    accepted move is a two-square move exactly when some piece of the player
    to move had a capture. *)
Theorem moves_capture_exactly_when_forced
    (g g' : CheckersGame) (row col old_row old_col : Z) :
  reachable_on_board g ->
  selected_piece g = Some (old_row, old_col) ->
  make_move row col g = (g', Returns true) ->
  has_destination true g <-> Z.abs (row - old_row) = 2.
Proof.
  intros Hr Hsel H.
  destruct (reachable_on_board_ok g Hr) as [(Hwf & Hd & Hok) [Hscan Hflag]].
  apply make_move_true_inv in H
    as (old_row' & old_col' & _ & _ & Hsel' & Hin & _).
  rewrite Hsel in Hsel'. injection Hsel' as <- <-.
  apply py_in_In in Hin.
  destruct (Hflag _ _ Hsel) as (Hor & Hoc & Hvalid).
  destruct (Hok _ _ _ _ Hsel Hin) as (_ & _ & _ & Hstep). split.
  - intros Hhas. rewrite (scan_for_captures_has g Hwf Hhas) in Hscan.
    injection Hscan as Hm. rewrite <- Hm in Hvalid.
    exact (proj2 (_get_piece_moves_diagonal _ _ _ _ _ _ _ Hvalid Hin) eq_refl).
  - intros Hjump. destruct (must_capture g) eqn:Hm.
    + apply scan_for_captures_true. exact Hscan.
    + destruct (jump_is_capture _ _ _ _ _ _ Hvalid Hin Hjump)
        as (Htrue & Hne & p & Hp & Hc).
      exists old_row, old_col, p, (valid_moves g). auto 8.
Qed.

Lemma moves_capture_exactly_when_forced_witness :
  has_destination true before_chain <-> Z.abs (4 - 2) = 2.
Proof.
  apply (moves_capture_exactly_when_forced before_chain in_chain 4 3 2 5).
  - apply (play_reachable_on_board chain_setup new before_chain
             (repeat true 11)).
    + unfold chain_setup. repeat constructor; simpl; lia.
    + apply reach_ob_new.
    + vm_compute. reflexivity.
  - vm_compute. reflexivity.
  - vm_compute. reflexivity.
Defined.

(** X19.  [select_piece] touches the selection only: whatever the state,
    the indices and the outcome, exception included, it leaves the board,
    the player to move, the forced-capture flag and the winner as they were;
    and unless it returns [True] it leaves the selection and its legal
    destinations too. *)
Theorem select_piece_touches_the_selection_only
    (g g' : CheckersGame) (row col : Z) (o : outcome bool) :
  select_piece row col g = (g', o) ->
  board g' = board g /\
  current_player g' = current_player g /\
  must_capture g' = must_capture g /\
  winner g' = winner g /\
  (o <> Returns true -> g' = g).
Proof.
  unfold select_piece, bind, read, attr, assign, ret. intros H.
  destruct (grid_get (board g) row col) as [[p|]|e];
    [|injection H as <- <-; auto 6 | injection H as <- <-; auto 6].
  destruct (negb (color_eqb (color p) (current_player g)));
    [injection H as <- <-; auto 6|].
  destruct (must_capture g) eqn:Hm.
  - destruct (_get_piece_moves g row col true) as [l|e];
      [|injection H as <- <-; auto 6].
    destruct (negb (nonempty l)); injection H as <- <-; simpl.
    + auto 6.
    + repeat split; auto. intros Hne. congruence.
  - destruct (_get_piece_moves g row col false) as [l|e];
      injection H as <- <-; simpl.
    + repeat split; auto. intros Hne. congruence.
    + auto 6.
Qed.

Lemma select_piece_touches_the_selection_only_witness :
  board (chained in_chain 4 7 [(6, 5)]) = board in_chain /\
  current_player (chained in_chain 4 7 [(6, 5)]) = current_player in_chain /\
  must_capture (chained in_chain 4 7 [(6, 5)]) = must_capture in_chain /\
  winner (chained in_chain 4 7 [(6, 5)]) = winner in_chain /\
  (Returns true <> Returns true -> chained in_chain 4 7 [(6, 5)] = in_chain).
Proof.
  apply (select_piece_touches_the_selection_only in_chain
           (chained in_chain 4 7 [(6, 5)]) 4 7 (Returns true)).
  vm_compute. reflexivity.
Defined.

(** * Selections during a chain, and moves after the end *)

Lemma select_piece_capturing row col g p moves :
  must_capture g = true ->
  grid_get (board g) row col = Returns (Some p) ->
  color p = current_player g ->
  _get_piece_moves g row col true = Returns moves ->
  moves <> [] ->
  select_piece row col g = (chained g row col moves, Returns true).
Proof.
  intros Hforced Hp Hc Hm Hne. unfold select_piece.
  erewrite bind_run by (unfold read; rewrite Hp; reflexivity).
  erewrite bind_run by reflexivity. cbv beta iota.
  rewrite (proj2 (color_eqb_eq _ _) Hc). cbv beta iota delta [negb].
  erewrite bind_run by reflexivity. rewrite Hforced.
  erewrite bind_run by (unfold read; rewrite Hm; reflexivity).
  rewrite (proj2 (nonempty_true moves) Hne). cbv beta iota delta [negb].
  reflexivity.
Qed.

(** C1, as the code has it.  From a state reached in play on the board, let
    an accepted move leave the same player to move.  Then the move was a
    jump, the selection is on the landing square and its legal destinations
    are the captures of the piece from there, all of them jumps.  The chain
    is not locked to that piece.  On every square that holds a piece of the
    player with at least one capture, the landing square or another one,
    [select_piece] returns [True] and moves the selection to that square,
    with its captures as legal destinations.  It returns [True] on no other
    square: on an index from -8 to 7 that does not designate such a piece it
    returns [False] and leaves the game, and so the selection on the landing
    square, as it is; and whenever it returns [False] the game is
    unchanged. *)
Theorem chain_leaves_selection_open
    (g g' : CheckersGame) (new_row new_col : Z) :
  reachable_on_board g ->
  make_move new_row new_col g = (g', Returns true) ->
  current_player g' = current_player g ->
  (exists old_row old_col,
     selected_piece g = Some (old_row, old_col) /\
     Z.abs (new_row - old_row) = 2) /\
  selected_piece g' = Some (new_row, new_col) /\
  valid_moves g' <> [] /\
  _get_piece_moves g' new_row new_col true = Returns (valid_moves g') /\
  (forall r c, In (r, c) (valid_moves g') -> Z.abs (r - new_row) = 2) /\
  (forall row col p moves,
     grid_get (board g') row col = Returns (Some p) ->
     color p = current_player g' ->
     _get_piece_moves g' row col true = Returns moves ->
     moves <> [] ->
     select_piece row col g' = (chained g' row col moves, Returns true)) /\
  (forall row col,
     -8 <= row < 8 -> -8 <= col < 8 ->
     (forall p moves,
        grid_get (board g') row col = Returns (Some p) ->
        color p = current_player g' ->
        _get_piece_moves g' row col true = Returns moves ->
        moves = []) ->
     select_piece row col g' = (g', Returns false)) /\
  (forall row col g'' b,
     select_piece row col g' = (g'', Returns b) ->
     if b then
       exists p moves,
         grid_get (board g') row col = Returns (Some p) /\
         color p = current_player g' /\
         _get_piece_moves g' row col true = Returns moves /\
         moves <> [] /\
         g'' = chained g' row col moves
     else g'' = g').
Proof.
  intros Hr Hmove Hsame.
  destruct (reachable_on_board_ok g Hr) as [Hinv Hflag].
  pose proof (invariant_move _ _ _ _ _ Hinv Hmove) as (Hwf' & _).
  pose proof Hmove as Hinv'.
  apply make_move_true_inv in Hinv'
    as (old_row & old_col & g1 & ic & Hs & Hin & Happ & Hcases).
  apply py_in_In in Hin.
  destruct Hinv as (Hwf & Hd & Hok).
  destruct (Hok _ _ _ _ Hs Hin) as (Hrow & Hcol & _).
  destruct (capture_flag_ok_move _ _ _ _ _ Hrow Hcol
              (conj Hwf (conj Hd Hok)) Hflag Hmove) as [_ Hforced].
  specialize (Hforced eq_refl Hsame).
  destruct (apply_move_frame _ _ _ _ _ _ _ Happ)
    as [(Hp1 & _ & _ & Hm1 & _) Hic].
  destruct Hcases as [(-> & moves & Hm & Hne & ->)|(_ & u & Hend)].
  - symmetry in Hic. apply Z.eqb_eq in Hic.
    assert (must_capture (chained g1 new_row new_col moves) = true)
      as Hforced' by (simpl; congruence).
    assert (forall row col g'' b,
      select_piece row col (chained g1 new_row new_col moves)
        = (g'', Returns b) ->
      if b then
        exists p ms,
          grid_get (board (chained g1 new_row new_col moves)) row col
            = Returns (Some p) /\
          color p = current_player (chained g1 new_row new_col moves) /\
          _get_piece_moves (chained g1 new_row new_col moves) row col true
            = Returns ms /\
          ms <> [] /\
          g'' = chained (chained g1 new_row new_col moves) row col ms
      else g'' = chained g1 new_row new_col moves) as Hconv.
    { intros row col g'' b Hsel. destruct b.
      - apply select_piece_true_inv in Hsel
          as (p & ms & Hp & Hc & Hms & Hnil & ->).
        rewrite Hforced' in Hms, Hnil. exists p, ms. auto 8.
      - apply select_piece_false_same in Hsel. assumption. }
    split; [eauto|]. split; [reflexivity|]. split; [assumption|].
    split; [assumption|]. split; [|split; [|split]].
    + intros r c Hrc. simpl in Hrc.
      exact (proj2 (_get_piece_moves_diagonal _ _ _ _ _ _ _ Hm Hrc) eq_refl).
    + intros row col p ms Hp Hc Hms Hnil.
      apply (select_piece_capturing _ _ _ p); assumption.
    + intros row col Hr8 Hc8 Hnone.
      destruct (select_piece_in_range row col _ Hwf' Hr8 Hc8)
        as (g'' & b & Hsel).
      pose proof (Hconv _ _ _ _ Hsel) as Hb. destruct b.
      * destruct Hb as (p & ms & Hp & Hc & Hms & Hnil & _).
        destruct (Hnil (Hnone p ms Hp Hc Hms)).
      * rewrite Hb in Hsel. exact Hsel.
    + exact Hconv.
  - apply _end_turn_returns in Hend as (over & Hp' & _).
    rewrite Hp', Hp1 in Hsame. destruct (other_neq _ Hsame).
Qed.

Lemma chain_leaves_selection_open_witness :
  selected_piece in_chain = Some (4, 3) /\
  select_piece 4 7 in_chain = (chained in_chain 4 7 [(6, 5)], Returns true) /\
  select_piece 0 1 in_chain = (in_chain, Returns false).
Proof.
  destruct (chain_leaves_selection_open before_chain in_chain 4 3)
    as (_ & Hsel & _ & _ & _ & Hopen & Hclosed & _).
  - apply (play_reachable_on_board chain_setup new before_chain
             (repeat true 11)).
    + unfold chain_setup. repeat constructor; simpl; lia.
    + apply reach_ob_new.
    + vm_compute. reflexivity.
  - vm_compute. reflexivity.
  - vm_compute. reflexivity.
  - split; [exact Hsel|]. split.
    + apply (Hopen 4 7 (mkPiece black false) [(6, 5)]).
      * vm_compute. reflexivity.
      * vm_compute. reflexivity.
      * vm_compute. reflexivity.
      * discriminate.
    + apply (Hclosed 0 1); [lia|lia|].
      intros p moves Hp Hc Hm. vm_compute in Hm. congruence.
Defined.

Lemma blocked_reachable : reachable_on_board blocked.
Proof.
  apply (play_reachable_on_board blocked_game new blocked (repeat true 54)).
  - unfold blocked_game. repeat constructor; simpl; lia.
  - apply reach_ob_new.
  - vm_compute. reflexivity.
Qed.

(** C5 at a state the engine reaches.  [blocked] is reached from a new game
    by 54 calls on the board that all return [True]: red is to move, its last
    piece, on [(6,7)], has no destination, [is_game_over] returns [True] and
    [winner] is black.  [select_piece(6, -1)] designates that piece through
    the column index -1 and offers the step to [(5,0)]; [make_move(5, 0)]
    accepts it and ends the turn.  The new player to move, black, has a
    destination and [is_game_over] returns [False], but [winner] is not
    [None]: it is still black. *)
Theorem winner_kept_after_wrapped_move :
  reachable_on_board blocked /\
  play blocked_game new = (blocked, Returns (repeat true 54)) /\
  current_player blocked = red /\
  is_game_over blocked = Returns true /\
  winner blocked = Some black /\
  select_piece 6 (-1) blocked
    = (chained blocked 6 (-1) [(5, 0)], Returns true) /\
  exists g',
    make_move 5 0 (chained blocked 6 (-1) [(5, 0)]) = (g', Returns true) /\
    selected_piece g' = None /\
    current_player g' = black /\
    has_destination false g' /\
    is_game_over g' = Returns false /\
    winner g' = Some black /\
    winner g' <> None.
Proof.
  split; [exact blocked_reachable|].
  split; [vm_compute; reflexivity|].
  split; [vm_compute; reflexivity|].
  split; [vm_compute; reflexivity|].
  split; [vm_compute; reflexivity|].
  split; [vm_compute; reflexivity|].
  eexists. split; [vm_compute; reflexivity|].
  split; [reflexivity|]. split; [reflexivity|]. split.
  { apply is_game_over_false. vm_compute. reflexivity. }
  split; [vm_compute; reflexivity|]. split; [reflexivity|]. discriminate.
Qed.
